(** * Tribol contact kernel: geometry primitives and coupling scheme

    A shallow embedding of the routines of
    [src/tribol/geom/GeomUtilities.cpp] and
    [src/tribol/mesh/CouplingScheme.cpp] that the specification makes
    claims about and of the routines around them, followed by the
    properties proved of them.

    Conventions of the embedding.
    - [RealT] (a C++ [double]) is Rocq's primitive binary64 float, so
      every arithmetic operation and comparison rounds and treats NaN
      exactly as the compiled code does.
    - [int] and [IndexT] values are [Z]; no count handled here comes
      near the 32-bit range.
    - A coordinate array ([const RealT*]) is a [list RealT]; the element
      count travels separately, as in the C++ signatures.
    - Reference (out) parameters are returned in the result.
    - A path on which the C++ code reads an uninitialised local or
      writes past a fixed-size local array has no defined behaviour; the
      embedding returns [None] there.

    The general theorems are those of the control flow and of the
    formulas as written: none depends on how an arithmetic operation
    rounds; those about signs use only that rounding keeps the sign of
    a result.  The evaluated scenarios use coordinates that are exact
    in binary64, except the two that are about rounding and tolerances
    (the thin quadrilateral and the snug square of [Fixtures]). *)

From Stdlib Require Import ZArith QArith Qabs List Bool Lia FinFun.
From Stdlib Require Import Permutation.
From Stdlib Require Import Floats.
From Stdlib Require Uint63.
Import ListNotations.

Set Warnings "-inexact-float".

Local Open Scope Z_scope.

(** ** Shared vocabulary *)

Definition RealT := float.

(** [FaceGeomError]: the tags returned by the computational-geometry
    routines.  Modelled from the spec: the enumeration is declared in a
    header that is not among the sources; the spec names its members,
    and [segErr != 0] in [Intersection2DPolygon] compares against the
    no-error tag, so [NO_FACE_GEOM_ERROR] is the enumerator 0. *)
Inductive FaceGeomError :=
| NO_FACE_GEOM_ERROR
| FACE_ORIENTATION
| INVALID_FACE_INPUT
| DEGENERATE_OVERLAP
| FACE_VERTEX_INDEX_EXCEEDS_OVERLAP_VERTICES.

Definition FaceGeomError_eqb (a b : FaceGeomError) : bool :=
  match a, b with
  | NO_FACE_GEOM_ERROR, NO_FACE_GEOM_ERROR
  | FACE_ORIENTATION, FACE_ORIENTATION
  | INVALID_FACE_INPUT, INVALID_FACE_INPUT
  | DEGENERATE_OVERLAP, DEGENERATE_OVERLAP
  | FACE_VERTEX_INDEX_EXCEEDS_OVERLAP_VERTICES,
    FACE_VERTEX_INDEX_EXCEEDS_OVERLAP_VERTICES => true
  | _, _ => false
  end.

(** Conversion of an [int] to [double], as in [1.0 / numVert]. *)
Definition Z2R (n : Z) : RealT :=
  if n <? 0 then PrimFloat.opp (PrimFloat.of_uint63 (Uint63.of_Z (- n)))
  else PrimFloat.of_uint63 (Uint63.of_Z n).

(** Array read [a[i]]. *)
Definition idx {A} (d : A) (a : list A) (i : Z) : A := nth (Z.to_nat i) a d.

Definition rd (a : list RealT) (i : Z) : RealT := idx 0%float a i.

Definition rdi (a : list Z) (i : Z) : Z := idx 0 a i.

(** Array write [a[i] = v] inside the array. *)
Fixpoint upd_nat {A} (a : list A) (n : nat) (v : A) : list A :=
  match a, n with
  | [], _ => []
  | _ :: t, O => v :: t
  | h :: t, S n' => h :: upd_nat t n' v
  end.

Definition upd {A} (a : list A) (i : Z) (v : A) : list A :=
  if i <? 0 then a else upd_nat a (Z.to_nat i) v.

(** The indices [0, 1, ..., n-1] of a [for (int i=0; i<n; ++i)] loop. *)
Definition range (n : Z) : list Z := map Z.of_nat (seq 0 (Z.to_nat n)).

(** The successor index on a closed polygon:
    [(i == (n-1)) ? 0 : (i+1)]. *)
Definition next_id (i n : Z) : Z := if i =? n - 1 then 0 else i + 1.

(** Filling the first entries of a caller-supplied buffer: entries
    [0 .. length vals - 1] are overwritten, the rest of the buffer is
    kept. *)
Definition fill {A} (buf vals : list A) : list A :=
  vals ++ skipn (length vals) buf.

Module Geom.

Local Open Scope float_scope.

(** *** Helpers of [tribol/utils/Math.hpp] and axom

    Modelled from the spec: [Math.hpp] and the axom utilities are not
    among the sources.  [magnitude] and [magCrossProd] are the Euclidean
    lengths their names and their uses (segment lengths, triangle areas)
    call for; [axom::utilities::max] is the usual ternary.  No property
    below depends on how they round. *)
Definition magnitude (vx vy : RealT) : RealT := sqrt (vx * vx + vy * vy).


Definition magCrossProd (u v : RealT * RealT * RealT) : RealT :=
  let '(u0, u1, u2) := u in
  let '(v0, v1, v2) := v in
  let cx := u1 * v2 - u2 * v1 in
  let cy := u2 * v0 - u0 * v2 in
  let cz := u0 * v1 - u1 * v0 in
  sqrt (cx * cx + cy * cy + cz * cz).

(** *** [Vertex2DOrderToCCW]

    The only routine whose array indexing is itself the subject of a
    claim, so its loads and stores are bounds-checked: an access outside
    the array is reported as a [MemFault] instead of a value. *)
Inductive MemFault :=
| ReadPastEnd (index size : Z)
| WritePastEnd (index size : Z).

Definition load (a : list RealT) (i : Z) : MemFault + RealT :=
  let n := Z.of_nat (length a) in
  if ((0 <=? i) && (i <? n))%Z then inr (rd a i) else inl (ReadPastEnd i n).

Definition store (a : list RealT) (i : Z) (v : RealT)
  : MemFault + list RealT :=
  let n := Z.of_nat (length a) in
  if ((0 <=? i) && (i <? n))%Z then inr (upd a i v) else inl (WritePastEnd i n).

Definition mbind {E A B} (m : E + A) (f : A -> E + B) : E + B :=
  match m with
  | inl e => inl e
  | inr a => f a
  end.

Notation "x <- m ;; k" := (mbind m (fun x => k))
  (at level 61, m at next level, right associativity).

(** The loop [for (int i=numVert; i>0; --i)], entered with [i] and [k];
    [i] is the loop variable itself. *)
Fixpoint ccw_loop (x y xTemp yTemp : list RealT) (i : nat) (k : Z)
  : MemFault + (list RealT * list RealT) :=
  match i with
  | O => inr (xTemp, yTemp)
  | S i' =>
      xi <- load x (Z.of_nat i) ;;
      xTemp' <- store xTemp k xi ;;
      yi <- load y (Z.of_nat i) ;;
      yTemp' <- store yTemp k yi ;;
      ccw_loop x y xTemp' yTemp' i' (k + 1)%Z
  end.

Definition Vertex2DOrderToCCW (x y xTemp yTemp : list RealT) (numVert : Z)
  : MemFault + (list RealT * list RealT) :=
  if (numVert <=? 0)%Z then inr (xTemp, yTemp)
  else
    x0 <- load x 0 ;;
    xTemp0 <- store xTemp 0 x0 ;;
    y0 <- load y 0 ;;
    yTemp0 <- store yTemp 0 y0 ;;
    ccw_loop x y xTemp0 yTemp0 (Z.to_nat numVert) 1.

(** *** Centroids *)

Definition Vec3 : Type := RealT * RealT * RealT.

(** [VertexAvgCentroid( x, y, z, numVert, cX, cY, cZ )]; [z] is [None]
    for a null pointer.  The incoming centroid is returned untouched on
    the failing path. *)
Definition VertexAvgCentroid (x y : list RealT) (z : option (list RealT))
    (numVert : Z) (c : Vec3) : bool * Vec3 :=
  if (numVert =? 0)%Z then (false, c)
  else
    let fac := 1 / Z2R numVert in
    let '(cX, cY, cZ) :=
      fold_left
        (fun (acc : Vec3) (i : Z) =>
           let '(cX, cY, cZ) := acc in
           (cX + rd x i, cY + rd y i,
            match z with
            | Some zs => cZ + rd zs i
            | None => cZ
            end))
        (range numVert) (0, 0, 0) in
    (true, (cX * fac, cY * fac, cZ * fac)).

(** [VertexAvgCentroid( x, dim, numVert, cX, cY, cZ )] on an interleaved
    coordinate array. *)
Definition VertexAvgCentroid_stacked (x : list RealT) (dim numVert : Z)
    (c : Vec3) : bool * Vec3 :=
  if (numVert =? 0)%Z then (false, c)
  else
    let fac := 1 / Z2R numVert in
    let '(cX, cY, cZ) :=
      fold_left
        (fun (acc : Vec3) (i : Z) =>
           let '(cX, cY, cZ) := acc in
           (cX + rd x (dim * i)%Z, cY + rd x (dim * i + 1)%Z,
            if (2 <? dim)%Z then cZ + rd x (dim * i + 2)%Z else cZ))
        (range numVert) (0, 0, 0) in
    (true, (cX * fac, cY * fac, cZ * fac)).

Definition Area3DTri (x y z : Vec3) : RealT :=
  let '(x0, x1, x2) := x in
  let '(y0, y1, y2) := y in
  let '(z0, z1, z2) := z in
  let u := (x1 - x0, y1 - y0, z1 - z0) in
  let v := (x2 - x0, y2 - y0, z2 - z0) in
  abs (0.5 * magCrossProd u v).

(** [PolyAreaCentroid].  The host-only [SLIC_ERROR_IF] lines log and do
    not change the value returned. *)
Definition PolyAreaCentroid (x : list RealT) (dim numVert : Z) (c : Vec3)
  : bool * Vec3 :=
  if (numVert =? 0)%Z then (false, c)
  else
    let '(cX_poly, cY_poly, cZ_poly) :=
      snd (VertexAvgCentroid_stacked x dim numVert (0, 0, 0)) in
    let step (acc : Vec3 * RealT) (i : Z) :=
      let '((cX, cY, cZ), area_sum) := acc in
      let triId := i in
      let triIdPlusOne := if (i =? numVert - 1)%Z then 0%Z else (triId + 1)%Z in
      let xTri := (rd x (dim * triId)%Z, rd x (dim * triIdPlusOne)%Z, cX_poly) in
      let yTri :=
        (rd x (dim * triId + 1)%Z, rd x (dim * triIdPlusOne + 1)%Z, cY_poly) in
      let zTri :=
        (rd x (dim * triId + 2)%Z, rd x (dim * triIdPlusOne + 2)%Z, cZ_poly) in
      let area_tri := Area3DTri xTri yTri zTri in
      let '(x0, x1, x2) := xTri in
      let '(y0, y1, y2) := yTri in
      let '(z0, z1, z2) := zTri in
      let '(cX_tri, cY_tri, cZ_tri) :=
        snd (VertexAvgCentroid [x0; x1; x2] [y0; y1; y2] (Some [z0; z1; z2])
               3 (0, 0, 0)) in
      ((cX + cX_tri * area_tri, cY + cY_tri * area_tri, cZ + cZ_tri * area_tri),
       area_sum + area_tri) in
    let '((cX, cY, cZ), area_sum) :=
      fold_left step (range numVert) ((0, 0, 0), 0) in
    (true, (cX / area_sum, cY / area_sum, cZ / area_sum)).

(** *** Point location and orientation *)

Definition Point2DInTri (xp yp : RealT) (xTri yTri : list RealT) : bool :=
  let e1x := rd xTri 1 - rd xTri 0 in
  let e1y := rd yTri 1 - rd yTri 0 in
  let e2x := rd xTri 2 - rd xTri 0 in
  let e2y := rd yTri 2 - rd yTri 0 in
  let p1x := xp - rd xTri 0 in
  let p1y := yp - rd yTri 0 in
  let e11 := e1x * e1x + e1y * e1y in
  let e12 := e1x * e2x + e1y * e2y in
  let e22 := e2x * e2x + e2y * e2y in
  let p1e1 := p1x * e1x + p1y * e1y in
  let p1e2 := p1x * e2x + p1y * e2y in
  let invDet := 1 / (e11 * e22 - e12 * e12) in
  let u := invDet * (e22 * p1e1 - e12 * p1e2) in
  let v := invDet * (e11 * p1e2 - e12 * p1e1) in
  let u := if abs u <? 1e-12 then 0 else u in
  let v := if abs v <? 1e-12 then 0 else v in
  (0 <=? u) && (0 <=? v) && (u + v <=? 1).

(** The loop of [Point2DInFace] over the triangles (vertex i, vertex
    i+1, centroid), leaving at the first triangle that holds the
    point. *)
Fixpoint inFace_loop (xPoint yPoint : RealT) (xPoly yPoly : list RealT)
    (xC yC : RealT) (numPolyVert : Z) (todo : list Z) : bool :=
  match todo with
  | [] => false
  | i :: rest =>
      let x1 := if (i =? numPolyVert - 1)%Z then rd xPoly 0 else rd xPoly (i + 1)%Z in
      let y1 := if (i =? numPolyVert - 1)%Z then rd yPoly 0 else rd yPoly (i + 1)%Z in
      if Point2DInTri xPoint yPoint [rd xPoly i; x1; xC] [rd yPoly i; y1; yC]
      then true
      else inFace_loop xPoint yPoint xPoly yPoly xC yC numPolyVert rest
  end.

Definition Point2DInFace (xPoint yPoint : RealT) (xPoly yPoly : list RealT)
    (xC yC : RealT) (numPolyVert : Z) : bool :=
  if (numPolyVert =? 3)%Z then Point2DInTri xPoint yPoint xPoly yPoly
  else inFace_loop xPoint yPoint xPoly yPoly xC yC numPolyVert (range numPolyVert).

Fixpoint orient_loop (x y : list RealT) (numVertex : Z) (todo : list Z) : bool :=
  match todo with
  | [] => true
  | i :: rest =>
      let ia := i in
      let ib := next_id i numVertex in
      let lambdaX := rd x ib - rd x ia in
      let lambdaY := rd y ib - rd y ia in
      let nrmlx := - lambdaY in
      let nrmly := lambdaX in
      let '(xc, yc, _) := snd (VertexAvgCentroid x y None numVertex (0, 0, 0)) in
      let vx := xc - rd x ia in
      let vy := yc - rd y ia in
      let prod := vx * nrmlx + vy * nrmly in
      if prod <? 0 then false else orient_loop x y numVertex rest
  end.

Definition CheckPolyOrientation (x y : list RealT) (numVertex : Z) : bool :=
  orient_loop x y numVertex (range numVertex).

Definition Area2DPolygon (x y : list RealT) (numPolyVert : Z) : RealT :=
  let '(xc, yc, _) := snd (VertexAvgCentroid x y None numPolyVert (0, 0, 0)) in
  fold_left
    (fun (area : RealT) (i : Z) =>
       let ia := i in
       let ib := next_id i numPolyVert in
       area + abs (0.5 * (rd x ia * (rd y ib - yc) +
                          rd x ib * (yc - rd y ia) +
                          xc * (rd y ia - rd y ib))))
    (range numPolyVert) 0.

(** *** [SegmentIntersection2D]

    The arguments keep the C++ order: the first segment runs from
    (xA1,yA1) to (xB1,yB1), the second from (xA2,yA2) to (xB2,yB2).
    [interior] is [None] for a null pointer.  The result is the returned
    flag together with [x], [y] and [duplicate].  [idMin] is declared
    without an initial value; when no vertex is closer than the longer
    segment length it is read unset, and the result is [None]. *)
Definition closest_step (x y : RealT)
    (st : RealT * option (Z * RealT * RealT)) (v : Z * RealT * RealT)
  : RealT * option (Z * RealT * RealT) :=
  let '(distMin, best) := st in
  let '(i, xv, yv) := v in
  let distMag := magnitude (x - xv) (y - yv) in
  if distMag <? distMin then (distMag, Some (i, xv, yv)) else (distMin, best).

Definition SegmentIntersection2D
    (xA1 yA1 xB1 yB1 xA2 yA2 xB2 yB2 : RealT)
    (interior : option (list bool)) (tol : RealT)
  : option (bool * RealT * RealT * bool) :=
  let lambdaX1 := xB1 - xA1 in
  let lambdaY1 := yB1 - yA1 in
  let lambdaX2 := xB2 - xA2 in
  let lambdaY2 := yB2 - yA2 in
  let seg1Mag := magnitude lambdaX1 lambdaY1 in
  let seg2Mag := magnitude lambdaX2 lambdaY2 in
  let det := (- lambdaX1) * lambdaY2 + lambdaX2 * lambdaY1 in
  let detTol := 1e-12 in
  if ((- detTol) <? det) && (det <? detTol) then Some (false, 0, 0, false)
  else
    let invDet := 1 / det in
    let rX := xA1 - xA2 in
    let rY := yA1 - yA2 in
    let tA := invDet * (rX * lambdaY2 - rY * lambdaX2) in
    let tB := invDet * (rX * lambdaY1 - rY * lambdaX1) in
    if ((tA <? 0) || (1 <? tA)) || ((tB <? 0) || (1 <? tB))
    then Some (false, 0, 0, false)
    else
      let x := xA1 + lambdaX1 * tA in
      let y := yA1 + lambdaY1 * tA in
      let distMin0 := if seg2Mag <? seg1Mag then seg1Mag else seg2Mag in
      let '(distMin, best) :=
        fold_left (closest_step x y)
          [(0%Z, xA1, yA1); (1%Z, xB1, yB1); (2%Z, xA2, yA2); (3%Z, xB2, yB2)]
          (distMin0, None) in
      match best with
      | None => None
      | Some (idMin, xMinVert, yMinVert) =>
          let distRatio :=
            if ((idMin =? 0) || (idMin =? 1))%Z
            then distMin / seg1Mag else distMin / seg2Mag in
          if (distRatio <? tol) &&
             match interior with
             | None => true
             | Some flags => idx false flags idMin
             end
          then Some (false, xMinVert, yMinVert, true)
          else Some (true, x, y, false)
      end.

(** *** [CheckPolySegs]

    Result: the error tag, [xnew], [ynew] and [numNewPoints].  [newIDs]
    has room for 8 entries, so more than 8 points are outside the
    defined behaviour. *)
Definition collapse_step (x y : list RealT) (numPoints : Z) (tol : RealT)
    (newIDs : list Z) (i : Z) : list Z :=
  let ia := i in
  let ib := next_id i numPoints in
  let lambdaX := rd x ib - rd x ia in
  let lambdaY := rd y ib - rd y ia in
  let lambdaMag := magnitude lambdaX lambdaY in
  if lambdaMag <? tol then upd newIDs ib i else newIDs.

Definition kept (newIDs : list Z) (i : Z) : bool := (rdi newIDs i =? i)%Z.

(** The copy loop with its guard [k > numNewPoints]; the kept vertices
    are accumulated in the order they are written to [xnew], [ynew]. *)
Fixpoint copy_kept (x y : list RealT) (newIDs : list Z) (numNewPoints : Z)
    (todo : list Z) (k : Z) (accx accy : list RealT)
  : FaceGeomError + (list RealT * list RealT) :=
  match todo with
  | [] => inr (accx, accy)
  | i :: rest =>
      if kept newIDs i then
        if (numNewPoints <? k)%Z
        then inl FACE_VERTEX_INDEX_EXCEEDS_OVERLAP_VERTICES
        else copy_kept x y newIDs numNewPoints rest (k + 1)%Z
               (accx ++ [rd x i]) (accy ++ [rd y i])
      else copy_kept x y newIDs numNewPoints rest k accx accy
  end.

Definition CheckPolySegs (x y : list RealT) (numPoints : Z) (tol : RealT)
    (xnew ynew : list RealT) (numNewPoints : Z)
  : option (FaceGeomError * list RealT * list RealT * Z) :=
  if (8 <? numPoints)%Z then None
  else
    let newIDs := fold_left (collapse_step x y numPoints tol)
                    (range numPoints) (range numPoints) in
    let numNewPoints :=
      fold_left (fun (n : Z) (i : Z) => if kept newIDs i then (n + 1)%Z else n)
        (range numPoints) 0%Z in
    if (numNewPoints <? 3)%Z
    then Some (NO_FACE_GEOM_ERROR, xnew, ynew, numNewPoints)
    else
      match copy_kept x y newIDs numNewPoints (range numPoints) 0 [] [] with
      | inl e => Some (e, xnew, ynew, numNewPoints)
      | inr (xs, ys) =>
          Some (NO_FACE_GEOM_ERROR, fill xnew xs, fill ynew ys, numNewPoints)
      end.

(** *** [PolyReorder]

    Result: the returned flag and the reordered [x], [y].  The local
    arrays hold 16 ids (14 projections), so more than 16 points are
    outside the defined behaviour, and so is an angle search in which no
    candidate beats [cosThetaMax]: [jID] is then read unset. *)

(** The scan deciding whether the projections take both signs, with its
    [break]. *)
Fixpoint side_scan (proj : list RealT) (neg pos : bool) : bool * bool :=
  match proj with
  | [] => (neg, pos)
  | p :: rest =>
      let neg := if neg then true else p <? 0 in
      let pos := if pos then true else 0 <? p in
      if neg && pos then (neg, pos) else side_scan rest neg pos
  end.

(** The search for the second vertex [id1] of the first counter-clockwise
    hull segment; -1 when no [j] qualifies. *)
Fixpoint find_id1 (x y : list RealT) (numPoints : Z) (xC yC : RealT)
    (id0 : Z) (js : list Z) : Z :=
  match js with
  | [] => (-1)%Z
  | j :: rest =>
      let lambdaX := rd x j - rd x id0 in
      let lambdaY := rd y j - rd y id0 in
      let nrmlx := - lambdaY in
      let nrmly := lambdaX in
      let proj :=
        map (fun k => (rd x k - rd x id0) * nrmlx + (rd y k - rd y id0) * nrmly)
          (filter (fun k => negb (k =? id0)%Z && negb (k =? j)%Z)
             (range numPoints)) in
      let '(neg, pos) := side_scan proj false false in
      if negb neg || negb pos then
        let vx := xC - rd x id0 in
        let vy := yC - rd y id0 in
        let prod := nrmlx * vx + nrmly * vy in
        if 0 <? prod then j else find_id1 x y numPoints xC yC id0 rest
      else find_id1 x y numPoints xC yC id0 rest
  end.

(** One candidate [j] of the link-vector loop: keeps the largest cosine
    seen and the position [jID] that gave it. *)
Definition link_step (x y : list RealT) (newIDs : list Z) (i : Z)
    (refx refy refMag : RealT) (st : RealT * option Z) (j : Z)
  : RealT * option Z :=
  let '(cosThetaMax, jID) := st in
  let lx := rd x (rdi newIDs j) - rd x (rdi newIDs i) in
  let ly := rd y (rdi newIDs j) - rd y (rdi newIDs i) in
  let linkMag := magnitude lx ly in
  let cosTheta := (lx * refx + ly * refy) / (refMag * linkMag) in
  if cosThetaMax <? cosTheta then (cosTheta, Some j) else (cosThetaMax, jID).

(** The outer loop [for (int i=0; i<(numPoints-3); ++i)]. *)
Fixpoint order_loop (x y : list RealT) (numPoints : Z) (newIDs : list Z)
    (todo : list Z) : option (list Z) :=
  match todo with
  | [] => Some newIDs
  | i :: rest =>
      let refx := rd x (rdi newIDs (i + 1)%Z) - rd x (rdi newIDs i) in
      let refy := rd y (rdi newIDs (i + 1)%Z) - rd y (rdi newIDs i) in
      let refMag := magnitude refx refy in
      let nextVertexID := (2 + i)%Z in
      let '(_, jID) :=
        fold_left (link_step x y newIDs i refx refy refMag)
          (map (fun t => (nextVertexID + t)%Z) (range (numPoints - nextVertexID)))
          (-1, None) in
      match jID with
      | None => None
      | Some jID =>
          let swapID := rdi newIDs nextVertexID in
          let newIDs := upd newIDs nextVertexID (rdi newIDs jID) in
          let newIDs := upd newIDs jID swapID in
          order_loop x y numPoints newIDs rest
      end
  end.

Definition PolyReorder (x y : list RealT) (numPoints : Z)
  : option (bool * list RealT * list RealT) :=
  if (numPoints <? 3)%Z then Some (false, x, y)
  else if (16 <? numPoints)%Z then None
  else
    let newIDs := range numPoints in
    let '(xC, yC, _) := snd (VertexAvgCentroid x y None numPoints (0, 0, 0)) in
    let id0 := 0%Z in
    let newIDs := upd newIDs 0 id0 in
    let id1 := find_id1 x y numPoints xC yC id0
                 (map (fun t => (1 + t)%Z) (range (numPoints - 1))) in
    let newIDs :=
      if negb (id1 =? -1)%Z then upd (upd newIDs 1 id1) id1 1%Z else newIDs in
    match order_loop x y numPoints newIDs (range (numPoints - 3)) with
    | None => None
    | Some newIDs =>
        Some (true,
              fill x (map (fun i => rd x (rdi newIDs i)) (range numPoints)),
              fill y (map (fun i => rd y (rdi newIDs i)) (range numPoints)))
    end.

(** *** [Intersection2DPolygon]

    The out-parameters [polyX], [polyY], [numPolyVert] and [area] are
    gathered in an [Overlap] that is passed in (their values before the
    call) and returned beside the error tag; a path that does not assign
    one of them leaves it as it came in.

    The body is cut where the source's own comments cut it:
    [findOverlapVertices] (argument checks, interior vertices, removal
    of coincident interior vertices, segment intersections),
    [gatherOverlapVertices] (filling [polyXTemp], [polyYTemp]) and
    [finishOverlap] (reordering, short-edge collapse, area). *)
Record Overlap := mkOverlap {
  polyX : list RealT;
  polyY : list RealT;
  numPolyVert : Z;
  area : RealT
}.

Definition set_area (o : Overlap) (a : RealT) : Overlap :=
  mkOverlap (polyX o) (polyY o) (numPolyVert o) a.

Definition set_numPolyVert (o : Overlap) (n : Z) : Overlap :=
  mkOverlap (polyX o) (polyY o) n (area o).

Definition set_poly (o : Overlap) (px py : list RealT) : Overlap :=
  mkOverlap px py (numPolyVert o) (area o).

(** [initIntArray( a, n, -1 )]. *)
Definition initIntArray (n : Z) (v : Z) : list Z := repeat v (Z.to_nat n).

(** The loops "check A in B" and "check B in A": the interior-vertex id
    array of polygon P with respect to polygon Q, and the number of
    interior vertices. *)
Definition classify (xP yP : list RealT) (numVertexP : Z)
    (xQ yQ : list RealT) (xCQ yCQ : RealT) (numVertexQ : Z) : list Z * Z :=
  fold_left
    (fun (st : list Z * Z) (i : Z) =>
       let '(interiorId, num) := st in
       if Point2DInFace (rd xP i) (rd yP i) xQ yQ xCQ yCQ numVertexQ
       then (upd interiorId i i, (num + 1)%Z)
       else st)
    (range numVertexP) (initIntArray numVertexP (-1), 0%Z).

(** The test of the coincident-vertex loop on vertex [i] of A and
    vertex [j] of B. *)
Definition coincident (xA yA xB yB : list RealT) (i j : Z) : bool :=
  let distX := rd xA i - rd xB j in
  let distY := rd yA i - rd yB j in
  let distMag := magnitude distX distY in
  distMag <? 1e-15.

Definition dedup_inner (xA yA xB yB : list RealT) (i : Z)
    (st : list Z * Z) (j : Z) : list Z * Z :=
  let '(interiorVBId, numVBI) := st in
  if negb (rdi interiorVBId j =? -1)%Z then
    if coincident xA yA xB yB i j
    then (upd interiorVBId j (-1)%Z, (numVBI - 1)%Z)
    else st
  else st.

(** The loop "check for coincident interior vertices". *)
Definition dedupInterior (xA yA : list RealT) (numVertexA : Z)
    (xB yB : list RealT) (numVertexB : Z)
    (interiorVAId interiorVBId : list Z) (numVBI : Z) : list Z * Z :=
  fold_left
    (fun (st : list Z * Z) (i : Z) =>
       if negb (rdi interiorVAId i =? -1)%Z
       then fold_left (dedup_inner xA yA xB yB i) (range numVertexB) st
       else st)
    (range numVertexA) (interiorVBId, numVBI).

(** The double loop over the segments of A and of B.  Entry [interId]
    of [intersect], [interX], [interY] is the [interId]-th element of
    the list, the three arrays being filled together. *)
Fixpoint segment_loop (xA yA : list RealT) (numVertexA : Z)
    (xB yB : list RealT) (numVertexB : Z)
    (interiorVAId interiorVBId : list Z) (posTol : RealT)
    (pairs : list (Z * Z)) (inters : list (bool * RealT * RealT))
  : option (FaceGeomError + list (bool * RealT * RealT)) :=
  match pairs with
  | [] => Some (inr inters)
  | (ia, jb) :: rest =>
      let vAID1 := ia in
      let vAID2 := next_id ia numVertexA in
      let vBID1 := jb in
      let vBID2 := next_id jb numVertexB in
      let interior :=
        [negb (rdi interiorVAId vAID1 =? -1)%Z;
         negb (rdi interiorVAId vAID2 =? -1)%Z;
         negb (rdi interiorVBId vBID1 =? -1)%Z;
         negb (rdi interiorVBId vBID2 =? -1)%Z] in
      let interId := Z.of_nat (length inters) in
      if (16 <=? interId)%Z then Some (inl DEGENERATE_OVERLAP)
      else
        match SegmentIntersection2D
                (rd xA vAID1) (rd yA vAID1) (rd xA vAID2) (rd yA vAID2)
                (rd xB vBID1) (rd yB vBID1) (rd xB vBID2) (rd yB vBID2)
                (Some interior) posTol with
        | None => None
        | Some (hit, x, y, _) =>
            segment_loop xA yA numVertexA xB yB numVertexB
              interiorVAId interiorVBId posTol rest (inters ++ [(hit, x, y)])
        end
  end.

Record Found := mkFound {
  interiorVAId : list Z;
  interiorVBId : list Z;
  numVAI : Z;
  numVBI : Z;
  inters : list (bool * RealT * RealT)
}.

(** The first part of the body, up to the count of segment
    intersections: either an early return (error tag and outputs) or the
    findings.  [interiorVAId] and [interiorVBId] have 4 entries, so a
    polygon of more than 4 vertices that passes the checks is outside
    the defined behaviour. *)
Definition findOverlapVertices (xA yA : list RealT) (numVertexA : Z)
    (xB yB : list RealT) (numVertexB : Z) (posTol : RealT)
    (out : Overlap) (orientCheck : bool)
  : option (FaceGeomError * Overlap + Found) :=
  if ((numVertexA <? 3) || (numVertexB <? 3))%Z
  then Some (inl (INVALID_FACE_INPUT, set_area out 0))
  else if orientCheck &&
          (negb (CheckPolyOrientation xA yA numVertexA) ||
           negb (CheckPolyOrientation xB yB numVertexB))
  then Some (inl (FACE_ORIENTATION, out))
  else if ((4 <? numVertexA) || (4 <? numVertexB))%Z then None
  else
    let '(xCA, yCA, _) := snd (VertexAvgCentroid xA yA None numVertexA (0, 0, 0)) in
    let '(xCB, yCB, _) := snd (VertexAvgCentroid xB yB None numVertexB (0, 0, 0)) in
    let '(interiorVAId, numVAI) :=
      classify xA yA numVertexA xB yB xCB yCB numVertexB in
    if (numVAI =? numVertexA)%Z then
      let px := fill (polyX out) (map (rd xA) (range numVertexA)) in
      let py := fill (polyY out) (map (rd yA) (range numVertexA)) in
      Some (inl (NO_FACE_GEOM_ERROR,
                 mkOverlap px py numVertexA (Area2DPolygon px py numVertexA)))
    else
      let '(interiorVBId, numVBI) :=
        classify xB yB numVertexB xA yA xCA yCA numVertexA in
      if (numVBI =? numVertexB)%Z then
        let px := fill (polyX out) (map (rd xB) (range numVertexB)) in
        let py := fill (polyY out) (map (rd yB) (range numVertexB)) in
        Some (inl (NO_FACE_GEOM_ERROR,
                   mkOverlap px py numVertexB (Area2DPolygon px py numVertexB)))
      else
        let '(interiorVBId, numVBI) :=
          dedupInterior xA yA numVertexA xB yB numVertexB
            interiorVAId interiorVBId numVBI in
        match segment_loop xA yA numVertexA xB yB numVertexB
                interiorVAId interiorVBId posTol
                (list_prod (range numVertexA) (range numVertexB)) [] with
        | None => None
        | Some (inl e) => Some (inl (e, out))
        | Some (inr inters) =>
            Some (inr (mkFound interiorVAId interiorVBId numVAI numVBI inters))
        end.

(** The two loops appending the interior vertices of a polygon to
    [polyXTemp], [polyYTemp] (16 entries each) at position [k]. *)
Fixpoint append_interior (x y : list RealT) (interiorId : list Z)
    (todo : list Z) (tX tY : list RealT)
  : option (FaceGeomError + (list RealT * list RealT)) :=
  match todo with
  | [] => Some (inr (tX, tY))
  | i :: rest =>
      if negb (rdi interiorId i =? -1)%Z then
        let k := Z.of_nat (length tX) in
        if (16 <? k)%Z then Some (inl FACE_VERTEX_INDEX_EXCEEDS_OVERLAP_VERTICES)
        else if (16 <=? k)%Z then None
        else append_interior x y interiorId rest (tX ++ [rd x i]) (tY ++ [rd y i])
      else append_interior x y interiorId rest tX tY
  end.

Definition numSegInter (inters : list (bool * RealT * RealT)) : Z :=
  fold_left (fun (n : Z) (t : bool * RealT * RealT) =>
               if fst (fst t) then (n + 1)%Z else n) inters 0%Z.

(** The second part: the early return when nothing was found, then the
    filling of [polyXTemp], [polyYTemp]; [numPolyVert] is assigned on
    the way. *)
Definition gatherOverlapVertices (xA yA : list RealT) (numVertexA : Z)
    (xB yB : list RealT) (numVertexB : Z) (f : Found) (out : Overlap)
  : option (FaceGeomError * Overlap + list RealT * list RealT * Overlap) :=
  if ((numSegInter (inters f) =? 0) && (numVBI f =? 0) && (numVAI f =? 0))%Z
  then Some (inl (NO_FACE_GEOM_ERROR, set_area out 0))
  else
    let out := set_numPolyVert out
                 (numSegInter (inters f) + numVAI f + numVBI f)%Z in
    let hits := filter (fun t : bool * RealT * RealT => fst (fst t)) (inters f) in
    let tX := map (fun t : bool * RealT * RealT => snd (fst t)) hits in
    let tY := map (fun t : bool * RealT * RealT => snd t) hits in
    match append_interior xA yA (interiorVAId f) (range numVertexA) tX tY with
    | None => None
    | Some (inl e) => Some (inl (e, out))
    | Some (inr (tX, tY)) =>
        match append_interior xB yB (interiorVBId f) (range numVertexB) tX tY with
        | None => None
        | Some (inl e) => Some (inl (e, out))
        | Some (inr (tX, tY)) => Some (inr (tX, tY, out))
        end
    end.

(** The last part: reordering, collapse of short edges, area. *)
Definition finishOverlap (polyXTemp polyYTemp : list RealT) (lenTol : RealT)
    (out : Overlap) : option (FaceGeomError * Overlap) :=
  if (2 <? numPolyVert out)%Z then
    match PolyReorder polyXTemp polyYTemp (numPolyVert out) with
    | None => None
    | Some (_, polyXTemp, polyYTemp) =>
        match CheckPolySegs polyXTemp polyYTemp (numPolyVert out) lenTol
                (polyX out) (polyY out) 0 with
        | None => None
        | Some (segErr, px, py, numFinalVert) =>
            let out := set_poly out px py in
            if negb (FaceGeomError_eqb segErr NO_FACE_GEOM_ERROR)
            then Some (segErr, out)
            else if (numFinalVert <? 3)%Z
            then Some (NO_FACE_GEOM_ERROR, set_area out 0)
            else
              let out := set_numPolyVert out numFinalVert in
              Some (NO_FACE_GEOM_ERROR,
                    set_area out (Area2DPolygon (polyX out) (polyY out)
                                    (numPolyVert out)))
        end
    end
  else Some (NO_FACE_GEOM_ERROR, set_area out 0).

Definition Intersection2DPolygon (xA yA : list RealT) (numVertexA : Z)
    (xB yB : list RealT) (numVertexB : Z) (posTol lenTol : RealT)
    (out : Overlap) (orientCheck : bool) : option (FaceGeomError * Overlap) :=
  match findOverlapVertices xA yA numVertexA xB yB numVertexB posTol
          out orientCheck with
  | None => None
  | Some (inl early) => Some early
  | Some (inr f) =>
      match gatherOverlapVertices xA yA numVertexA xB yB numVertexB f out with
      | None => None
      | Some (inl early) => Some early
      | Some (inr (polyXTemp, polyYTemp, out)) =>
          finishOverlap polyXTemp polyYTemp lenTol out
      end
  end.

End Geom.

(** ** Coupling scheme ([CouplingScheme.cpp]) *)

Module Scheme.

(** *** Enumerations

    Modelled from the spec: the enumerations are declared in headers
    that are not among the sources.  The members are those the spec
    lists (section 6) and those [CouplingScheme.cpp] names; each type
    closes with the [NUM_...] enumerator the source compares against in
    [in_range].  The numeric values follow the order of declaration; no
    property below depends on them. *)
Inductive ContactMode :=
| SURFACE_TO_SURFACE | SURFACE_TO_SURFACE_CONFORMING | NUM_CONTACT_MODES.

Inductive ContactCase :=
| NO_CASE | NO_SLIDING | AUTO | TIED_NORMAL | NUM_CONTACT_CASES.

Inductive ContactMethod :=
| COMMON_PLANE | SINGLE_MORTAR | ALIGNED_MORTAR | MORTAR_WEIGHTS
| NUM_CONTACT_METHODS.

Inductive ContactModel :=
| FRICTIONLESS | TIED | COULOMB | NULL_MODEL | NUM_CONTACT_MODELS.

Inductive EnforcementMethod :=
| PENALTY | LAGRANGE_MULTIPLIER | NULL_ENFORCEMENT | NUM_ENFORCEMENT_METHODS.

Definition ContactMode_code (m : ContactMode) : Z :=
  match m with
  | SURFACE_TO_SURFACE => 0 | SURFACE_TO_SURFACE_CONFORMING => 1
  | NUM_CONTACT_MODES => 2
  end.

Definition ContactCase_code (c : ContactCase) : Z :=
  match c with
  | NO_CASE => 0 | NO_SLIDING => 1 | AUTO => 2 | TIED_NORMAL => 3
  | NUM_CONTACT_CASES => 4
  end.

Definition ContactMethod_code (m : ContactMethod) : Z :=
  match m with
  | COMMON_PLANE => 0 | SINGLE_MORTAR => 1 | ALIGNED_MORTAR => 2
  | MORTAR_WEIGHTS => 3 | NUM_CONTACT_METHODS => 4
  end.

Definition ContactModel_code (m : ContactModel) : Z :=
  match m with
  | FRICTIONLESS => 0 | TIED => 1 | COULOMB => 2 | NULL_MODEL => 3
  | NUM_CONTACT_MODELS => 4
  end.

Definition EnforcementMethod_code (m : EnforcementMethod) : Z :=
  match m with
  | PENALTY => 0 | LAGRANGE_MULTIPLIER => 1 | NULL_ENFORCEMENT => 2
  | NUM_ENFORCEMENT_METHODS => 3
  end.

(** [in_range( val, N )]: [0 <= val < N]. *)
Definition in_range (val n : Z) : bool := (0 <=? val) && (val <? n).

Definition ContactMode_eqb (a b : ContactMode) : bool :=
  ContactMode_code a =? ContactMode_code b.
Definition ContactCase_eqb (a b : ContactCase) : bool :=
  ContactCase_code a =? ContactCase_code b.
Definition ContactMethod_eqb (a b : ContactMethod) : bool :=
  ContactMethod_code a =? ContactMethod_code b.
Definition ContactModel_eqb (a b : ContactModel) : bool :=
  ContactModel_code a =? ContactModel_code b.
Definition EnforcementMethod_eqb (a b : EnforcementMethod) : bool :=
  EnforcementMethod_code a =? EnforcementMethod_code b.

Inductive ModeError := NO_MODE_ERROR | INVALID_MODE | NO_MODE_IMPLEMENTATION.

Inductive CaseError :=
| NO_CASE_ERROR | INVALID_CASE | NO_CASE_IMPLEMENTATION | INVALID_CASE_DATA.

Inductive MethodError :=
| NO_METHOD_ERROR | INVALID_METHOD | NO_METHOD_IMPLEMENTATION
| DIFFERENT_FACE_TYPES | SAME_MESH_IDS | SAME_MESH_IDS_INVALID_DIM
| INVALID_DIM | NULL_NODAL_RESPONSE.

Inductive ModelError :=
| NO_MODEL_ERROR | INVALID_MODEL | NO_MODEL_IMPLEMENTATION
| NO_MODEL_IMPLEMENTATION_FOR_REGISTERED_METHOD.

Inductive EnforcementError :=
| NO_ENFORCEMENT_ERROR | INVALID_ENFORCEMENT
| INVALID_ENFORCEMENT_FOR_REGISTERED_METHOD | INVALID_ENFORCEMENT_OPTION
| OPTIONS_NOT_SET | NO_ENFORCEMENT_IMPLEMENTATION
| NO_ENFORCEMENT_IMPLEMENTATION_FOR_REGISTERED_METHOD
| NO_ENFORCEMENT_IMPLEMENTATION_FOR_REGISTERED_OPTION.

Inductive EnforcementDataErrors :=
| NO_ENFORCEMENT_DATA_ERROR | ERROR_IN_REGISTERED_ENFORCEMENT_DATA.

Inductive CaseInfo :=
| NO_CASE_INFO
| SPECIFYING_NO_SLIDING_WITH_REGISTERED_MODE
| SPECIFYING_NO_SLIDING_WITH_REGISTERED_METHOD
| SPECIFYING_NONE_WITH_REGISTERED_METHOD
| SPECIFYING_NONE_WITH_TWO_REGISTERED_MESHES.

Inductive EnforcementInfo :=
| NO_ENFORCEMENT_INFO | SPECIFYING_NULL_ENFORCEMENT_WITH_REGISTERED_METHOD.

(** Option enumerations of which the source names only some members;
    the others are kept by their integer value. *)
Inductive ImplicitEvalMode := MORTAR_WEIGHTS_EVAL | OtherEvalMode (code : Z).

Inductive SparseMode :=
| MFEM_LINKED_LIST | MFEM_ELEMENT_DENSE | OtherSparseMode (code : Z).

Inductive KinematicPenaltyCalculation :=
| KINEMATIC_CONSTANT | KINEMATIC_ELEMENT.

Inductive MemorySpace := Dynamic | Host | Device | Unified.

(** Surface element types, with the number of vertices of a face of
    each.  Modelled from the spec: [MeshData] is not among the sources;
    the spec's data model has faces of V = 2 (segment), 3 (triangle) or
    4 (quad) vertices, identical over a mesh, so the vertex count of a
    mesh is the one of its element type. *)
Inductive InterfaceElementType := LINEAR_EDGE | LINEAR_TRIANGLE | LINEAR_QUAD.

Definition nodesPerElement (t : InterfaceElementType) : Z :=
  match t with
  | LINEAR_EDGE => 2
  | LINEAR_TRIANGLE => 3
  | LINEAR_QUAD => 4
  end.

Definition InterfaceElementType_eqb (a b : InterfaceElementType) : bool :=
  match a, b with
  | LINEAR_EDGE, LINEAR_EDGE
  | LINEAR_TRIANGLE, LINEAR_TRIANGLE
  | LINEAR_QUAD, LINEAR_QUAD => true
  | _, _ => false
  end.

Definition MemorySpace_eqb (a b : MemorySpace) : bool :=
  match a, b with
  | Dynamic, Dynamic | Host, Host | Device, Device | Unified, Unified => true
  | _, _ => false
  end.

(** *** Data *)

Record Parameters := mkParameters {
  gap_tol_ratio : RealT;
  gap_tied_tol : RealT;
  enable_timestep_vote : bool;
  timestep_pen_frac : RealT;
  auto_interpen_check : bool
}.

Record LagrangeMultiplierImplicitOptions := mkLmOptions {
  eval_mode : ImplicitEvalMode;
  sparse_mode : SparseMode;
  enforcement_option_set : bool
}.

Record PenaltyEnforcementOptions := mkPenaltyOptions {
  constraint_type_set : bool;
  kinematic_calculation : KinematicPenaltyCalculation
}.

Record EnforcementOptions := mkEnforcementOptions {
  lm_implicit_options : LagrangeMultiplierImplicitOptions;
  penalty_options : PenaltyEnforcementOptions
}.

(** The part of [MeshData] the coupling scheme consults.  Modelled from
    the spec: the class is not among the sources; each field is one of
    the accessors called in [CouplingScheme.cpp]. *)
Record MeshData := mkMeshData {
  getElementType : InterfaceElementType;
  getMemorySpace : MemorySpace;
  isMeshValid : bool;
  numberOfElements : Z;
  numberOfNodes : Z;
  spatialDimension : Z;
  is_nodal_response_set : bool;
  is_element_thickness_set : bool;
  hasVelocity : bool;
  getFaceRadii : list RealT
}.

Definition numberOfNodesPerElement (m : MeshData) : Z :=
  nodesPerElement (getElementType m).

Definition invalidate (m : MeshData) : MeshData :=
  mkMeshData (getElementType m) (getMemorySpace m) false (numberOfElements m)
    (numberOfNodes m) (spatialDimension m) (is_nodal_response_set m)
    (is_element_thickness_set m) (hasVelocity m) (getFaceRadii m).

(** [MeshManager]: the registry of meshes by id. *)
Definition MeshManager := Z -> option MeshData.

Definition findData (mm : MeshManager) (id : Z) : option MeshData := mm id.

Definition markInvalid (mm : MeshManager) (id : Z) : MeshManager :=
  fun k => if k =? id then option_map invalidate (mm k) else mm k.

Record CouplingSchemeErrors := mkErrors {
  cs_mode_error : ModeError;
  cs_case_error : CaseError;
  cs_method_error : MethodError;
  cs_model_error : ModelError;
  cs_enforcement_error : EnforcementError;
  cs_enforcement_data_error : EnforcementDataErrors
}.

Record CouplingSchemeInfo := mkInfo {
  cs_case_info : CaseInfo;
  cs_enforcement_info : EnforcementInfo
}.

Record PairReportingData := mkReporting {
  numBadOrientation : Z;
  numBadOverlaps : Z;
  numBadFaceGeometry : Z
}.

Record InterfacePair := mkPair {
  m_element_id1 : Z;
  m_element_id2 : Z;
  m_is_contact_candidate : bool
}.

(** The members of [CouplingScheme] the modelled routines read or
    write.  [m_mesh1], [m_mesh2] are the mesh views the scheme holds
    (set by [init]); [m_numActivePairs] is the size of the populated
    contact-plane array, the value of [getNumActivePairs()]. *)
Record CouplingScheme := mkScheme {
  m_id : Z;
  m_mesh_id1 : Z;
  m_mesh_id2 : Z;
  m_mesh1 : MeshData;
  m_mesh2 : MeshData;
  m_parameters : Parameters;
  m_nullMeshes : bool;
  m_isValid : bool;
  m_numTotalNodes : Z;
  m_contactMode : ContactMode;
  m_contactCase : ContactCase;
  m_contactMethod : ContactMethod;
  m_contactModel : ContactModel;
  m_enforcementMethod : EnforcementMethod;
  m_interface_pairs : list InterfacePair;
  m_numActivePairs : Z;
  m_enforcementOptions : EnforcementOptions;
  m_couplingSchemeErrors : CouplingSchemeErrors;
  m_couplingSchemeInfo : CouplingSchemeInfo;
  m_pairReportingData : PairReportingData
}.

(** Field updates. *)
Definition set_errors (cs : CouplingScheme) (e : CouplingSchemeErrors) :=
  mkScheme (m_id cs) (m_mesh_id1 cs) (m_mesh_id2 cs) (m_mesh1 cs) (m_mesh2 cs)
    (m_parameters cs) (m_nullMeshes cs) (m_isValid cs) (m_numTotalNodes cs)
    (m_contactMode cs) (m_contactCase cs) (m_contactMethod cs)
    (m_contactModel cs) (m_enforcementMethod cs) (m_interface_pairs cs)
    (m_numActivePairs cs) (m_enforcementOptions cs) e
    (m_couplingSchemeInfo cs) (m_pairReportingData cs).

Definition set_info (cs : CouplingScheme) (i : CouplingSchemeInfo) :=
  mkScheme (m_id cs) (m_mesh_id1 cs) (m_mesh_id2 cs) (m_mesh1 cs) (m_mesh2 cs)
    (m_parameters cs) (m_nullMeshes cs) (m_isValid cs) (m_numTotalNodes cs)
    (m_contactMode cs) (m_contactCase cs) (m_contactMethod cs)
    (m_contactModel cs) (m_enforcementMethod cs) (m_interface_pairs cs)
    (m_numActivePairs cs) (m_enforcementOptions cs)
    (m_couplingSchemeErrors cs) i (m_pairReportingData cs).

Definition set_contactCase (cs : CouplingScheme) (c : ContactCase) :=
  mkScheme (m_id cs) (m_mesh_id1 cs) (m_mesh_id2 cs) (m_mesh1 cs) (m_mesh2 cs)
    (m_parameters cs) (m_nullMeshes cs) (m_isValid cs) (m_numTotalNodes cs)
    (m_contactMode cs) c (m_contactMethod cs)
    (m_contactModel cs) (m_enforcementMethod cs) (m_interface_pairs cs)
    (m_numActivePairs cs) (m_enforcementOptions cs)
    (m_couplingSchemeErrors cs) (m_couplingSchemeInfo cs)
    (m_pairReportingData cs).

Definition set_parameters (cs : CouplingScheme) (p : Parameters) :=
  mkScheme (m_id cs) (m_mesh_id1 cs) (m_mesh_id2 cs) (m_mesh1 cs) (m_mesh2 cs)
    p (m_nullMeshes cs) (m_isValid cs) (m_numTotalNodes cs)
    (m_contactMode cs) (m_contactCase cs) (m_contactMethod cs)
    (m_contactModel cs) (m_enforcementMethod cs) (m_interface_pairs cs)
    (m_numActivePairs cs) (m_enforcementOptions cs)
    (m_couplingSchemeErrors cs) (m_couplingSchemeInfo cs)
    (m_pairReportingData cs).

Definition set_enforcement (cs : CouplingScheme) (m : EnforcementMethod)
    (o : EnforcementOptions) :=
  mkScheme (m_id cs) (m_mesh_id1 cs) (m_mesh_id2 cs) (m_mesh1 cs) (m_mesh2 cs)
    (m_parameters cs) (m_nullMeshes cs) (m_isValid cs) (m_numTotalNodes cs)
    (m_contactMode cs) (m_contactCase cs) (m_contactMethod cs)
    (m_contactModel cs) m (m_interface_pairs cs)
    (m_numActivePairs cs) o
    (m_couplingSchemeErrors cs) (m_couplingSchemeInfo cs)
    (m_pairReportingData cs).

Definition set_nullMeshes (cs : CouplingScheme) (b : bool) :=
  mkScheme (m_id cs) (m_mesh_id1 cs) (m_mesh_id2 cs) (m_mesh1 cs) (m_mesh2 cs)
    (m_parameters cs) b (m_isValid cs) (m_numTotalNodes cs)
    (m_contactMode cs) (m_contactCase cs) (m_contactMethod cs)
    (m_contactModel cs) (m_enforcementMethod cs) (m_interface_pairs cs)
    (m_numActivePairs cs) (m_enforcementOptions cs)
    (m_couplingSchemeErrors cs) (m_couplingSchemeInfo cs)
    (m_pairReportingData cs).

Definition set_isValid (cs : CouplingScheme) (b : bool) :=
  mkScheme (m_id cs) (m_mesh_id1 cs) (m_mesh_id2 cs) (m_mesh1 cs) (m_mesh2 cs)
    (m_parameters cs) (m_nullMeshes cs) b (m_numTotalNodes cs)
    (m_contactMode cs) (m_contactCase cs) (m_contactMethod cs)
    (m_contactModel cs) (m_enforcementMethod cs) (m_interface_pairs cs)
    (m_numActivePairs cs) (m_enforcementOptions cs)
    (m_couplingSchemeErrors cs) (m_couplingSchemeInfo cs)
    (m_pairReportingData cs).

Definition set_views (cs : CouplingScheme) (v1 v2 : MeshData) (n : Z) :=
  mkScheme (m_id cs) (m_mesh_id1 cs) (m_mesh_id2 cs) v1 v2
    (m_parameters cs) (m_nullMeshes cs) (m_isValid cs) n
    (m_contactMode cs) (m_contactCase cs) (m_contactMethod cs)
    (m_contactModel cs) (m_enforcementMethod cs) (m_interface_pairs cs)
    (m_numActivePairs cs) (m_enforcementOptions cs)
    (m_couplingSchemeErrors cs) (m_couplingSchemeInfo cs)
    (m_pairReportingData cs).

Definition set_pairs (cs : CouplingScheme) (ps : list InterfacePair) (n : Z) :=
  mkScheme (m_id cs) (m_mesh_id1 cs) (m_mesh_id2 cs) (m_mesh1 cs) (m_mesh2 cs)
    (m_parameters cs) (m_nullMeshes cs) (m_isValid cs) (m_numTotalNodes cs)
    (m_contactMode cs) (m_contactCase cs) (m_contactMethod cs)
    (m_contactModel cs) (m_enforcementMethod cs) ps
    n (m_enforcementOptions cs)
    (m_couplingSchemeErrors cs) (m_couplingSchemeInfo cs)
    (m_pairReportingData cs).

Definition set_reporting (cs : CouplingScheme) (r : PairReportingData) :=
  mkScheme (m_id cs) (m_mesh_id1 cs) (m_mesh_id2 cs) (m_mesh1 cs) (m_mesh2 cs)
    (m_parameters cs) (m_nullMeshes cs) (m_isValid cs) (m_numTotalNodes cs)
    (m_contactMode cs) (m_contactCase cs) (m_contactMethod cs)
    (m_contactModel cs) (m_enforcementMethod cs) (m_interface_pairs cs)
    (m_numActivePairs cs) (m_enforcementOptions cs)
    (m_couplingSchemeErrors cs) (m_couplingSchemeInfo cs) r.

Definition set_mode_error (cs : CouplingScheme) (e : ModeError) :=
  let r := m_couplingSchemeErrors cs in
  set_errors cs (mkErrors e (cs_case_error r) (cs_method_error r)
                   (cs_model_error r) (cs_enforcement_error r)
                   (cs_enforcement_data_error r)).

Definition set_case_error (cs : CouplingScheme) (e : CaseError) :=
  let r := m_couplingSchemeErrors cs in
  set_errors cs (mkErrors (cs_mode_error r) e (cs_method_error r)
                   (cs_model_error r) (cs_enforcement_error r)
                   (cs_enforcement_data_error r)).

Definition set_method_error (cs : CouplingScheme) (e : MethodError) :=
  let r := m_couplingSchemeErrors cs in
  set_errors cs (mkErrors (cs_mode_error r) (cs_case_error r) e
                   (cs_model_error r) (cs_enforcement_error r)
                   (cs_enforcement_data_error r)).

Definition set_model_error (cs : CouplingScheme) (e : ModelError) :=
  let r := m_couplingSchemeErrors cs in
  set_errors cs (mkErrors (cs_mode_error r) (cs_case_error r)
                   (cs_method_error r) e (cs_enforcement_error r)
                   (cs_enforcement_data_error r)).

Definition set_enforcement_error (cs : CouplingScheme) (e : EnforcementError) :=
  let r := m_couplingSchemeErrors cs in
  set_errors cs (mkErrors (cs_mode_error r) (cs_case_error r)
                   (cs_method_error r) (cs_model_error r) e
                   (cs_enforcement_data_error r)).

Definition set_enforcement_data_error (cs : CouplingScheme)
    (e : EnforcementDataErrors) :=
  let r := m_couplingSchemeErrors cs in
  set_errors cs (mkErrors (cs_mode_error r) (cs_case_error r)
                   (cs_method_error r) (cs_model_error r)
                   (cs_enforcement_error r) e).

Definition set_case_info (cs : CouplingScheme) (i : CaseInfo) :=
  set_info cs (mkInfo i (cs_enforcement_info (m_couplingSchemeInfo cs))).

Definition set_enforcement_info (cs : CouplingScheme) (i : EnforcementInfo) :=
  set_info cs (mkInfo (cs_case_info (m_couplingSchemeInfo cs)) i).

Definition set_auto_interpen_check (cs : CouplingScheme) (b : bool) :=
  let p := m_parameters cs in
  set_parameters cs (mkParameters (gap_tol_ratio p) (gap_tied_tol p)
                       (enable_timestep_vote p) (timestep_pen_frac p) b).

(** The scheme as its constructor leaves it: every error and info field
    at its "no error" value, no pairs, no active planes. *)
Definition new_CouplingScheme (cs_id mesh_id1 mesh_id2 : Z)
    (contact_mode : ContactMode) (contact_case : ContactCase)
    (contact_method : ContactMethod) (contact_model : ContactModel)
    (enforcement_method : EnforcementMethod)
    (views : MeshData) (params : Parameters) (opts : EnforcementOptions)
  : CouplingScheme :=
  mkScheme cs_id mesh_id1 mesh_id2 views views params false true 0
    contact_mode contact_case contact_method contact_model enforcement_method
    [] 0 opts
    (mkErrors NO_MODE_ERROR NO_CASE_ERROR NO_METHOD_ERROR NO_MODEL_ERROR
       NO_ENFORCEMENT_ERROR NO_ENFORCEMENT_DATA_ERROR)
    (mkInfo NO_CASE_INFO NO_ENFORCEMENT_INFO)
    (mkReporting 0 0 0).

(** *** Validation *)

Definition isValidMode (cs : CouplingScheme) : bool * CouplingScheme :=
  if negb (in_range (ContactMode_code (m_contactMode cs))
             (ContactMode_code NUM_CONTACT_MODES))
  then (false, set_mode_error cs INVALID_MODE)
  else if negb (ContactMode_eqb (m_contactMode cs) SURFACE_TO_SURFACE) &&
          negb (ContactMode_eqb (m_contactMode cs) SURFACE_TO_SURFACE_CONFORMING)
  then (false, set_mode_error cs NO_MODE_IMPLEMENTATION)
  else (true, set_mode_error cs NO_MODE_ERROR).

Definition isValidCase (cs : CouplingScheme) (mesh1 mesh2 : MeshData)
  : bool * CouplingScheme :=
  if negb (in_range (ContactCase_code (m_contactCase cs))
             (ContactCase_code NUM_CONTACT_CASES))
  then (false, set_case_error cs INVALID_CASE)
  else
    let cs :=
      if ContactMode_eqb (m_contactMode cs) SURFACE_TO_SURFACE_CONFORMING &&
         negb (ContactCase_eqb (m_contactCase cs) NO_SLIDING)
      then set_contactCase
             (set_case_info cs SPECIFYING_NO_SLIDING_WITH_REGISTERED_MODE)
             NO_SLIDING
      else cs in
    let cs :=
      if ContactMethod_eqb (m_contactMethod cs) ALIGNED_MORTAR &&
         negb (ContactCase_eqb (m_contactCase cs) NO_SLIDING)
      then set_contactCase
             (set_case_info cs SPECIFYING_NO_SLIDING_WITH_REGISTERED_METHOD)
             NO_SLIDING
      else cs in
    let cs :=
      if (ContactMethod_eqb (m_contactMethod cs) SINGLE_MORTAR ||
          ContactMethod_eqb (m_contactMethod cs) MORTAR_WEIGHTS) &&
         (negb (ContactCase_eqb (m_contactCase cs) NO_CASE) &&
          negb (ContactCase_eqb (m_contactCase cs) NO_SLIDING))
      then set_contactCase
             (set_case_info cs SPECIFYING_NONE_WITH_REGISTERED_METHOD) NO_CASE
      else cs in
    let cs :=
      if ContactCase_eqb (m_contactCase cs) AUTO &&
         negb (m_mesh_id1 cs =? m_mesh_id2 cs)
      then set_contactCase
             (set_case_info cs SPECIFYING_NONE_WITH_TWO_REGISTERED_MESHES)
             NO_CASE
      else cs in
    if ContactCase_eqb (m_contactCase cs) AUTO then
      let cs := set_auto_interpen_check cs true in
      if negb (is_element_thickness_set mesh1) ||
         negb (is_element_thickness_set mesh2)
      then (false, set_case_error cs INVALID_CASE_DATA)
      else (true, set_case_error cs NO_CASE_ERROR)
    else
      (true, set_case_error (set_auto_interpen_check cs false) NO_CASE_ERROR).

Definition isValidMethod (cs : CouplingScheme) (mesh1 mesh2 : MeshData)
  : bool * CouplingScheme :=
  if negb (in_range (ContactMethod_code (m_contactMethod cs))
             (ContactMethod_code NUM_CONTACT_METHODS))
  then (false, set_method_error cs INVALID_METHOD)
  else
    let dim := spatialDimension mesh1 in
    let method := m_contactMethod cs in
    let mortar := ContactMethod_eqb method ALIGNED_MORTAR ||
                  ContactMethod_eqb method MORTAR_WEIGHTS ||
                  ContactMethod_eqb method SINGLE_MORTAR in
    let response_check (cs : CouplingScheme) :=
      if ContactMethod_eqb method ALIGNED_MORTAR ||
         ContactMethod_eqb method SINGLE_MORTAR ||
         ContactMethod_eqb method COMMON_PLANE
      then
        if (0 <? numberOfElements mesh1) && negb (is_nodal_response_set mesh1)
        then (false, set_method_error cs NULL_NODAL_RESPONSE)
        else if (0 <? numberOfElements mesh2) &&
                negb (is_nodal_response_set mesh2)
        then (false, set_method_error cs NULL_NODAL_RESPONSE)
        else (true, set_method_error cs NO_METHOD_ERROR)
      else (true, set_method_error cs NO_METHOD_ERROR) in
    if negb (m_nullMeshes cs) then
      if mortar then
        if negb (numberOfNodesPerElement mesh1 =? numberOfNodesPerElement mesh2)
        then (false, set_method_error cs DIFFERENT_FACE_TYPES)
        else if m_mesh_id1 cs =? m_mesh_id2 cs
        then (false,
              if negb (dim =? 3)
              then set_method_error (set_method_error cs SAME_MESH_IDS)
                     SAME_MESH_IDS_INVALID_DIM
              else set_method_error cs SAME_MESH_IDS)
        else if negb (dim =? 3)
        then (false, set_method_error cs INVALID_DIM)
        else response_check cs
      else if ContactMethod_eqb method COMMON_PLANE then
        if negb (numberOfNodesPerElement mesh1 =? numberOfNodesPerElement mesh2)
        then (false, set_method_error cs DIFFERENT_FACE_TYPES)
        else response_check cs
      else (false, set_method_error cs NO_METHOD_IMPLEMENTATION)
    else (true, set_method_error cs NO_METHOD_ERROR).

Definition isValidModel (cs : CouplingScheme) : bool * CouplingScheme :=
  if negb (in_range (ContactModel_code (m_contactModel cs))
             (ContactModel_code NUM_CONTACT_MODELS))
  then (false, set_model_error cs INVALID_MODEL)
  else
    let model := m_contactModel cs in
    match m_contactMethod cs with
    | SINGLE_MORTAR | ALIGNED_MORTAR | MORTAR_WEIGHTS =>
        if negb (ContactModel_eqb model FRICTIONLESS) &&
           negb (ContactModel_eqb model NULL_MODEL)
        then (false, set_model_error cs
                       NO_MODEL_IMPLEMENTATION_FOR_REGISTERED_METHOD)
        else (true, set_model_error cs NO_MODEL_ERROR)
    | COMMON_PLANE =>
        if negb (ContactModel_eqb model FRICTIONLESS) &&
           negb (ContactModel_eqb model NULL_MODEL) &&
           negb (ContactModel_eqb model TIED)
        then (false, set_model_error cs
                       NO_MODEL_IMPLEMENTATION_FOR_REGISTERED_METHOD)
        else (true, set_model_error cs NO_MODEL_ERROR)
    | NUM_CONTACT_METHODS => (true, set_model_error cs NO_MODEL_ERROR)
    end.

Definition isValidEnforcement (cs : CouplingScheme) : bool * CouplingScheme :=
  if negb (in_range (EnforcementMethod_code (m_enforcementMethod cs))
             (EnforcementMethod_code NUM_ENFORCEMENT_METHODS))
  then (false, set_enforcement_error cs INVALID_ENFORCEMENT)
  else
    match m_contactMethod cs with
    | MORTAR_WEIGHTS =>
        let cs :=
          if negb (EnforcementMethod_eqb (m_enforcementMethod cs) NULL_ENFORCEMENT)
          then set_enforcement
                 (set_enforcement_info cs
                    SPECIFYING_NULL_ENFORCEMENT_WITH_REGISTERED_METHOD)
                 NULL_ENFORCEMENT (m_enforcementOptions cs)
          else cs in
        let lm := lm_implicit_options (m_enforcementOptions cs) in
        let cs :=
          match eval_mode lm with
          | MORTAR_WEIGHTS_EVAL => cs
          | OtherEvalMode _ =>
              set_enforcement cs (m_enforcementMethod cs)
                (mkEnforcementOptions
                   (mkLmOptions MORTAR_WEIGHTS_EVAL (sparse_mode lm)
                      (enforcement_option_set lm))
                   (penalty_options (m_enforcementOptions cs)))
          end in
        match sparse_mode (lm_implicit_options (m_enforcementOptions cs)) with
        | MFEM_LINKED_LIST => (true, set_enforcement_error cs NO_ENFORCEMENT_ERROR)
        | _ => (false, set_enforcement_error cs
                         NO_ENFORCEMENT_IMPLEMENTATION_FOR_REGISTERED_OPTION)
        end
    | ALIGNED_MORTAR | SINGLE_MORTAR =>
        let lm := lm_implicit_options (m_enforcementOptions cs) in
        if EnforcementMethod_eqb (m_enforcementMethod cs) PENALTY
        then (false, set_enforcement_error cs
                       NO_ENFORCEMENT_IMPLEMENTATION_FOR_REGISTERED_METHOD)
        else if negb (EnforcementMethod_eqb (m_enforcementMethod cs)
                        LAGRANGE_MULTIPLIER)
        then (false, set_enforcement_error cs
                       INVALID_ENFORCEMENT_FOR_REGISTERED_METHOD)
        else if negb (enforcement_option_set lm)
        then (false, set_enforcement_error cs OPTIONS_NOT_SET)
        else
          match sparse_mode lm, eval_mode lm with
          | OtherSparseMode _, _ =>
              (false, set_enforcement_error cs
                        NO_ENFORCEMENT_IMPLEMENTATION_FOR_REGISTERED_OPTION)
          | _, MORTAR_WEIGHTS_EVAL =>
              (false, set_enforcement_error cs
                        NO_ENFORCEMENT_IMPLEMENTATION_FOR_REGISTERED_OPTION)
          | _, OtherEvalMode _ =>
              (true, set_enforcement_error cs NO_ENFORCEMENT_ERROR)
          end
    | COMMON_PLANE =>
        if negb (EnforcementMethod_eqb (m_enforcementMethod cs) PENALTY)
        then (false, set_enforcement_error cs
                       INVALID_ENFORCEMENT_FOR_REGISTERED_METHOD)
        else if negb (constraint_type_set
                        (penalty_options (m_enforcementOptions cs)))
        then (false, set_enforcement_error cs OPTIONS_NOT_SET)
        else (true, set_enforcement_error cs NO_ENFORCEMENT_ERROR)
    | NUM_CONTACT_METHODS => (true, set_enforcement_error cs NO_ENFORCEMENT_ERROR)
    end.


(** *** Gap tolerance *)





(** *** Routines that call code outside the sources

    [CheckInterfacePair] (contact-plane builder), [ApplyInterfacePhysics]
    (physics kernel), [computeCommonPlaneTimeStep] (whose body needs the
    contact planes and [GalerkinEval]), the [MeshData] checks
    [checkLagrangeMultiplierData], [checkPenaltyData] and
    [computeFaceData] are taken as parameters: the properties below hold
    whatever they compute.

    A call of [CheckInterfacePair] yields its error tag, the [interact]
    flag and the number of contact planes it stored (its increment of
    [planes_ct]).  [ApplyInterfacePhysics] yields its status; its writes
    go to the nodal response and method data, which are not part of the
    state modelled here. *)
Section Collaborators.

Variable CheckInterfacePair :
  InterfacePair -> MeshData -> MeshData -> Parameters ->
  ContactMethod -> ContactCase -> FaceGeomError * bool * Z.
Variable ApplyInterfacePhysics : CouplingScheme -> Z -> RealT -> Z.
Variable computeCommonPlaneTimeStep : CouplingScheme -> RealT -> RealT.
Variable checkLagrangeMultiplierData : MeshData -> Z.
Variable checkPenaltyData : MeshData -> PenaltyEnforcementOptions -> Z.
Variable computeFaceData : MeshData -> MeshData.

Definition checkEnforcementData (cs : CouplingScheme) (mesh1 mesh2 : MeshData)
  : Z * CouplingScheme :=
  let cs := set_enforcement_data_error cs NO_ENFORCEMENT_DATA_ERROR in
  match m_contactMethod cs with
  | MORTAR_WEIGHTS => (0, cs)
  | ALIGNED_MORTAR | SINGLE_MORTAR =>
      match m_enforcementMethod cs with
      | LAGRANGE_MULTIPLIER =>
          if negb (checkLagrangeMultiplierData mesh2 =? 0)
          then (1, set_enforcement_data_error cs
                     ERROR_IN_REGISTERED_ENFORCEMENT_DATA)
          else (0, cs)
      | _ => (0, cs)
      end
  | COMMON_PLANE =>
      match m_enforcementMethod cs with
      | PENALTY =>
          let pen_enfrc_options := penalty_options (m_enforcementOptions cs) in
          if negb (checkPenaltyData mesh1 pen_enfrc_options =? 0) ||
             negb (checkPenaltyData mesh2 pen_enfrc_options =? 0)
          then (1, set_enforcement_data_error cs
                     ERROR_IN_REGISTERED_ENFORCEMENT_DATA)
          else (0, cs)
      | _ => (0, cs)
      end
  | NUM_CONTACT_METHODS => (0, cs)
  end.

(** [isValidCouplingScheme]: the flag, the scheme and the mesh registry
    after the call (the routine marks meshes invalid). *)
Definition isValidCouplingScheme (cs : CouplingScheme) (mm : MeshManager)
  : bool * CouplingScheme * MeshManager :=
  match findData mm (m_mesh_id1 cs), findData mm (m_mesh_id2 cs) with
  | Some mesh1, Some mesh2 =>
      let mm :=
        if negb (InterfaceElementType_eqb (getElementType mesh1)
                   (getElementType mesh2))
        then markInvalid (markInvalid mm (m_mesh_id1 cs)) (m_mesh_id2 cs)
        else mm in
      let mm :=
        if negb (MemorySpace_eqb (getMemorySpace mesh1) (getMemorySpace mesh2))
        then markInvalid (markInvalid mm (m_mesh_id1 cs)) (m_mesh_id2 cs)
        else mm in
      match findData mm (m_mesh_id1 cs), findData mm (m_mesh_id2 cs) with
      | Some mesh1, Some mesh2 =>
          if negb (isMeshValid mesh1) || negb (isMeshValid mesh2)
          then (false, cs, mm)
          else
            let valid := true in
            let cs :=
              if (numberOfElements mesh1 <=? 0) || (numberOfElements mesh2 <=? 0)
              then set_nullMeshes cs true else cs in
            let '(ok, cs) := isValidMode cs in
            let valid := if ok then valid else false in
            let '(ok, cs) := isValidCase cs mesh1 mesh2 in
            let valid := if ok then valid else false in
            let '(ok, cs) := isValidMethod cs mesh1 mesh2 in
            let valid := if ok then valid else false in
            let '(ok, cs) := isValidModel cs in
            let valid := if ok then valid else false in
            let '(ok, cs) := isValidEnforcement cs in
            if ok then
              let '(err, cs) := checkEnforcementData cs mesh1 mesh2 in
              (if negb (err =? 0) then false else valid, cs, mm)
            else (false, cs, mm)
      | _, _ => (false, cs, mm)
      end
  | _, _ => (false, cs, mm)
  end.

(** [allocateMethodData]: the node total it records. *)
Definition allocateMethodData (cs : CouplingScheme) (mesh1 mesh2 : MeshData) : Z :=
  if (0 <? numberOfElements mesh1) && (0 <? numberOfElements mesh2)
  then numberOfNodes mesh1 else m_numTotalNodes cs.

(** [init], for a build without RAJA: the execution mode is then
    sequential and the early exit for non-sequential mortar runs is not
    taken. *)
Definition init (cs : CouplingScheme) (mm : MeshManager)
  : bool * CouplingScheme * MeshManager :=
  let '(valid, cs, mm) := isValidCouplingScheme cs mm in
  let cs := set_isValid cs valid in
  if m_isValid cs then
    match findData mm (m_mesh_id1 cs), findData mm (m_mesh_id2 cs) with
    | Some mesh_data1, Some mesh_data2 =>
        let mesh_data1' := computeFaceData mesh_data1 in
        let mm := fun k => if k =? m_mesh_id1 cs then Some mesh_data1' else mm k in
        let mesh_data2' :=
          if negb (m_mesh_id2 cs =? m_mesh_id1 cs)
          then computeFaceData mesh_data2 else mesh_data1' in
        let mm := fun k => if k =? m_mesh_id2 cs then Some mesh_data2' else mm k in
        (true,
         set_views cs mesh_data1' mesh_data2'
           (allocateMethodData cs mesh_data1' mesh_data2'),
         mm)
    | _, _ => (true, cs, mm)
    end
  else (false, cs, mm).

(** *** Time step vote *)

Definition computeTimeStep (cs : CouplingScheme) (dt : RealT) : RealT :=
  if (dt <? 1e-8)%float then dt
  else if negb (hasVelocity (m_mesh1 cs)) || negb (hasVelocity (m_mesh2 cs)) then
    if (0 <? numberOfElements (m_mesh1 cs)) && (0 <? numberOfElements (m_mesh2 cs))
    then (-1)%float
    else dt
  else
    match m_contactMethod cs with
    | COMMON_PLANE =>
        if EnforcementMethod_eqb (m_enforcementMethod cs) PENALTY
        then if enable_timestep_vote (m_parameters cs)
             then computeCommonPlaneTimeStep cs dt
             else dt
        else dt
    | _ => dt
    end.

(** *** [apply] *)

(** One pass of the kernel body of the pair loop on pair [pair]: the
    pair with its candidate flag set, whether [pair_err] is raised, and
    the planes stored. *)
Definition check_pair (cs : CouplingScheme) (pair : InterfacePair)
  : InterfacePair * bool * Z :=
  let '(interact_err, interact, stored) :=
    CheckInterfacePair pair (m_mesh1 cs) (m_mesh2 cs) (m_parameters cs)
      (m_contactMethod cs) (m_contactCase cs) in
  if negb (FaceGeomError_eqb interact_err NO_FACE_GEOM_ERROR)
  then (mkPair (m_element_id1 pair) (m_element_id2 pair) false, true, stored)
  else if negb interact
  then (mkPair (m_element_id1 pair) (m_element_id2 pair) false, false, stored)
  else (mkPair (m_element_id1 pair) (m_element_id2 pair) true, false, stored).

Definition pair_loop (cs : CouplingScheme) (pairs : list InterfacePair)
  : list InterfacePair * bool * Z :=
  fold_left
    (fun (st : list InterfacePair * bool * Z) (pair : InterfacePair) =>
       let '(done, pair_err, planes_ct) := st in
       let '(pair', err, stored) := check_pair cs pair in
       (done ++ [pair'], pair_err || err, planes_ct + stored))
    pairs ([], false, 0).

(** [apply( cycle, t, dt )]: the returned status, the scheme and [dt]
    after the call. *)
Definition apply (cs : CouplingScheme) (cycle : Z) (t dt : RealT)
  : Z * CouplingScheme * RealT :=
  let '(pairs, pair_err, planes_ct) := pair_loop cs (m_interface_pairs cs) in
  let cs := set_pairs cs pairs planes_ct in
  let err := ApplyInterfacePhysics cs cycle t in
  let dt :=
    if (err =? 0) && (0 <? m_numActivePairs cs)
    then computeTimeStep cs dt else dt in
  if negb (err =? 0) then (1, cs, dt) else (0, cs, dt).

End Collaborators.

End Scheme.

(** ** Sample data

    Small meshes, schemes and polygons on which the definitions are run
    in the statements below. *)

Module Fixtures.

Import Scheme.

Local Open Scope float_scope.

Definition params : Parameters := mkParameters 1e-12 0.1 true 0.3 false.

Definition opts : EnforcementOptions :=
  mkEnforcementOptions (mkLmOptions (OtherEvalMode 0) MFEM_LINKED_LIST true)
    (mkPenaltyOptions true KINEMATIC_ELEMENT).

(** Two faces each; nodal response and velocities registered. *)
Definition quad_mesh : MeshData :=
  mkMeshData LINEAR_QUAD Host true 2 6 3 true true true [0.5; 0.75].

Definition tri_mesh : MeshData :=
  mkMeshData LINEAR_TRIANGLE Host true 2 4 3 true true true [0.5; 0.25].

(** A quad mesh whose nodal velocities were never registered. *)
Definition still_mesh : MeshData :=
  mkMeshData LINEAR_QUAD Host true 2 6 3 true true false [0.5; 0.75].

(** Mesh 1 is the triangle mesh, mesh 2 the quad mesh. *)
Definition registry : MeshManager :=
  fun id => if (id =? 1)%Z then Some tri_mesh
            else if (id =? 2)%Z then Some quad_mesh
            else None.

Definition tied_scheme : CouplingScheme :=
  Scheme.set_views
    (new_CouplingScheme 0 3 4 SURFACE_TO_SURFACE NO_CASE COMMON_PLANE TIED
       PENALTY quad_mesh params opts)
    quad_mesh still_mesh 6.


(** Scenario S6: triangle faces against quad faces, SINGLE_MORTAR with
    Lagrange multipliers, as constructed and before [init]. *)
Definition hybrid_scheme : CouplingScheme :=
  new_CouplingScheme 7 1 2 SURFACE_TO_SURFACE NO_CASE SINGLE_MORTAR
    FRICTIONLESS LAGRANGE_MULTIPLIER tri_mesh params opts.




Definition keep_dt (_ : CouplingScheme) (dt : RealT) : RealT := dt.

Definition lm_data_ok (_ : MeshData) : Z := 0%Z.

Definition penalty_data_ok (_ : MeshData) (_ : PenaltyEnforcementOptions) : Z :=
  0%Z.

Definition same_face_data (m : MeshData) : MeshData := m.

(** Polygons in local 2D coordinates. *)
Definition unit_square_x : list RealT := [0; 1; 1; 0].
Definition unit_square_y : list RealT := [0; 0; 1; 1].

(** The unit square moved by (1,1): it touches the first at one corner. *)
Definition corner_square_x : list RealT := [1; 2; 2; 1].
Definition corner_square_y : list RealT := [1; 1; 2; 2].

(** The square [0.5,2] x [0.5,2]: its overlap with the unit square has
    edges of length 0.5. *)
Definition offset_square_x : list RealT := [0.5; 2; 2; 0.5].
Definition offset_square_y : list RealT := [0.5; 0.5; 2; 2].

(** A 2 x 1 and a 1 x 2 rectangle sharing the corner (0,0). *)
Definition wide_x : list RealT := [0; 2; 2; 0].
Definition wide_y : list RealT := [0; 0; 1; 1].
Definition tall_x : list RealT := [0; 1; 1; 0].
Definition tall_y : list RealT := [0; 0; 2; 2].

Definition no_overlap : Geom.Overlap := Geom.mkOverlap [] [] 0 0.




End Fixtures.

(** ** Vocabulary of the statements *)

(** Both meshes of a scheme are registered and flagged invalid. *)
Definition both_invalid (mm : Scheme.MeshManager) (id1 id2 : Z) : Prop :=
  exists m1 m2,
    Scheme.findData mm id1 = Some m1 /\ Scheme.findData mm id2 = Some m2 /\
    Scheme.isMeshValid m1 = false /\ Scheme.isMeshValid m2 = false.

(** The vertices an interior-id array still designates: the indices
    [i < n] with [interiorId[i] != -1], in the order in which the gather
    loops of [Intersection2DPolygon] append them. *)
Definition interiorIds (interiorId : list Z) (n : Z) : list Z :=
  filter (fun i => negb (rdi interiorId i =? -1)) (range n).

(** Their number. *)
Definition live (interiorId : list Z) (n : Z) : Z :=
  Z.of_nat (length (interiorIds interiorId n)).

(** The relation the coincident-vertex loop of [Intersection2DPolygon]
    keeps between the state [s0] it starts from and its current state
    [s] (B's interior-id array and interior count): an id is either
    untouched or was reset to -1 because of an interior vertex of A
    within 1e-15, and the count moves with the number of ids still
    set. *)
Definition dedup_state_inv (xA yA xB yB : list RealT)
    (numVertexA numVertexB : Z) (interiorA : list Z)
    (s0 s : list Z * Z) : Prop :=
  length (fst s) = length (fst s0)
  /\ (forall k, 0 <= k ->
        rdi (fst s) k = rdi (fst s0) k
        \/ (rdi (fst s) k = -1 /\ rdi (fst s0) k <> -1 /\
            exists i, 0 <= i < numVertexA /\ rdi interiorA i <> -1 /\
                      Geom.coincident xA yA xB yB i k = true))
  /\ snd s - live (fst s) numVertexB = snd s0 - live (fst s0) numVertexB.

(** The rational number a finite double stands for. *)
Definition exact (f : float) : option Q :=
  match Prim2SF f with
  | S754_zero _ => Some 0%Q
  | S754_finite s m e =>
      Some ((if s then -1 else 1) * inject_Z (Z.pos m) * Qpower 2 e)%Q
  | _ => None
  end.





Definition cosTheta (x y : list RealT) (i j : Z) : RealT :=
  let refx := (rd x (i + 1) - rd x i)%float in
  let refy := (rd y (i + 1) - rd y i)%float in
  let refMag := Geom.magnitude refx refy in
  let lx := (rd x j - rd x i)%float in
  let ly := (rd y j - rd y i)%float in
  let linkMag := Geom.magnitude lx ly in
  ((lx * refx + ly * refy) / (refMag * linkMag))%float.








(** ** Further routines of [GeomUtilities.cpp]

    [ElemReverse], [PolyReorderWithNormal] and the two overloads of
    [GlobalTo2DLocalCoords]. *)

Module Geom2.

Import Geom.
Local Open Scope float_scope.

(** *** [ElemReverse] and [PolyReorderWithNormal]

    Loads and stores are bounds-checked as in [Vertex2DOrderToCCW].  The
    local arrays are declared without initial values; the zeros they
    start with here are overwritten before they are read. *)

(** The copy loop [for (int i=0; i<numPoints; ++i)] into the
    temporaries. *)
Fixpoint copy_loop (x y xtemp ytemp : list RealT) (todo : list Z)
  : MemFault + (list RealT * list RealT) :=
  match todo with
  | [] => inr (xtemp, ytemp)
  | i :: rest =>
      xi <- load x i ;;
      xtemp' <- store xtemp i xi ;;
      yi <- load y i ;;
      ytemp' <- store ytemp i yi ;;
      copy_loop x y xtemp' ytemp' rest
  end.

(** The loop [for (int i=(numPoints-1); i>0; --i)], entered with [i]
    and [k]. *)
Fixpoint reverse_loop (xtemp ytemp x y : list RealT) (i : nat) (k : Z)
  : MemFault + (list RealT * list RealT) :=
  match i with
  | O => inr (x, y)
  | S i' =>
      xi <- load xtemp (Z.of_nat i) ;;
      x' <- store x k xi ;;
      yi <- load ytemp (Z.of_nat i) ;;
      y' <- store y k yi ;;
      reverse_loop xtemp ytemp x' y' i' (k + 1)%Z
  end.

Definition ElemReverse (x y : list RealT) (numPoints : Z)
  : MemFault + (list RealT * list RealT) :=
  let max_nodes_per_elem := 4%nat in
  t <- copy_loop x y (repeat 0 max_nodes_per_elem)
         (repeat 0 max_nodes_per_elem) (range numPoints) ;;
  reverse_loop (fst t) (snd t) x y (Z.to_nat (numPoints - 1)) 1.

Section WithMath.

(** [crossProd] and [dotProd] of [Math.hpp], which is not among the
    sources. *)
Variable crossProd :
  RealT -> RealT -> RealT -> RealT -> RealT -> RealT -> RealT * RealT * RealT.
Variable dotProd : RealT -> RealT -> RealT -> RealT -> RealT -> RealT -> RealT.

(** The loop [for (int i=1; i<numPoints; ++i)] filling the temporaries
    with the vertices in reverse. *)
Fixpoint mirror_loop (x y z xTemp yTemp zTemp : list RealT) (numPoints : Z)
    (todo : list Z) : MemFault + (list RealT * list RealT * list RealT) :=
  match todo with
  | [] => inr (xTemp, yTemp, zTemp)
  | i :: rest =>
      xi <- load x (numPoints - i) ;;
      xTemp' <- store xTemp i xi ;;
      yi <- load y (numPoints - i) ;;
      yTemp' <- store yTemp i yi ;;
      zi <- load z (numPoints - i) ;;
      zTemp' <- store zTemp i zi ;;
      mirror_loop x y z xTemp' yTemp' zTemp' numPoints rest
  end.

(** The loop copying the temporaries back. *)
Fixpoint restore_loop (xTemp yTemp zTemp x y z : list RealT) (todo : list Z)
  : MemFault + (list RealT * list RealT * list RealT) :=
  match todo with
  | [] => inr (x, y, z)
  | i :: rest =>
      xi <- load xTemp i ;;
      x' <- store x i xi ;;
      yi <- load yTemp i ;;
      y' <- store y i yi ;;
      zi <- load zTemp i ;;
      z' <- store z i zi ;;
      restore_loop xTemp yTemp zTemp x' y' z' rest
  end.

Definition PolyReorderWithNormal (x y z : list RealT) (numPoints : Z)
    (nX nY nZ : RealT) : MemFault + (list RealT * list RealT * list RealT) :=
  x1 <- load x 1 ;; x0 <- load x 0 ;;
  y1 <- load y 1 ;; y0 <- load y 0 ;;
  z1 <- load z 1 ;; z0 <- load z 0 ;;
  x2 <- load x 2 ;; y2 <- load y 2 ;; z2 <- load z 2 ;;
  let lv10X := x1 - x0 in
  let lv10Y := y1 - y0 in
  let lv10Z := z1 - z0 in
  let lv20X := x2 - x0 in
  let lv20Y := y2 - y0 in
  let lv20Z := z2 - z0 in
  let '(pNrmlX, pNrmlY, pNrmlZ) :=
    crossProd lv10X lv10Y lv10Z lv20X lv20Y lv20Z in
  let v := dotProd pNrmlX pNrmlY pNrmlZ nX nY nZ in
  let max_nodes_per_overlap := 8%nat in
  if v <? 0 then
    xTemp <- store (repeat 0 max_nodes_per_overlap) 0 x0 ;;
    yTemp <- store (repeat 0 max_nodes_per_overlap) 0 y0 ;;
    zTemp <- store (repeat 0 max_nodes_per_overlap) 0 z0 ;;
    t <- mirror_loop x y z xTemp yTemp zTemp numPoints
           (map (fun i => (1 + i)%Z) (range (numPoints - 1))) ;;
    let '(xTemp, yTemp, zTemp) := t in
    restore_loop xTemp yTemp zTemp x y z (range numPoints)
  else inr (x, y, z).

End WithMath.

(** *** [GlobalTo2DLocalCoords] *)

(** The overload for one point: [pLX], [pLY]. *)
Definition GlobalTo2DLocalCoords_point (pX pY pZ e1X e1Y e1Z e2X e2Y e2Z
    cX cY cZ : RealT) : RealT * RealT :=
  let vX := pX - cX in
  let vY := pY - cY in
  let vZ := pZ - cZ in
  (vX * e1X + vY * e1Y + vZ * e1Z, vX * e2X + vY * e2Y + vZ * e2Z).

(** The overload for [size] points, writing [pLX[i]], [pLY[i]] into the
    caller's buffers.  The arrays are taken to hold [size] entries, as
    the C++ code takes them to; the null-pointer check of host builds
    has no counterpart for lists. *)
Definition GlobalTo2DLocalCoords (pX pY pZ : list RealT)
    (e1X e1Y e1Z e2X e2Y e2Z cX cY cZ : RealT) (pLX pLY : list RealT)
    (size : Z) : list RealT * list RealT :=
  fold_left
    (fun (out : list RealT * list RealT) (i : Z) =>
       let vX := rd pX i - cX in
       let vY := rd pY i - cY in
       let vZ := rd pZ i - cZ in
       (upd (fst out) i (vX * e1X + vY * e1Y + vZ * e1Z),
        upd (snd out) i (vX * e2X + vY * e2Y + vZ * e2Z)))
    (range size) (pLX, pLY).

End Geom2.

(** ** Time step vote of the common-plane method
    ([CouplingScheme::computeCommonPlaneTimeStep]) *)

Module Vote.

Import Scheme.
Local Open Scope float_scope.

(** What the kernel reads for one active pair: the members of the
    contact plane, and the values handed back by the calls that leave
    the sources ([GalerkinEval] for the face velocities at the projected
    overlap centroid, [getFaceNormal], the element thickness arrays). *)
Record PlaneData := mkPlaneData {
  m_cXf1 : RealT; m_cYf1 : RealT; m_cZf1 : RealT;
  m_cXf2 : RealT; m_cYf2 : RealT; m_cZf2 : RealT;
  m_nX : RealT; m_nY : RealT; m_nZ : RealT;
  m_inContact : bool;
  vel_f1 : list RealT;
  vel_f2 : list RealT;
  fn1 : list RealT;
  fn2 : list RealT;
  t1 : RealT;
  t2 : RealT
}.

(** [dt_temp[0]], [dt_temp[1]] and the three message flags. *)
Record VoteState := mkVoteState {
  dt_temp0 : RealT;
  dt_temp1 : RealT;
  max_gap_msg : bool;
  neg_dt_gap_msg : bool;
  neg_dt_vel_proj_msg : bool
}.

Section Kernel.

(** [dotProd( a, b, dim )] of [Math.hpp], [RAJA::atomicMin] (here: the
    accumulator after the call, from the accumulator before it and the
    value) and [axom::utilities::min] are not among the sources. *)
Variable dotProd : list RealT -> list RealT -> Z -> RealT.
Variable atomicMin : RealT -> RealT -> RealT.
Variable utilities_min : RealT -> RealT -> RealT.

(** The body of the loop over the active pairs. *)
Definition vote_pair (dim : Z) (proj_ratio dt : RealT) (st : VoteState)
    (plane : PlaneData) : VoteState :=
  let overlapNormal :=
    if (dim =? 3)%Z then [m_nX plane; m_nY plane; m_nZ plane]
    else [m_nX plane; m_nY plane] in
  let v1_dot_n := dotProd (vel_f1 plane) overlapNormal dim in
  let v2_dot_n := dotProd (vel_f2 plane) overlapNormal dim in
  let v1_dot_n1 := dotProd (vel_f1 plane) (fn1 plane) dim in
  let v2_dot_n2 := dotProd (vel_f2 plane) (fn2 plane) dim in
  let tiny := 1e-12 in
  let tiny1 := if 0 <=? v1_dot_n then tiny else -1 * tiny in
  let tiny2 := if 0 <=? v2_dot_n then tiny else -1 * tiny in
  let v1_dot_n := v1_dot_n + tiny1 in
  let v2_dot_n := v2_dot_n + tiny2 in
  let tiny1 := if 0 <=? v1_dot_n1 then tiny else -1 * tiny in
  let tiny2 := if 0 <=? v2_dot_n2 then tiny else -1 * tiny in
  let v1_dot_n1 := v1_dot_n1 + tiny1 in
  let v2_dot_n2 := v2_dot_n2 + tiny2 in
  let gapVec :=
    if (dim =? 3)%Z
    then [m_cXf1 plane - m_cXf2 plane; m_cYf1 plane - m_cYf2 plane;
          m_cZf1 plane - m_cZf2 plane]
    else [m_cXf1 plane - m_cXf2 plane; m_cYf1 plane - m_cYf2 plane] in
  let gap_f1_n1 := dotProd gapVec (fn1 plane) dim in
  let gap_f2_n2 := dotProd gapVec (fn2 plane) dim in
  let dt1 := 1e6 in
  let dt2 := 1e6 in
  let alpha := 1 in
  let max_delta1 := proj_ratio * t1 plane in
  let max_delta2 := proj_ratio * t2 plane in
  let dt1_vel_check := v1_dot_n <? 0 in
  let dt2_vel_check := 0 <? v2_dot_n in
  (* 1. current interpenetration gap exceeds the allowed one *)
  let '(dt1, dt2, st) :=
    if m_inContact plane then
      let delta1 := max_delta1 - gap_f1_n1 in
      let delta2 := max_delta2 + gap_f2_n2 in
      let msg0 :=
        if (delta1 <? 0) || (delta2 <? 0) then true else max_gap_msg st in
      let dt1_check1 := if dt1_vel_check then delta1 <? 0 else false in
      let dt2_check1 := if dt2_vel_check then delta2 <? 0 else false in
      let dt1 := if dt1_check1 then - alpha * delta1 / v1_dot_n1 else dt1 in
      let dt2 := if dt2_check1 then - alpha * delta2 / v2_dot_n2 else dt2 in
      let d0 := dt_temp0 st in
      let d0 := if 0 <? dt1 then atomicMin d0 (utilities_min dt1 1e6) else d0 in
      let d0 := if 0 <? dt2 then atomicMin d0 (utilities_min 1e6 dt2) else d0 in
      let msg1 :=
        if (dt1 <? 0) || (dt2 <? 0) then true else neg_dt_gap_msg st in
      (dt1, dt2,
       mkVoteState d0 (dt_temp1 st) msg0 msg1 (neg_dt_vel_proj_msg st))
    else (dt1, dt2, st) in
  (* 2. velocity projection exceeds the interpenetration tolerance *)
  let proj_delta_x1 :=
    m_cXf1 plane + dt * rd (vel_f1 plane) 0 - m_cXf2 plane in
  let proj_delta_y1 :=
    m_cYf1 plane + dt * rd (vel_f1 plane) 1 - m_cYf2 plane in
  let proj_delta_x2 :=
    m_cXf2 plane + dt * rd (vel_f2 plane) 0 - m_cXf1 plane in
  let proj_delta_y2 :=
    m_cYf2 plane + dt * rd (vel_f2 plane) 1 - m_cYf1 plane in
  let proj_delta_n_1 :=
    proj_delta_x1 * rd (fn2 plane) 0 + proj_delta_y1 * rd (fn2 plane) 1 in
  let proj_delta_n_2 :=
    proj_delta_x2 * rd (fn1 plane) 0 + proj_delta_y2 * rd (fn1 plane) 1 in
  let '(proj_delta_n_1, proj_delta_n_2) :=
    if (dim =? 3)%Z then
      let proj_delta_z1 :=
        m_cZf1 plane + dt * rd (vel_f1 plane) 2 - m_cZf2 plane in
      let proj_delta_z2 :=
        m_cZf2 plane + dt * rd (vel_f2 plane) 2 - m_cZf1 plane in
      (proj_delta_n_1 + proj_delta_z1 * rd (fn2 plane) 2,
       proj_delta_n_2 + proj_delta_z2 * rd (fn1 plane) 2)
    else (proj_delta_n_1, proj_delta_n_2) in
  let dt1_vel_check :=
    if dt1_vel_check
    then if proj_delta_n_1 <? 0 then max_delta1 <? abs proj_delta_n_1 else false
    else dt1_vel_check in
  let dt2_vel_check :=
    if dt2_vel_check
    then if proj_delta_n_2 <? 0 then max_delta2 <? abs proj_delta_n_2 else false
    else dt2_vel_check in
  let dt1 :=
    if dt1_vel_check
    then - alpha * (proj_delta_n_1 + max_delta1) / v1_dot_n1 else dt1 in
  let dt2 :=
    if dt2_vel_check
    then - alpha * (proj_delta_n_2 + max_delta2) / v2_dot_n2 else dt2 in
  let d1 := dt_temp1 st in
  let d1 := if 0 <? dt1 then atomicMin d1 (utilities_min dt1 1e6) else d1 in
  let d1 := if 0 <? dt2 then atomicMin d1 (utilities_min 1e6 dt2) else d1 in
  let msg2 :=
    if (dt1 <? 0) || (dt2 <? 0) then true else neg_dt_vel_proj_msg st in
  mkVoteState (dt_temp0 st) d1 (max_gap_msg st) (neg_dt_gap_msg st) msg2.

(** [computeCommonPlaneTimeStep( dt )]: the new [dt] and the message
    flags; [planes] are the active pairs in the order of the loop. *)
Definition computeCommonPlaneTimeStep (cs : CouplingScheme)
    (planes : list PlaneData) (dt : RealT) : RealT * VoteState :=
  let unchanged := mkVoteState dt dt false false false in
  match kinematic_calculation (penalty_options (m_enforcementOptions cs)) with
  | KINEMATIC_CONSTANT => (dt, unchanged)
  | KINEMATIC_ELEMENT =>
      let proj_ratio := timestep_pen_frac (m_parameters cs) in
      let dim := spatialDimension (m_mesh1 cs) in
      let st := fold_left (vote_pair dim proj_ratio dt) planes unchanged in
      (utilities_min (dt_temp0 st) (dt_temp1 st), st)
  end.

End Kernel.

End Vote.

(** ** Further vocabulary *)

(** The predecessor index on a closed polygon. *)
Definition prev_id (j n : Z) : Z := if j =? 0 then n - 1 else j - 1.

(** The test of [CheckPolySegs] on the edge leaving vertex [i]: the edge
    is shorter than [tol]. *)
Definition short_edge (x y : list RealT) (n : Z) (tol : RealT) (i : Z) : bool :=
  (Geom.magnitude (rd x (next_id i n) - rd x i) (rd y (next_id i n) - rd y i)
   <? tol)%float.

(** An id array of [n] entries that holds every index below [n] once and
    leaves index 0 in place. *)
Definition id_array (n : Z) (ids : list Z) : Prop :=
  Z.of_nat (length ids) = n
  /\ (forall k, 0 <= k < n -> 0 <= rdi ids k < n)
  /\ (forall i j, 0 <= i < n -> 0 <= j < n -> rdi ids i = rdi ids j -> i = j)
  /\ rdi ids 0 = 0.

(** Component [c] of the vertices of an interleaved coordinate array. *)
Definition component (x : list RealT) (dim numVert c : Z) : list RealT :=
  map (fun i => rd x (dim * i + c)) (range numVert).

(** A vertex list with its first vertex kept and the others in reverse
    order: the same polygon walked the other way round. *)
Definition reversed_walk {A} (l : list A) : list A :=
  match l with
  | [] => []
  | h :: t => h :: rev t
  end.

(** The sign test of [PolyReorderWithNormal]: the normal of the first
    three vertices points against the given normal. *)
Definition against_normal
    (crossProd : RealT -> RealT -> RealT -> RealT -> RealT -> RealT ->
                 RealT * RealT * RealT)
    (dotProd : RealT -> RealT -> RealT -> RealT -> RealT -> RealT -> RealT)
    (x y z : list RealT) (nX nY nZ : RealT) : bool :=
  let '(pX, pY, pZ) :=
    (crossProd (rd x 1 - rd x 0) (rd y 1 - rd y 0) (rd z 1 - rd z 0)
       (rd x 2 - rd x 0) (rd y 2 - rd y 0) (rd z 2 - rd z 0))%float in
  (dotProd pX pY pZ nX nY nZ <? 0)%float.

(** A double whose sign bit is clear, or NaN: +0, a positive number,
    +infinity or NaN. *)
Definition sign_clear (f : float) : Prop :=
  match Prim2SF f with
  | S754_nan => True
  | S754_zero s | S754_infinity s | S754_finite s _ _ => s = false
  end.

(** The error fields other than the one numbered [which] (0 mode,
    1 case, 2 method, 3 model, 4 enforcement) agree. *)
Definition other_errors_kept (which : Z) (a b : Scheme.CouplingSchemeErrors)
  : Prop :=
  (which = 0 \/ Scheme.cs_mode_error a = Scheme.cs_mode_error b)
  /\ (which = 1 \/ Scheme.cs_case_error a = Scheme.cs_case_error b)
  /\ (which = 2 \/ Scheme.cs_method_error a = Scheme.cs_method_error b)
  /\ (which = 3 \/ Scheme.cs_model_error a = Scheme.cs_model_error b)
  /\ (which = 4 \/
      Scheme.cs_enforcement_error a = Scheme.cs_enforcement_error b)
  /\ Scheme.cs_enforcement_data_error a = Scheme.cs_enforcement_data_error b.

(** The members of a scheme that no validation routine rewrites. *)
Definition same_registration (a b : Scheme.CouplingScheme) : Prop :=
  Scheme.m_id a = Scheme.m_id b
  /\ Scheme.m_mesh_id1 a = Scheme.m_mesh_id1 b
  /\ Scheme.m_mesh_id2 a = Scheme.m_mesh_id2 b
  /\ Scheme.m_contactMode a = Scheme.m_contactMode b
  /\ Scheme.m_contactMethod a = Scheme.m_contactMethod b
  /\ Scheme.m_contactModel a = Scheme.m_contactModel b
  /\ Scheme.m_interface_pairs a = Scheme.m_interface_pairs b
  /\ Scheme.m_numActivePairs a = Scheme.m_numActivePairs b
  /\ Scheme.m_mesh1 a = Scheme.m_mesh1 b
  /\ Scheme.m_mesh2 a = Scheme.m_mesh2 b
  /\ Scheme.m_pairReportingData a = Scheme.m_pairReportingData b
  /\ Scheme.m_numTotalNodes a = Scheme.m_numTotalNodes b
  /\ Scheme.m_isValid a = Scheme.m_isValid b.

(** Every error field at its no-error tag. *)
Definition no_errors : Scheme.CouplingSchemeErrors :=
  Scheme.mkErrors Scheme.NO_MODE_ERROR Scheme.NO_CASE_ERROR
    Scheme.NO_METHOD_ERROR Scheme.NO_MODEL_ERROR Scheme.NO_ENFORCEMENT_ERROR
    Scheme.NO_ENFORCEMENT_DATA_ERROR.


(** What [CheckInterfacePair] reports for a pair of scheme [cs]: the
    error tag, whether the faces interact, and the number of contact
    planes stored. *)
Definition checked
    (CheckInterfacePair :
       Scheme.InterfacePair -> Scheme.MeshData -> Scheme.MeshData ->
       Scheme.Parameters -> Scheme.ContactMethod -> Scheme.ContactCase ->
       FaceGeomError * bool * Z)
    (cs : Scheme.CouplingScheme) (p : Scheme.InterfacePair)
  : FaceGeomError * bool * Z :=
  CheckInterfacePair p (Scheme.m_mesh1 cs) (Scheme.m_mesh2 cs)
    (Scheme.m_parameters cs) (Scheme.m_contactMethod cs)
    (Scheme.m_contactCase cs).

(** ** Further sample data *)

Module Samples.

Import Scheme.

Local Open Scope float_scope.

(** A pentagon whose edge from (1,0) to (1,1e-9) is shorter than the
    tolerance 1e-8. *)
Definition stub_x : list RealT := [0; 1; 1; 1; 0].
Definition stub_y : list RealT := [0; 0; 1e-9; 1; 1].

(** The unit square as a face in the plane z = 0. *)
Definition flat_z : list RealT := [0; 0; 0; 0].

(** Output buffers of eight entries. *)
Definition buffer : list RealT := repeat 0 8.

(** [crossProd] and [dotProd] on components, as their names say. *)
Definition cross (aX aY aZ bX bY bZ : RealT) : RealT * RealT * RealT :=
  (aY * bZ - aZ * bY, aZ * bX - aX * bZ, aX * bY - aY * bX).

Definition dot (aX aY aZ bX bY bZ : RealT) : RealT :=
  aX * bX + aY * bY + aZ * bZ.

(** [dotProd] on arrays and an [atomicMin] without concurrent writers. *)
Definition dot_n (a b : list RealT) (dim : Z) : RealT :=
  if (dim =? 3)%Z then rd a 0 * rd b 0 + rd a 1 * rd b 1 + rd a 2 * rd b 2
  else rd a 0 * rd b 0 + rd a 1 * rd b 1.

Definition min_update (acc value : RealT) : RealT :=
  if value <? acc then value else acc.

(** [axom::utilities::min] as the usual ternary. *)
Definition least (x y : RealT) : RealT := if y <? x then y else x.

(** Two faces of thickness 0.5 and 0.75, 0.5 apart along z and closing
    on each other at unit speed each. *)
Definition closing_plane : Vote.PlaneData :=
  Vote.mkPlaneData 0 0 0 0 0 0.5 0 0 (-1) true
    [0; 0; 1] [0; 0; -1] [0; 0; 1] [0; 0; -1] 0.5 0.75.

(** Meshes 3 and 4 are both the quad mesh. *)
Definition quad_registry : MeshManager :=
  fun id => if (id =? 3)%Z then Some Fixtures.quad_mesh
            else if (id =? 4)%Z then Some Fixtures.quad_mesh
            else None.

(** A frictionless common-plane scheme with penalty enforcement, as
    constructed and before [init]. *)
Definition penalty_scheme : CouplingScheme :=
  new_CouplingScheme 0 3 4 SURFACE_TO_SURFACE NO_CASE COMMON_PLANE
    FRICTIONLESS PENALTY Fixtures.quad_mesh Fixtures.params Fixtures.opts.

(** The same choices with one mesh against itself and the contact case
    left to the library. *)
Definition auto_scheme : CouplingScheme :=
  new_CouplingScheme 0 3 3 SURFACE_TO_SURFACE AUTO COMMON_PLANE
    FRICTIONLESS PENALTY Fixtures.quad_mesh Fixtures.params Fixtures.opts.

End Samples.

(** * Properties *)

Import Geom Scheme.

(** ** Facts about the list helpers *)

Lemma range_length (n : Z) : length (range n) = Z.to_nat n.
Proof. unfold range. now rewrite length_map, length_seq. Qed.

Lemma in_range_iff (n i : Z) : In i (range n) <-> 0 <= i < n.
Proof.
  unfold range. rewrite in_map_iff. split.
  - intros [k [<- Hk]]. apply in_seq in Hk. lia.
  - intros H. exists (Z.to_nat i). split; [lia|]. apply in_seq. lia.
Qed.

Lemma range_NoDup (n : Z) : NoDup (range n).
Proof.
  unfold range. apply Injective_map_NoDup.
  - intros a b H. lia.
  - apply seq_NoDup.
Qed.

Lemma upd_nat_length {A} (a : list A) (n : nat) (v : A) :
  length (upd_nat a n v) = length a.
Proof.
  revert n. induction a as [|h t IH]; intros [|n]; simpl; auto.
Qed.

Lemma upd_length {A} (a : list A) (i : Z) (v : A) :
  length (upd a i v) = length a.
Proof. unfold upd. destruct (i <? 0); auto using upd_nat_length. Qed.

Lemma nth_upd_nat_same {A} (d : A) (a : list A) (n : nat) (v : A) :
  (n < length a)%nat -> nth n (upd_nat a n v) d = v.
Proof.
  revert n. induction a as [|h t IH]; intros [|n] H; simpl in *; try lia; auto.
  apply IH. lia.
Qed.

Lemma nth_upd_nat_other {A} (d : A) (a : list A) (n m : nat) (v : A) :
  n <> m -> nth m (upd_nat a n v) d = nth m a d.
Proof.
  revert n m. induction a as [|h t IH]; intros [|n] [|m] H; simpl; auto; try lia.
Qed.

Lemma idx_upd_same {A} (d : A) (a : list A) (i : Z) (v : A) :
  0 <= i < Z.of_nat (length a) -> idx d (upd a i v) i = v.
Proof.
  intros H. unfold idx, upd.
  destruct (Z.ltb_spec i 0); [lia|]. apply nth_upd_nat_same. lia.
Qed.

Lemma idx_upd_other {A} (d : A) (a : list A) (i j : Z) (v : A) :
  0 <= j -> i <> j -> idx d (upd a i v) j = idx d a j.
Proof.
  intros Hj H. unfold idx, upd.
  destruct (Z.ltb_spec i 0); auto. apply nth_upd_nat_other. lia.
Qed.

Lemma rdi_range (n k : Z) : 0 <= k < n -> rdi (range n) k = k.
Proof.
  intros H. unfold rdi, idx, range.
  rewrite nth_indep with (d' := Z.of_nat 0)
    by (rewrite length_map, length_seq; lia).
  rewrite map_nth, seq_nth by lia. lia.
Qed.

Lemma upd_keeps {A} (d : A) (a : list A) (i : Z) :
  0 <= i < Z.of_nat (length a) -> upd a i (idx d a i) = a.
Proof.
  intros H. apply nth_ext with (d := d) (d' := d).
  - apply upd_length.
  - intros m Hm. rewrite upd_length in Hm.
    destruct (Z.eq_dec i (Z.of_nat m)) as [->|Hne].
    + change (nth m ?l d) with (nth m l d).
      replace (nth m (upd a (Z.of_nat m) (idx d a (Z.of_nat m))) d)
        with (idx d (upd a (Z.of_nat m) (idx d a (Z.of_nat m))) (Z.of_nat m))
        by (unfold idx; now rewrite Nat2Z.id).
      rewrite idx_upd_same by lia. unfold idx. now rewrite Nat2Z.id.
    + replace (nth m (upd a i (idx d a i)) d)
        with (idx d (upd a i (idx d a i)) (Z.of_nat m))
        by (unfold idx; now rewrite Nat2Z.id).
      rewrite idx_upd_other by lia. unfold idx. now rewrite Nat2Z.id.
Qed.

Lemma upd_range_keeps (n i : Z) : 0 <= i < n -> upd (range n) i i = range n.
Proof.
  intros H. rewrite <- (rdi_range n i H) at 2.
  apply (upd_keeps 0). rewrite range_length. lia.
Qed.

Lemma range_head (n : Z) :
  0 < n -> range n = 0 :: map (fun t => 1 + t) (range (n - 1)).
Proof.
  intros H. unfold range.
  replace (Z.to_nat n) with (S (Z.to_nat (n - 1))) by lia.
  cbn [seq map]. f_equal. rewrite <- seq_shift, !map_map.
  apply map_ext. intros a. lia.
Qed.

Lemma map_rd_range (x : list RealT) :
  map (rd x) (range (Z.of_nat (length x))) = x.
Proof.
  apply nth_ext with (d := 0%float) (d' := 0%float).
  - now rewrite length_map, range_length, Nat2Z.id.
  - intros m Hm. rewrite length_map, range_length, Nat2Z.id in Hm.
    unfold range. rewrite map_map, Nat2Z.id.
    rewrite nth_indep with (d' := rd x (Z.of_nat 0))
      by (rewrite length_map, length_seq; lia).
    rewrite (map_nth (fun k => rd x (Z.of_nat k))), seq_nth by lia.
    unfold rd, idx. simpl. now rewrite Nat2Z.id.
Qed.


(** ** Comparison of doubles

    [a >= b] true makes [a < b] false: the two tests of
    [computeTimeStep] cannot both hold.  Proved from the IEEE-754
    specification of the primitive comparisons. *)
Lemma SFcompare_swap (x y : SpecFloat.spec_float) (c : comparison) :
  SpecFloat.SFcompare x y = Some c ->
  SpecFloat.SFcompare y x = Some (CompOpp c).
Proof.
  destruct x as [sx|sx| |sx mx ex], y as [sy|sy| |sy my ey]; simpl;
    try discriminate;
    try (destruct sx; intros [= <-]; reflexivity);
    try (destruct sy; intros [= <-]; reflexivity);
    try (intros [= <-]; reflexivity).
  - destruct sx, sy; intros [= <-]; reflexivity.
  - destruct sx, sy; intros [= <-]; try reflexivity;
      rewrite (Z.compare_antisym ey ex);
      destruct (ey ?= ex) eqn:E; simpl; try reflexivity;
      rewrite (ZC4 mx my);
      destruct (PosDef.Pos.compare_cont Eq my mx); reflexivity.
Qed.

Lemma leb_true_ltb_false (a b : float) :
  (a <=? b)%float = true -> (b <? a)%float = false.
Proof.
  rewrite leb_spec, ltb_spec. unfold SpecFloat.SFleb, SpecFloat.SFltb.
  destruct (SpecFloat.SFcompare (Prim2SF a) (Prim2SF b)) as [c|] eqn:E;
    [|discriminate].
  rewrite (SFcompare_swap _ _ _ E). destruct c; simpl; congruence.
Qed.

(** ** Gap tolerance (C1) *)



(** ** Area-weighted centroid (C8) *)

Lemma fold_left_pair_shape {A B C} (f : A * B -> C -> A * B) (l : list C)
    (s : A * B) : exists a b, fold_left f l s = (a, b).
Proof. destruct (fold_left f l s) as [a b]. eauto. Qed.

(** C8, as the code has it.  [PolyAreaCentroid] reports failure exactly
    when [numVert] is 0, and then leaves the centroid untouched; with
    one or two vertices it reports success. *)
Theorem PolyAreaCentroid_fails_iff_no_vertex
    (x : list RealT) (dim numVert : Z) (c : Vec3) :
  fst (PolyAreaCentroid x dim numVert c) = negb (numVert =? 0)
  /\ PolyAreaCentroid x dim 0 c = (false, c).
Proof.
  split; [|reflexivity].
  unfold PolyAreaCentroid.
  destruct (numVert =? 0); [reflexivity|].
  destruct (snd (VertexAvgCentroid_stacked x dim numVert (0, 0, 0)%float))
    as [[cx cy] cz].
  match goal with
  | |- fst (let '(_, _) := fold_left ?f ?l ?s in _) = _ =>
      destruct (fold_left f l s) as [[[a b] d] e]
  end.
  reflexivity.
Qed.

(** C8, counterexample.  A "polygon" of two 3D vertices (fewer than 3)
    is not refused: the routine reports success. *)
Lemma PolyAreaCentroid_two_vertices_succeeds :
  2 < 3 /\
  fst (PolyAreaCentroid [0; 0; 0; 1; 0; 0]%float 3 2 (0, 0, 0)%float) = true.
Proof. split; [lia | vm_compute; reflexivity]. Qed.

(** ** Reversal of the vertex order (C10) *)

(** C10, at the failing input.  A three-vertex polygon stored in arrays
    of three entries: the first pass of the loop reads [x[numVert]],
    index 3 of an array of size 3. *)
Theorem Vertex2DOrderToCCW_reads_index_numVert :
  Vertex2DOrderToCCW [0; 1; 0]%float [0; 0; 1]%float
    [0; 0; 0]%float [0; 0; 0]%float 3
  = inl (ReadPastEnd 3 3).
Proof. vm_compute. reflexivity. Qed.

(** The same for every polygon: with [numVert >= 1] coordinates per
    array, the routine's first loop read is at index [numVert]. *)
Lemma Vertex2DOrderToCCW_out_of_bounds
    (x y xTemp yTemp : list RealT) (numVert : Z) :
  1 <= numVert ->
  Z.of_nat (length x) = numVert ->
  Z.of_nat (length y) = numVert ->
  (0 < length xTemp)%nat -> (0 < length yTemp)%nat ->
  Vertex2DOrderToCCW x y xTemp yTemp numVert
  = inl (ReadPastEnd numVert numVert).
Proof.
  intros Hn Hx Hy HxT HyT. unfold Vertex2DOrderToCCW.
  destruct (Z.leb_spec numVert 0); [lia|].
  unfold load at 1. rewrite Hx.
  replace ((0 <=? 0) && (0 <? numVert)) with true
    by (symmetry; apply andb_true_iff; split; [reflexivity | apply Z.ltb_lt; lia]).
  simpl mbind. unfold store at 1.
  replace ((0 <=? 0) && (0 <? Z.of_nat (length xTemp))) with true
    by (symmetry; apply andb_true_iff; split; [reflexivity | apply Z.ltb_lt; lia]).
  simpl mbind. unfold load at 1. rewrite Hy.
  replace ((0 <=? 0) && (0 <? numVert)) with true
    by (symmetry; apply andb_true_iff; split; [reflexivity | apply Z.ltb_lt; lia]).
  simpl mbind. unfold store at 1.
  replace ((0 <=? 0) && (0 <? Z.of_nat (length yTemp))) with true
    by (symmetry; apply andb_true_iff; split; [reflexivity | apply Z.ltb_lt; lia]).
  simpl mbind.
  destruct (Z.to_nat numVert) as [|n] eqn:E; [lia|].
  cbn [ccw_loop]. replace (Z.of_nat (S n)) with numVert by lia.
  unfold load at 1. rewrite Hx.
  replace ((0 <=? numVert) && (numVert <? numVert)) with false
    by (symmetry; apply andb_false_iff; right; apply Z.ltb_ge; lia).
  reflexivity.
Qed.

(** ** Time step vote (C9) *)

(** C9.  Whatever the common-plane vote computes: when the incoming
    [dt] is at least 1e-8, both meshes have at least one element and one
    of them has no registered velocities, [computeTimeStep] returns
    [dt = -1.0] (the vote is not consulted); when the incoming [dt] is
    below 1e-8 it is returned unchanged. *)
Theorem computeTimeStep_guards
    (vote : CouplingScheme -> RealT -> RealT) (cs : CouplingScheme)
    (dt : RealT) :
  ((1e-8 <=? dt)%float = true ->
   0 < numberOfElements (m_mesh1 cs) ->
   0 < numberOfElements (m_mesh2 cs) ->
   hasVelocity (m_mesh1 cs) = false \/ hasVelocity (m_mesh2 cs) = false ->
   computeTimeStep vote cs dt = (-1)%float)
  /\ ((dt <? 1e-8)%float = true -> computeTimeStep vote cs dt = dt).
Proof.
  split.
  - intros Hdt H1 H2 Hv. unfold computeTimeStep.
    rewrite (leb_true_ltb_false _ _ Hdt).
    replace (negb (hasVelocity (m_mesh1 cs)) || negb (hasVelocity (m_mesh2 cs)))
      with true
      by (destruct Hv as [-> | ->]; simpl; auto using orb_true_r).
    apply Z.ltb_lt in H1, H2. now rewrite H1, H2.
  - intros Hdt. unfold computeTimeStep. now rewrite Hdt.
Qed.

(** A scheme whose second mesh has no registered velocities:
    [dt = 0.01] comes back as -1, [dt = 1e-9] comes back unchanged. *)
Lemma computeTimeStep_guards_witness :
  computeTimeStep Fixtures.keep_dt Fixtures.tied_scheme 0.01%float = (-1)%float
  /\ computeTimeStep Fixtures.keep_dt Fixtures.tied_scheme 1e-9%float
     = 1e-9%float.
Proof.
  split.
  - apply (proj1 (computeTimeStep_guards Fixtures.keep_dt Fixtures.tied_scheme
                    0.01%float)).
    + reflexivity.
    + simpl; lia.
    + simpl; lia.
    + right; reflexivity.
  - apply (proj2 (computeTimeStep_guards Fixtures.keep_dt Fixtures.tied_scheme
                    1e-9%float)).
    reflexivity.
Defined.

(** ** Validation of mixed face types (C6) *)

Lemma nodes_differ_types_differ (mesh1 mesh2 : MeshData) :
  numberOfNodesPerElement mesh1 <> numberOfNodesPerElement mesh2 ->
  InterfaceElementType_eqb (getElementType mesh1) (getElementType mesh2) = false.
Proof.
  unfold numberOfNodesPerElement.
  destruct (getElementType mesh1), (getElementType mesh2); simpl;
    intros H; try reflexivity; exfalso; apply H; reflexivity.
Qed.

Lemma markInvalid_both (mm : MeshManager) (id1 id2 : Z) (m1 m2 : MeshData) :
  findData mm id1 = Some m1 -> findData mm id2 = Some m2 ->
  both_invalid (markInvalid (markInvalid mm id1) id2) id1 id2.
Proof.
  intros H1 H2. unfold both_invalid, markInvalid, findData in *. cbv beta.
  destruct (Z.eqb_spec id1 id2) as [->|Hne].
  - rewrite !Z.eqb_refl, H2. simpl.
    exists (invalidate (invalidate m2)), (invalidate (invalidate m2)).
    repeat split.
  - rewrite !Z.eqb_refl, H1.
    destruct (Z.eqb_spec id2 id1) as [E|_]; [congruence|].
    rewrite H2. simpl.
    exists (invalidate m1), (invalidate m2). repeat split.
Qed.

(** C6, as the code has it.  When the two registered meshes have
    different numbers of vertices per face, [init] fails whatever the
    contact method: the element-type guard at the head of
    [isValidCouplingScheme] flags both meshes invalid and returns before
    [isValidMethod] is reached.  The scheme is left as it was except for
    [m_isValid = false]; in particular its method error is not set to
    [DIFFERENT_FACE_TYPES], and its pair list is untouched. *)
Theorem init_rejects_mixed_face_types
    (checkLM : MeshData -> Z)
    (checkPen : MeshData -> PenaltyEnforcementOptions -> Z)
    (faceData : MeshData -> MeshData)
    (cs : CouplingScheme) (mm : MeshManager) (mesh1 mesh2 : MeshData) :
  findData mm (m_mesh_id1 cs) = Some mesh1 ->
  findData mm (m_mesh_id2 cs) = Some mesh2 ->
  numberOfNodesPerElement mesh1 <> numberOfNodesPerElement mesh2 ->
  exists mm',
    init checkLM checkPen faceData cs mm = (false, set_isValid cs false, mm')
    /\ both_invalid mm' (m_mesh_id1 cs) (m_mesh_id2 cs).
Proof.
  intros H1 H2 Hn. unfold init, isValidCouplingScheme.
  rewrite H1, H2, (nodes_differ_types_differ _ _ Hn). simpl negb. cbv iota.
  set (mm1 := markInvalid (markInvalid mm (m_mesh_id1 cs)) (m_mesh_id2 cs)).
  assert (B1 : both_invalid mm1 (m_mesh_id1 cs) (m_mesh_id2 cs))
    by (apply (markInvalid_both mm _ _ mesh1 mesh2); assumption).
  set (mm2 := if negb (MemorySpace_eqb (getMemorySpace mesh1) (getMemorySpace mesh2))
              then markInvalid (markInvalid mm1 (m_mesh_id1 cs)) (m_mesh_id2 cs)
              else mm1).
  assert (B2 : both_invalid mm2 (m_mesh_id1 cs) (m_mesh_id2 cs)).
  { subst mm2.
    destruct (negb (MemorySpace_eqb (getMemorySpace mesh1) (getMemorySpace mesh2)));
      [|exact B1].
    destruct B1 as (a & b & Ha & Hb & _).
    apply (markInvalid_both mm1 _ _ a b); assumption. }
  exists mm2. split; [|exact B2].
  destruct B2 as (a & b & Ha & Hb & Va & Vb).
  rewrite Ha, Hb, Va. simpl. reflexivity.
Qed.

(** Scenario S6: the triangle mesh against the quad mesh. *)
Lemma init_rejects_mixed_face_types_witness :
  exists mm',
    init Fixtures.lm_data_ok Fixtures.penalty_data_ok Fixtures.same_face_data
      Fixtures.hybrid_scheme Fixtures.registry
    = (false, set_isValid Fixtures.hybrid_scheme false, mm')
    /\ both_invalid mm' 1 2.
Proof.
  apply (init_rejects_mixed_face_types Fixtures.lm_data_ok
           Fixtures.penalty_data_ok Fixtures.same_face_data
           Fixtures.hybrid_scheme Fixtures.registry
           Fixtures.tri_mesh Fixtures.quad_mesh).
  - reflexivity.
  - reflexivity.
  - vm_compute. lia.
Defined.

(** C6, counterexample (scenario S6).  Triangle faces against quad
    faces, both meshes with elements, SINGLE_MORTAR: [init] fails, and
    the method error it leaves is [NO_METHOD_ERROR], not
    [DIFFERENT_FACE_TYPES]. *)
Lemma init_hybrid_leaves_no_method_error :
  let r := init Fixtures.lm_data_ok Fixtures.penalty_data_ok
             Fixtures.same_face_data Fixtures.hybrid_scheme Fixtures.registry in
  numberOfNodesPerElement Fixtures.tri_mesh = 3
  /\ numberOfNodesPerElement Fixtures.quad_mesh = 4
  /\ m_contactMethod Fixtures.hybrid_scheme = SINGLE_MORTAR
  /\ fst (fst r) = false
  /\ cs_method_error (m_couplingSchemeErrors (snd (fst r))) = NO_METHOD_ERROR
  /\ cs_method_error (m_couplingSchemeErrors (snd (fst r))) <> DIFFERENT_FACE_TYPES.
Proof. vm_compute. repeat split; discriminate. Qed.

(** ** Face-geometry errors in [apply] (C2) *)

Section PairLoop.

Variable check :
  InterfacePair -> MeshData -> MeshData -> Parameters ->
  ContactMethod -> ContactCase -> FaceGeomError * bool * Z.
Variable cs : CouplingScheme.

Lemma pair_loop_acc (pairs done : list InterfacePair) (e : bool) (n : Z) :
  fold_left
    (fun (st : list InterfacePair * bool * Z) (pair : InterfacePair) =>
       let '(done, pair_err, planes_ct) := st in
       let '(pair', err, stored) := check_pair check cs pair in
       (done ++ [pair'], pair_err || err, planes_ct + stored))
    pairs (done, e, n)
  = (done ++ map (fun p => fst (fst (check_pair check cs p))) pairs,
     e || existsb (fun p => snd (fst (check_pair check cs p))) pairs,
     fold_left (fun a p => a + snd (check_pair check cs p)) pairs n).
Proof.
  revert done e n. induction pairs as [|p ps IH]; intros done e n; simpl.
  - now rewrite app_nil_r, orb_false_r.
  - destruct (check_pair check cs p) as [[p' err] stored] eqn:E. simpl.
    rewrite IH, <- app_assoc, orb_assoc. reflexivity.
Qed.

Lemma pair_loop_spec (pairs : list InterfacePair) :
  pair_loop check cs pairs
  = (map (fun p => fst (fst (check_pair check cs p))) pairs,
     existsb (fun p => snd (fst (check_pair check cs p))) pairs,
     fold_left (fun a p => a + snd (check_pair check cs p)) pairs 0).
Proof. unfold pair_loop. now rewrite pair_loop_acc. Qed.


End PairLoop.


(** [apply] never touches the pair reporting data: the call of
    [updatePairReportingData] in its pair loop is commented out. *)
Lemma apply_keeps_pair_reporting_data
    (check : InterfacePair -> MeshData -> MeshData -> Parameters ->
             ContactMethod -> ContactCase -> FaceGeomError * bool * Z)
    (physics : CouplingScheme -> Z -> RealT -> Z)
    (vote : CouplingScheme -> RealT -> RealT)
    (cs : CouplingScheme) (cycle : Z) (t dt : RealT) :
  m_pairReportingData (snd (fst (apply check physics vote cs cycle t dt)))
  = m_pairReportingData cs.
Proof.
  unfold apply. rewrite (pair_loop_spec check cs). cbv iota beta.
  match goal with
  | |- context [if ?b then _ else _] => destruct b
  end; reflexivity.
Qed.



(** ** Degenerate overlaps (C4) *)

(** [CheckPolySegs] raises no error when fewer than 3 points survive the
    collapse, and leaves the output arrays alone. *)
Lemma CheckPolySegs_few_points (x y : list RealT) (numPoints : Z) (tol : RealT)
    (xnew ynew : list RealT) (n0 : Z) (e : FaceGeomError)
    (px py : list RealT) (n : Z) :
  CheckPolySegs x y numPoints tol xnew ynew n0 = Some (e, px, py, n) ->
  n < 3 ->
  e = NO_FACE_GEOM_ERROR /\ px = xnew /\ py = ynew.
Proof.
  unfold CheckPolySegs. destruct (8 <? numPoints); [discriminate|].
  match goal with
  | |- context [if (?c <? 3) then _ else _] => set (cnt := c)
  end.
  destruct (Z.ltb_spec cnt 3) as [Hlt|Hge].
  - intros [= <- <- <- <-] _. auto.
  - destruct (copy_kept _ _ _ _ _ _ _ _) as [err|[xs ys]];
      intros [= <- <- <- <-] Hn; lia.
Qed.

(** C4.  Once the argument checks are passed and the routine has gone on
    to collect overlap vertices ([findOverlapVertices] yields its
    findings [f]), [Intersection2DPolygon] returns [NO_FACE_GEOM_ERROR]
    with [area = 0] in each case where fewer than 3 overlap vertices are
    left: none were found; at most 2 were gathered; or 3 or more were
    gathered and, after [PolyReorder] and the collapse of edges shorter
    than [lenTol] in [CheckPolySegs], fewer than 3 remain. *)
Theorem Intersection2DPolygon_degenerate_overlap
    (xA yA : list RealT) (numVertexA : Z) (xB yB : list RealT) (numVertexB : Z)
    (posTol lenTol : RealT) (out : Overlap) (orientCheck : bool) (f : Found) :
  findOverlapVertices xA yA numVertexA xB yB numVertexB posTol out orientCheck
    = Some (inr f) ->
  ((numSegInter (inters f) = 0 /\ numVBI f = 0 /\ numVAI f = 0)
   \/ exists tX tY out1,
        gatherOverlapVertices xA yA numVertexA xB yB numVertexB f out
          = Some (inr (tX, tY, out1))
        /\ (numPolyVert out1 <= 2
            \/ exists b rX rY e px py n,
                 PolyReorder tX tY (numPolyVert out1) = Some (b, rX, rY)
                 /\ CheckPolySegs rX rY (numPolyVert out1) lenTol
                      (polyX out1) (polyY out1) 0 = Some (e, px, py, n)
                 /\ n < 3)) ->
  exists r,
    Intersection2DPolygon xA yA numVertexA xB yB numVertexB posTol lenTol
      out orientCheck = Some (NO_FACE_GEOM_ERROR, r)
    /\ area r = 0%float.
Proof.
  intros Hf Hcase. unfold Intersection2DPolygon. rewrite Hf.
  destruct Hcase as [(H1 & H2 & H3) | (tX & tY & out1 & Hg & Hfew)].
  - unfold gatherOverlapVertices. rewrite H1, H2, H3. simpl.
    eexists; split; reflexivity.
  - rewrite Hg. unfold finishOverlap.
    destruct (Z.ltb_spec 2 (numPolyVert out1)) as [Hgt|Hle].
    + destruct Hfew as [Hle | (b & rX & rY & e & px & py & n & Hr & Hc & Hn)];
        [lia|].
      rewrite Hr, Hc.
      destruct (CheckPolySegs_few_points _ _ _ _ _ _ _ _ _ _ _ Hc Hn)
        as (-> & _ & _).
      simpl. destruct (Z.ltb_spec n 3); [|lia].
      eexists; split; reflexivity.
    + eexists; split; reflexivity.
Qed.

(** The unit square against the square [0.5,2] x [0.5,2] with
    [lenTol = 0.75]: four overlap vertices are gathered, every edge of
    the overlap (length 0.5) is collapsed, fewer than 3 remain. *)
Lemma Intersection2DPolygon_degenerate_overlap_witness :
  exists r,
    Intersection2DPolygon Fixtures.unit_square_x Fixtures.unit_square_y 4
      Fixtures.offset_square_x Fixtures.offset_square_y 4
      1e-8%float 0.75%float Fixtures.no_overlap true
    = Some (NO_FACE_GEOM_ERROR, r)
    /\ area r = 0%float.
Proof.
  eapply Intersection2DPolygon_degenerate_overlap.
  - vm_compute. reflexivity.
  - right. do 3 eexists. split.
    + vm_compute. reflexivity.
    + right. do 7 eexists. split; [|split].
      * vm_compute. reflexivity.
      * vm_compute. reflexivity.
      * lia.
Defined.

(** ** Coincident interior vertices (C5) *)

Lemma rdi_upd_same (a : list Z) (i v : Z) :
  0 <= i < Z.of_nat (length a) -> rdi (upd a i v) i = v.
Proof. apply idx_upd_same. Qed.

Lemma rdi_upd_other (a : list Z) (i j v : Z) :
  0 <= j -> i <> j -> rdi (upd a i v) j = rdi a j.
Proof. apply idx_upd_other. Qed.

(** Two predicates that differ at one element of a duplicate-free list:
    the filters differ by that element. *)
Lemma filter_flip_one (p q : Z -> bool) (l : list Z) (j : Z) :
  NoDup l -> In j l -> p j = true -> q j = false ->
  (forall k, In k l -> k <> j -> q k = p k) ->
  length (filter p l) = S (length (filter q l)).
Proof.
  induction l as [|h t IH]; intros Hnd Hin Hp Hq Hsame; [inversion Hin|].
  inversion Hnd as [|? ? Hnotin Hnd']; subst. simpl.
  destruct (Z.eq_dec h j) as [->|Hne].
  - rewrite Hp, Hq. simpl. f_equal.
    assert (E : filter q t = filter p t).
    { apply filter_ext_in. intros k Hk. apply Hsame; [now right|].
      intros ->. contradiction. }
    now rewrite E.
  - rewrite (Hsame h (or_introl eq_refl) Hne).
    assert (Hin' : In j t) by (destruct Hin; [congruence|assumption]).
    assert (IH' := IH Hnd' Hin' Hp Hq
                     (fun k Hk => Hsame k (or_intror Hk))).
    destruct (p h); simpl; now rewrite IH'.
Qed.

Lemma live_upd_dead (ids : list Z) (n j : Z) :
  0 <= j < n -> n <= Z.of_nat (length ids) -> rdi ids j <> -1 ->
  live (upd ids j (-1)) n = live ids n - 1.
Proof.
  intros Hj Hn Hlive. unfold live, interiorIds.
  rewrite (filter_flip_one (fun i => negb (rdi ids i =? -1))
             (fun i => negb (rdi (upd ids j (-1)) i =? -1)) (range n) j).
  - lia.
  - apply range_NoDup.
  - apply in_range_iff; lia.
  - apply negb_true_iff, Z.eqb_neq; assumption.
  - rewrite rdi_upd_same by lia. reflexivity.
  - intros k Hk Hne. apply in_range_iff in Hk.
    rewrite rdi_upd_other by lia. reflexivity.
Qed.

Section Dedup.

Variables xA yA xB yB : list RealT.
Variables numVertexA numVertexB : Z.
Variable interiorA : list Z.

(** What one pass of the inner loop body does to the state. *)
Lemma dedup_inner_step (i j : Z) (ids : list Z) (n : Z) :
  0 <= j < numVertexB -> Z.of_nat (length ids) = numVertexB ->
  let s' := dedup_inner xA yA xB yB i (ids, n) j in
  length (fst s') = length ids
  /\ (forall k, 0 <= k ->
        rdi (fst s') k = rdi ids k
        \/ (k = j /\ rdi (fst s') k = -1 /\ rdi ids k <> -1
            /\ coincident xA yA xB yB i j = true))
  /\ (coincident xA yA xB yB i j = true -> rdi (fst s') j = -1)
  /\ snd s' - live (fst s') numVertexB = n - live ids numVertexB.
Proof.
  intros Hj Hlen. unfold dedup_inner.
  destruct (Z.eqb_spec (rdi ids j) (-1)) as [Hdead|Hlive]; simpl.
  - repeat split; auto.
  - destruct (coincident xA yA xB yB i j) eqn:Hc; simpl.
    + repeat split.
      * apply upd_length.
      * intros k Hk. destruct (Z.eq_dec k j) as [->|Hne].
        -- right. repeat split; auto. apply rdi_upd_same. lia.
        -- left. apply rdi_upd_other; auto.
      * intros _. apply rdi_upd_same. lia.
      * rewrite live_upd_dead by (auto; lia). lia.
    + repeat split; auto. discriminate.
Qed.

Local Abbreviation dedup_inv :=
  (dedup_state_inv xA yA xB yB numVertexA numVertexB interiorA).


Lemma dedup_inner_fold (i : Z) (js : list Z) (s0 s : list Z * Z) :
  0 <= i < numVertexA -> rdi interiorA i <> -1 ->
  Z.of_nat (length (fst s0)) = numVertexB ->
  (forall j, In j js -> 0 <= j < numVertexB) ->
  dedup_inv s0 s ->
  let s' := fold_left (dedup_inner xA yA xB yB i) js s in
  dedup_inv s0 s'
  /\ (forall k, 0 <= k -> rdi (fst s) k = -1 -> rdi (fst s') k = -1)
  /\ (forall j, In j js -> coincident xA yA xB yB i j = true ->
        rdi (fst s') j = -1).
Proof.
  intros Hi Hint Hlen0. revert s.
  induction js as [|j js IH]; intros s Hjs Hinv; simpl.
  - repeat split; try apply Hinv; auto. intros j [].
  - destruct s as [ids n].
    assert (Hj : 0 <= j < numVertexB) by (apply Hjs; now left).
    assert (Hlen : Z.of_nat (length ids) = numVertexB)
      by (destruct Hinv as (Hl & _); simpl in Hl; rewrite Hl; exact Hlen0).
    destruct (dedup_inner_step i j ids n Hj Hlen) as (Sl & Sk & Sc & Sn).
    set (s1 := dedup_inner xA yA xB yB i (ids, n) j) in *.
    assert (Hinv1 : dedup_inv s0 s1).
    { destruct Hinv as (Il & Ik & In_). simpl in Il, Ik, In_.
      repeat split.
      - congruence.
      - intros k Hk. destruct (Sk k Hk) as [E | (-> & E1 & E2 & E3)].
        + rewrite E. apply Ik, Hk.
        + destruct (Ik j Hk) as [E | (E & _)]; [|contradiction].
          right. repeat split; auto; try congruence.
          exists i. auto.
      - lia. }
    destruct (IH s1 (fun j' H => Hjs j' (or_intror H)) Hinv1)
      as (R1 & R2 & R3).
    repeat split; try apply R1.
    + intros k Hk Hdead. apply R2; auto.
      destruct (Sk k Hk) as [E | (_ & E & _)]; [simpl in Hdead|]; congruence.
    + intros j' [<-|Hin] Hc.
      * apply R2; [lia|]. apply Sc, Hc.
      * apply R3; assumption.
Qed.

Lemma dedup_outer_fold (todo : list Z) (s0 s : list Z * Z) :
  Z.of_nat (length (fst s0)) = numVertexB ->
  (forall i, In i todo -> 0 <= i < numVertexA) ->
  dedup_inv s0 s ->
  let s' :=
    fold_left
      (fun (st : list Z * Z) (i : Z) =>
         if negb (rdi interiorA i =? -1)
         then fold_left (dedup_inner xA yA xB yB i) (range numVertexB) st
         else st)
      todo s in
  dedup_inv s0 s'
  /\ (forall k, 0 <= k -> rdi (fst s) k = -1 -> rdi (fst s') k = -1)
  /\ (forall i j, In i todo -> rdi interiorA i <> -1 ->
        0 <= j < numVertexB -> coincident xA yA xB yB i j = true ->
        rdi (fst s') j = -1).
Proof.
  intros Hlen0. revert s.
  induction todo as [|i todo IH]; intros s Htodo Hinv; simpl.
  - repeat split; try apply Hinv; auto. intros i j [].
  - assert (Hi : 0 <= i < numVertexA) by (apply Htodo; now left).
    destruct (Z.eqb_spec (rdi interiorA i) (-1)) as [Hdead|Hlive]; simpl.
    + destruct (IH s (fun i' H => Htodo i' (or_intror H)) Hinv)
        as (R1 & R2 & R3).
      repeat split; try apply R1; auto.
      intros i' j [<-|Hin] Hl Hj Hc; [contradiction|]. eapply R3; eauto.
    + destruct (dedup_inner_fold i (range numVertexB) s0 s Hi Hlive Hlen0
                  (fun j H => proj1 (in_range_iff _ _) H) Hinv)
        as (S1 & S2 & S3).
      set (s1 := fold_left (dedup_inner xA yA xB yB i) (range numVertexB) s)
        in *.
      destruct (IH s1 (fun i' H => Htodo i' (or_intror H)) S1)
        as (R1 & R2 & R3).
      repeat split; try apply R1.
      * intros k Hk Hd. apply R2, S2; auto.
      * intros i' j [<-|Hin] Hl Hj Hc.
        -- apply R2; [lia|]. apply S3; auto. apply in_range_iff; lia.
        -- eapply R3; eauto.
Qed.

End Dedup.




(** What the gather loops put into [polyXTemp], [polyYTemp]: the
    segment intersections, then the vertices of A still marked interior,
    then those of B still marked interior. *)
Lemma append_interior_spec (x y : list RealT) (ids todo : list Z)
    (tX tY tX' tY' : list RealT) :
  append_interior x y ids todo tX tY = Some (inr (tX', tY')) ->
  length tX = length tY ->
  tX' = tX ++ map (rd x) (filter (fun i => negb (rdi ids i =? -1)) todo)
  /\ tY' = tY ++ map (rd y) (filter (fun i => negb (rdi ids i =? -1)) todo)
  /\ length tX' = length tY'.
Proof.
  revert tX tY. induction todo as [|i todo IH]; intros tX tY; simpl.
  - intros [= <- <-] Hl. now rewrite !app_nil_r.
  - destruct (negb (rdi ids i =? -1)); [|apply IH].
    destruct (16 <? Z.of_nat (length tX)); [discriminate|].
    destruct (16 <=? Z.of_nat (length tX)); [discriminate|].
    intros H Hl. apply IH in H; [|rewrite !length_app; simpl; lia].
    simpl. rewrite <- !app_assoc in H. exact H.
Qed.

Lemma gatherOverlapVertices_spec
    (xA yA : list RealT) (numVertexA : Z) (xB yB : list RealT) (numVertexB : Z)
    (f : Found) (out out1 : Overlap) (tX tY : list RealT) :
  gatherOverlapVertices xA yA numVertexA xB yB numVertexB f out
    = Some (inr (tX, tY, out1)) ->
  let hits := filter (fun t : bool * RealT * RealT => fst (fst t)) (inters f) in
  tX = map (fun t : bool * RealT * RealT => snd (fst t)) hits
       ++ map (rd xA) (interiorIds (interiorVAId f) numVertexA)
       ++ map (rd xB) (interiorIds (interiorVBId f) numVertexB)
  /\ tY = map (fun t : bool * RealT * RealT => snd t) hits
          ++ map (rd yA) (interiorIds (interiorVAId f) numVertexA)
          ++ map (rd yB) (interiorIds (interiorVBId f) numVertexB)
  /\ numPolyVert out1 = numSegInter (inters f) + numVAI f + numVBI f.
Proof.
  unfold gatherOverlapVertices.
  destruct ((numSegInter (inters f) =? 0) && (numVBI f =? 0) && (numVAI f =? 0));
    [discriminate|].
  destruct (append_interior xA yA _ _ _ _) as [[e|[aX aY]]|] eqn:EA;
    try discriminate.
  destruct (append_interior xB yB _ _ _ _) as [[e|[bX bY]]|] eqn:EB;
    try discriminate.
  intros [= <- <- <-]. cbv zeta.
  apply append_interior_spec in EA; [|now rewrite !length_map].
  destruct EA as (-> & -> & Hl).
  apply append_interior_spec in EB; [|exact Hl].
  destruct EB as (-> & -> & _).
  unfold interiorIds. rewrite <- !app_assoc. repeat split.
Qed.

(** ** The interior-id arrays inside [findOverlapVertices] *)

Lemma classify_length (xP yP : list RealT) (numVertexP : Z)
    (xQ yQ : list RealT) (xCQ yCQ : RealT) (numVertexQ : Z) :
  length (fst (classify xP yP numVertexP xQ yQ xCQ yCQ numVertexQ))
  = Z.to_nat numVertexP.
Proof.
  unfold classify.
  assert (H : forall (todo : list Z) (s : list Z * Z),
             length (fst (fold_left
               (fun (st : list Z * Z) (i : Z) =>
                  let '(interiorId, num) := st in
                  if Point2DInFace (rd xP i) (rd yP i) xQ yQ xCQ yCQ numVertexQ
                  then (upd interiorId i i, (num + 1)%Z)
                  else st) todo s))
             = length (fst s)).
  { induction todo as [|i todo IH]; intros [ids num]; simpl; [reflexivity|].
    destruct (Point2DInFace _ _ _ _ _ _ _); rewrite IH; simpl;
      auto using upd_length. }
  rewrite H. simpl. unfold initIntArray. apply repeat_length.
Qed.

(** When [findOverlapVertices] goes on to its findings, B's interior-id
    array and interior count are those the coincident-vertex loop leaves
    from the classification of B's vertices, an array with one entry per
    vertex of B; A's array is the classification of A's vertices. *)
Lemma findOverlapVertices_interior
    (xA yA : list RealT) (numVertexA : Z) (xB yB : list RealT) (numVertexB : Z)
    (posTol : RealT) (out : Overlap) (orientCheck : bool) (f : Found) :
  findOverlapVertices xA yA numVertexA xB yB numVertexB posTol out orientCheck
    = Some (inr f) ->
  let cA := snd (VertexAvgCentroid xA yA None numVertexA (0, 0, 0)%float) in
  let cB := snd (VertexAvgCentroid xB yB None numVertexB (0, 0, 0)%float) in
  let inA := classify xA yA numVertexA xB yB (fst (fst cB)) (snd (fst cB))
               numVertexB in
  let inB := classify xB yB numVertexB xA yA (fst (fst cA)) (snd (fst cA))
               numVertexA in
  interiorVAId f = fst inA
  /\ (interiorVBId f, numVBI f)
     = dedupInterior xA yA numVertexA xB yB numVertexB (fst inA) (fst inB)
         (snd inB)
  /\ Z.of_nat (length (fst inB)) = numVertexB.
Proof.
  unfold findOverlapVertices.
  destruct ((numVertexA <? 3) || (numVertexB <? 3)) eqn:E3; [discriminate|].
  destruct (orientCheck && _); [discriminate|].
  destruct ((4 <? numVertexA) || (4 <? numVertexB)); [discriminate|].
  destruct (snd (VertexAvgCentroid xA yA None numVertexA (0, 0, 0)%float))
    as [[xCA yCA] zCA].
  destruct (snd (VertexAvgCentroid xB yB None numVertexB (0, 0, 0)%float))
    as [[xCB yCB] zCB].
  simpl fst; simpl snd.
  pose proof (classify_length xB yB numVertexB xA yA xCA yCA numVertexA) as HL.
  destruct (classify xA yA numVertexA xB yB xCB yCB numVertexB) as [idsA nA].
  destruct (nA =? numVertexA); [discriminate|].
  destruct (classify xB yB numVertexB xA yA xCA yCA numVertexA) as [idsB nB].
  destruct (nB =? numVertexB); [discriminate|].
  simpl fst in *; simpl snd in *.
  destruct (dedupInterior xA yA numVertexA xB yB numVertexB idsA idsB nB)
    as [idsB' nB'].
  destruct (segment_loop _ _ _ _ _ _ _ _ _ _ _) as [[e|hits]|];
    try discriminate.
  intros [= <-]. simpl. repeat split.
  apply orb_false_iff in E3 as [_ E3]. apply Z.ltb_ge in E3. lia.
Qed.

(** ** Reordering of overlap vertices (C7)

    [PolyReorder] decides the order from rounded quantities compared
    without a tolerance: projections on the normal of a candidate first
    edge, then, vertex by vertex, the largest cosine towards the
    vertices not yet placed. *)


Section Reorder.

Variables x y : list RealT.
Variable n : Z.




End Reorder.





(** ** Overlap in both argument orders (C3)

    [Intersection2DPolygon] first checks whether every vertex of A is
    interior to B and returns A if so; only then does it check B in A.
    [Point2DInTri] snaps barycentric coordinates below 1e-12 in
    magnitude to zero, so a vertex just outside a face counts as
    interior to it. *)




(** ** Worked scenarios *)

(** The 2 x 1 rectangle against the 1 x 2 rectangle: the overlap is the
    unit square, and the shared corner (0,0) is one of its four
    vertices, once. *)
Example Intersection2DPolygon_shared_corner :
  Intersection2DPolygon Fixtures.wide_x Fixtures.wide_y 4
    Fixtures.tall_x Fixtures.tall_y 4 1e-8%float 1e-8%float
    Fixtures.no_overlap true
  = Some (NO_FACE_GEOM_ERROR,
          mkOverlap [1; 0; 0; 1]%float [1; 1; 0; 0]%float 4 1%float).
Proof. vm_compute. reflexivity. Qed.

(** Scenario S3 of the specification, in both argument orders: the
    overlap of the unit square and the square [0.25,1.25] x [0.25,1.25]
    is the square of side 0.75, area 0.5625, four vertices. *)
Example Intersection2DPolygon_misaligned_quads :
  let bx := [0.25; 1.25; 1.25; 0.25]%float in
  let by_ := [0.25; 0.25; 1.25; 1.25]%float in
  let expected :=
    Some (NO_FACE_GEOM_ERROR,
          mkOverlap [1; 1; 0.25; 0.25]%float [0.25; 1; 1; 0.25]%float 4
            0.5625%float) in
  Intersection2DPolygon Fixtures.unit_square_x Fixtures.unit_square_y 4
    bx by_ 4 1e-8%float 1e-8%float Fixtures.no_overlap true = expected
  /\ Intersection2DPolygon bx by_ 4
       Fixtures.unit_square_x Fixtures.unit_square_y 4
       1e-8%float 1e-8%float Fixtures.no_overlap true = expected.
Proof. vm_compute. split; reflexivity. Qed.

(** Two squares touching at one corner: a single overlap vertex is
    gathered; the overlap is reported with zero area and no error. *)
Example Intersection2DPolygon_corner_touch :
  Intersection2DPolygon Fixtures.unit_square_x Fixtures.unit_square_y 4
    Fixtures.corner_square_x Fixtures.corner_square_y 4
    1e-8%float 1e-8%float Fixtures.no_overlap true
  = Some (NO_FACE_GEOM_ERROR, mkOverlap [] [] 1 0%float).
Proof. vm_compute. reflexivity. Qed.

(** Two disjoint squares: no overlap vertex is found at all. *)
Example Intersection2DPolygon_disjoint :
  Intersection2DPolygon Fixtures.unit_square_x Fixtures.unit_square_y 4
    [5; 6; 6; 5]%float [5; 5; 6; 6]%float 4
    1e-8%float 1e-8%float Fixtures.no_overlap true
  = Some (NO_FACE_GEOM_ERROR, mkOverlap [] [] 0 0%float).
Proof. vm_compute. reflexivity. Qed.

(** [PolyReorder] on the unit square, given counter-clockwise and given
    with two vertices exchanged. *)
Example PolyReorder_unit_square :
  PolyReorder Fixtures.unit_square_x Fixtures.unit_square_y 4
  = Some (true, Fixtures.unit_square_x, Fixtures.unit_square_y)
  /\ PolyReorder [0; 1; 0; 1]%float [0; 1; 1; 0]%float 4
     = Some (true, Fixtures.unit_square_x, Fixtures.unit_square_y).
Proof. vm_compute. split; reflexivity. Qed.

(** With room for [numVert + 1] coordinates, [Vertex2DOrderToCCW] runs
    to its end and writes [numVert + 1] entries. *)
Example Vertex2DOrderToCCW_with_spare_entry :
  Vertex2DOrderToCCW [0; 1; 0; 7]%float [0; 0; 1; 7]%float
    [9; 9; 9; 9]%float [9; 9; 9; 9]%float 3
  = inr ([0; 7; 0; 1]%float, [0; 7; 1; 0]%float).
Proof. vm_compute. reflexivity. Qed.

(** * Further properties of the geometry routines *)

(** ** The two overloads of [VertexAvgCentroid] *)

Lemma fold_left_ext_in {A B} (f g : A -> B -> A) (l : list B) (a : A) :
  (forall acc b, In b l -> f acc b = g acc b) ->
  fold_left f l a = fold_left g l a.
Proof.
  revert a. induction l as [|b l IH]; intros a H; cbn [fold_left];
    [reflexivity|].
  rewrite H by now left. apply IH. intros acc c Hc. apply H. now right.
Qed.

Lemma rd_map_range (f : Z -> RealT) (n i : Z) :
  0 <= i < n -> rd (map f (range n)) i = f i.
Proof.
  intros H. unfold rd, idx.
  rewrite nth_indep with (d' := f 0)
    by (rewrite length_map, range_length; lia).
  rewrite map_nth. f_equal.
  unfold range. change 0 with (Z.of_nat 0).
  rewrite map_nth, seq_nth by lia. lia.
Qed.

(** X1. The overload of [VertexAvgCentroid] that reads one interleaved
    array returns what the overload for separate arrays returns on the
    components of that array (with a null [z] unless [dim] exceeds 2),
    bit for bit, whatever the dimension and the vertex count: the same
    flag and the same centroid. *)

Theorem VertexAvgCentroid_overloads_agree (x : list RealT) (dim numVert : Z)
    (c : Vec3) :
  VertexAvgCentroid_stacked x dim numVert c
  = VertexAvgCentroid (component x dim numVert 0) (component x dim numVert 1)
      (if 2 <? dim then Some (component x dim numVert 2) else None)
      numVert c.
Proof.
  unfold VertexAvgCentroid_stacked, VertexAvgCentroid.
  destruct (numVert =? 0); [reflexivity|].
  cbv zeta.
  rewrite (fold_left_ext_in
             (fun (acc : Vec3) (i : Z) =>
                let '(cX, cY, cZ) := acc in
                ((cX + rd x (dim * i))%float, (cY + rd x (dim * i + 1))%float,
                 if 2 <? dim then (cZ + rd x (dim * i + 2))%float else cZ))
             (fun (acc : Vec3) (i : Z) =>
                let '(cX, cY, cZ) := acc in
                ((cX + rd (component x dim numVert 0) i)%float,
                 (cY + rd (component x dim numVert 1) i)%float,
                 match (if 2 <? dim then Some (component x dim numVert 2)
                        else None) with
                 | Some zs => (cZ + rd zs i)%float
                 | None => cZ
                 end))); [reflexivity|].
  intros [[cX cY] cZ] i Hi. apply in_range_iff in Hi.
  unfold component. rewrite !rd_map_range by lia.
  rewrite Z.add_0_r.
  destruct (2 <? dim); [rewrite rd_map_range by lia|]; reflexivity.
Qed.

(** ** Signs of lengths and areas

    A sum of absolute values, a sum of squares and a square root have a
    clear sign bit or are NaN, whatever the rounding; such a value is
    never below a tolerance that is zero or negative. *)

Lemma binary_round_aux_sign (prec emax : Z) (s : bool) (m e : Z)
    (l : SpecFloat.location) :
  match SpecFloat.binary_round_aux prec emax s m e l with
  | S754_nan => True
  | S754_zero s' | S754_infinity s' | S754_finite s' _ _ => s' = s
  end.
Proof.
  unfold SpecFloat.binary_round_aux.
  destruct (SpecFloat.shr_fexp prec emax m e l) as [mrs' e'].
  destruct (SpecFloat.shr_fexp prec emax _ e' SpecFloat.loc_Exact)
    as [mrs'' e''].
  destruct (SpecFloat.shr_m mrs''); [reflexivity| |exact I].
  destruct (_ <=? _); reflexivity.
Qed.

Lemma sign_clear_add (a b : float) :
  sign_clear a -> sign_clear b -> sign_clear (a + b).
Proof.
  unfold sign_clear. rewrite add_spec. unfold SF64add, SpecFloat.SFadd.
  destruct (Prim2SF a) as [sa|sa| |sa ma ea];
    destruct (Prim2SF b) as [sb|sb| |sb mb eb]; intros Ha Hb; subst;
    try exact I; try reflexivity.
  cbn [SpecFloat.cond_Zopp]. unfold SpecFloat.binary_normalize.
  cbn [Z.add]. unfold SpecFloat.binary_round.
  destruct (SpecFloat.shl_align _ _ _) as [mz ez].
  apply binary_round_aux_sign.
Qed.

Lemma sign_clear_abs (a : float) : sign_clear (abs a).
Proof.
  unfold sign_clear. rewrite abs_spec. destruct (Prim2SF a); cbn; auto.
Qed.

Lemma sign_clear_square (a : float) : sign_clear (a * a).
Proof.
  unfold sign_clear. rewrite mul_spec. unfold SF64mul, SpecFloat.SFmul.
  destruct (Prim2SF a) as [s|s| |s m e]; try exact I;
    try (now destruct s).
  pose proof (binary_round_aux_sign prec emax (xorb s s)
                (Z.pos (m * m)) (e + e) SpecFloat.loc_Exact) as H.
  destruct (SpecFloat.binary_round_aux _ _ _ _ _ _); auto;
    rewrite H; now destruct s.
Qed.

Lemma sign_clear_sqrt (a : float) : sign_clear a -> sign_clear (sqrt a).
Proof.
  unfold sign_clear. rewrite sqrt_spec. unfold SF64sqrt, SpecFloat.SFsqrt.
  destruct (Prim2SF a) as [s|s| |s m e]; intros H; subst; try exact I;
    try reflexivity.
  destruct (SpecFloat.SFsqrt_core_binary _ _ _ _) as [[mz ez] lz].
  apply binary_round_aux_sign.
Qed.

Lemma sign_clear_div (a b : float) :
  sign_clear a -> sign_clear b -> sign_clear (a / b).
Proof.
  unfold sign_clear. rewrite div_spec. unfold SF64div, SpecFloat.SFdiv.
  destruct (Prim2SF a) as [sa|sa| |sa ma ea];
    destruct (Prim2SF b) as [sb|sb| |sb mb eb]; intros Ha Hb; subst;
    try exact I; try reflexivity.
  destruct (SpecFloat.SFdiv_core_binary _ _ _ _ _ _) as [[mz ez] lz].
  apply (binary_round_aux_sign prec emax (xorb false false)).
Qed.

Lemma sign_clear_magnitude (vx vy : float) : sign_clear (magnitude vx vy).
Proof.
  unfold magnitude. apply sign_clear_sqrt, sign_clear_add;
    apply sign_clear_square.
Qed.

Lemma sign_clear_not_below (a tol : float) :
  sign_clear a -> (tol <=? 0)%float = true -> (a <? tol)%float = false.
Proof.
  unfold sign_clear. rewrite leb_spec, ltb_spec.
  destruct (Prim2SF a) as [sa|sa| |sa ma ea];
    destruct (Prim2SF tol) as [sb|sb| |sb mb eb]; intros Ha Hb; subst;
    try reflexivity; destruct sb; try reflexivity;
    vm_compute in Hb; discriminate.
Qed.

(** X2. [Area2DPolygon] never returns a negative area, for any arrays
    and any vertex count, ordered clockwise or not: the result is +0,
    positive, +infinity or NaN. *)

Theorem Area2DPolygon_not_negative (x y : list RealT) (numPolyVert : Z) :
  (Area2DPolygon x y numPolyVert <? 0)%float = false.
Proof.
  apply sign_clear_not_below; [|reflexivity]. unfold Area2DPolygon.
  destruct (snd (VertexAvgCentroid x y None numPolyVert (0, 0, 0)%float))
    as [[xc yc] zc].
  assert (H : forall l a, sign_clear a ->
            sign_clear
              (fold_left
                 (fun (area : RealT) (i : Z) =>
                    (area + abs (0.5 * (rd x i * (rd y (next_id i numPolyVert) - yc)
                                        + rd x (next_id i numPolyVert)
                                          * (yc - rd y i)
                                        + xc * (rd y i
                                                - rd y (next_id i numPolyVert)))))%float)
                 l a)).
  { induction l as [|i l IH]; intros a Ha; cbn [fold_left]; [exact Ha|].
    apply IH, sign_clear_add; [exact Ha|apply sign_clear_abs]. }
  apply H. reflexivity.
Qed.

(** ** [SegmentIntersection2D] *)

Lemma closest_fold_pick (x y : RealT) (vs : list (Z * RealT * RealT))
    (d d' : RealT) (o : option (Z * RealT * RealT)) (v : Z * RealT * RealT) :
  fold_left (closest_step x y) vs (d, o) = (d', Some v) ->
  o = Some v \/ In v vs.
Proof.
  revert d o. induction vs as [|[[i xv] yv] vs IH]; intros d o; cbn [fold_left].
  - intros [= _ ->]. now left.
  - unfold closest_step at 2.
    destruct (_ <? _)%float; intros H; apply IH in H.
    + destruct H as [[= <-]|H]; right; [now left|now right].
    + destruct H; [now left|right; now right].
Qed.

Lemma closest_fold_sign (x y : RealT) (vs : list (Z * RealT * RealT))
    (d : RealT) (o : option (Z * RealT * RealT)) :
  sign_clear d -> sign_clear (fst (fold_left (closest_step x y) vs (d, o))).
Proof.
  revert d o. induction vs as [|[[i xv] yv] vs IH]; intros d o Hd;
    cbn [fold_left]; [exact Hd|].
  unfold closest_step at 2.
  destruct (_ <? _)%float; apply IH; [apply sign_clear_magnitude|exact Hd].
Qed.

(** X3. What [SegmentIntersection2D] hands back.  It never reports both
    an intersection and a duplicate.  A duplicate comes with one of the
    four end points of the segments as the point, and, when interior
    flags are given, with an end point flagged interior.  Without
    intersection and duplicate the point is (0,0). *)

Theorem SegmentIntersection2D_outcomes
    (xA1 yA1 xB1 yB1 xA2 yA2 xB2 yB2 : RealT)
    (interior : option (list bool)) (tol : RealT)
    (hit : bool) (x y : RealT) (duplicate : bool) :
  SegmentIntersection2D xA1 yA1 xB1 yB1 xA2 yA2 xB2 yB2 interior tol
  = Some (hit, x, y, duplicate) ->
  match hit, duplicate with
  | true, true => False
  | true, false => True
  | false, true =>
      exists i,
        0 <= i < 4
        /\ idx (x, y) [(xA1, yA1); (xB1, yB1); (xA2, yA2); (xB2, yB2)] i = (x, y)
        /\ match interior with
           | None => True
           | Some flags => idx false flags i = true
           end
  | false, false => x = 0%float /\ y = 0%float
  end.
Proof.
  unfold SegmentIntersection2D. cbv zeta.
  destruct (_ && _); [intros [= <- <- <- <-]; now split|].
  destruct (_ || _); [intros [= <- <- <- <-]; now split|].
  destruct (fold_left _ _ _) as [dmin [[[idMin xMin] yMin]|]] eqn:Ef;
    [|discriminate].
  apply closest_fold_pick in Ef as [Ef|Ef]; [discriminate|].
  destruct (_ && _) eqn:Ec; intros [= <- <- <- <-]; [|exact I].
  apply andb_true_iff in Ec as [_ Ec].
  exists idMin. cbn [In] in Ef.
  destruct Ef as [[= <- <- <-]|[[= <- <- <-]|[[= <- <- <-]|[[= <- <- <-]|[]]]]];
    (split; [lia|split; [reflexivity|destruct interior; [exact Ec|exact I]]]).
Qed.

Lemma SegmentIntersection2D_outcomes_witness :
  exists i,
    0 <= i < 4
    /\ idx (1, 0)%float [(0, 0); (1, 0); (1, 0); (1, 1)]%float i = (1, 0)%float
    /\ idx false [true; true; true; true] i = true.
Proof.
  apply (SegmentIntersection2D_outcomes 0 0 1 0 1 0 1 1
           (Some [true; true; true; true]) 1e-8 false 1 0 true)%float.
  vm_compute. reflexivity.
Defined.

(** X4. With a position tolerance that is zero or negative,
    [SegmentIntersection2D] never reports a duplicate: no distance is
    below the tolerance. *)

Theorem SegmentIntersection2D_without_tolerance
    (xA1 yA1 xB1 yB1 xA2 yA2 xB2 yB2 : RealT)
    (interior : option (list bool)) (tol : RealT)
    (hit : bool) (x y : RealT) (duplicate : bool) :
  (tol <=? 0)%float = true ->
  SegmentIntersection2D xA1 yA1 xB1 yB1 xA2 yA2 xB2 yB2 interior tol
  = Some (hit, x, y, duplicate) ->
  duplicate = false.
Proof.
  intros Ht. unfold SegmentIntersection2D. cbv zeta.
  destruct (_ && _); [now intros [= _ _ _ <-]|].
  destruct (_ || _); [now intros [= _ _ _ <-]|].
  match goal with
  | |- context [fold_left (closest_step ?px ?py) ?vs (?d0, None)] =>
      pose proof (closest_fold_sign px py vs d0 None) as Hs;
      destruct (fold_left (closest_step px py) vs (d0, None))
        as [dmin [[[idMin xMin] yMin]|]]
  end; [|discriminate].
  cbn [fst] in Hs.
  assert (Hd : sign_clear dmin).
  { apply Hs. destruct (_ <? _)%float; apply sign_clear_magnitude. }
  match goal with
  | |- context [((if ?c then ?a else ?b) <? tol)%float] =>
      assert (E : ((if c then a else b) <? tol)%float = false)
  end.
  { apply sign_clear_not_below; [|assumption].
    destruct (_ || _); apply sign_clear_div; auto using sign_clear_magnitude. }
  rewrite E. cbn [andb]. now intros [= _ _ _ <-].
Qed.

Lemma SegmentIntersection2D_without_tolerance_witness : false = false.
Proof.
  apply (SegmentIntersection2D_without_tolerance 0 0 1 0 1 0 1 1 None 0
           true 1 0 false)%float.
  - reflexivity.
  - vm_compute. reflexivity.
Defined.

(** ** [CheckPolySegs] *)

Lemma count_fold (p : Z -> bool) (l : list Z) (a : Z) :
  fold_left (fun (n : Z) (i : Z) => if p i then n + 1 else n) l a
  = a + Z.of_nat (length (filter p l)).
Proof.
  revert a. induction l as [|i l IH]; intros a; cbn [fold_left filter].
  - simpl. lia.
  - rewrite IH. destruct (p i); cbn [length]; lia.
Qed.

Lemma copy_kept_spec (x y : list RealT) (newIDs : list Z) (N : Z)
    (todo : list Z) (k : Z) (accx accy : list RealT) :
  k + Z.of_nat (length (filter (kept newIDs) todo)) <= N ->
  copy_kept x y newIDs N todo k accx accy
  = inr (accx ++ map (rd x) (filter (kept newIDs) todo),
         accy ++ map (rd y) (filter (kept newIDs) todo)).
Proof.
  revert k accx accy.
  induction todo as [|i todo IH]; intros k accx accy H; cbn [copy_kept filter].
  - cbn [map]. now rewrite !app_nil_r.
  - cbn [filter] in H. destruct (kept newIDs i).
    + cbn [length] in H. destruct (Z.ltb_spec N k); [lia|].
      rewrite IH by lia. cbn [map]. now rewrite <- !app_assoc.
    + now apply IH.
Qed.

Lemma next_prev (j n : Z) : 0 <= j < n -> next_id (prev_id j n) n = j.
Proof.
  intros H. unfold next_id, prev_id.
  destruct (Z.eqb_spec j 0).
  - rewrite Z.eqb_refl. lia.
  - destruct (Z.eqb_spec (j - 1) (n - 1)); lia.
Qed.

Lemma next_id_inj (i i' n : Z) :
  0 <= i < n -> 0 <= i' < n -> next_id i n = next_id i' n -> i = i'.
Proof.
  unfold next_id. intros H H'.
  destruct (Z.eqb_spec i (n - 1)), (Z.eqb_spec i' (n - 1)); lia.
Qed.

Lemma next_id_range (i n : Z) : 0 <= i < n -> 0 <= next_id i n < n.
Proof. unfold next_id. intros H. destruct (Z.eqb_spec i (n - 1)); lia. Qed.

Lemma collapse_fold (x y : list RealT) (n : Z) (tol : RealT)
    (l : list Z) (ids : list Z) (j : Z) :
  Z.of_nat (length ids) = n -> 0 <= j < n ->
  (forall i, In i l -> 0 <= i < n) ->
  rdi (fold_left (collapse_step x y n tol) l ids) j
  = if existsb (fun i => (next_id i n =? j) && short_edge x y n tol i) l
    then prev_id j n else rdi ids j.
Proof.
  intros Hlen Hj. revert ids Hlen.
  induction l as [|i l IH]; intros ids Hlen Hl; cbn [fold_left existsb];
    [reflexivity|].
  assert (Hi : 0 <= i < n) by (apply Hl; now left).
  rewrite IH; [| |intros k Hk; apply Hl; now right].
  - unfold collapse_step at 1. fold (short_edge x y n tol i).
    destruct (existsb _ l) eqn:E; [now rewrite orb_true_r|].
    rewrite orb_false_r.
    destruct (short_edge x y n tol i); [|now rewrite andb_false_r].
    rewrite andb_true_r. unfold rdi.
    destruct (Z.eqb_spec (next_id i n) j) as [<-|Hne].
    + rewrite idx_upd_same by (rewrite Hlen; now apply next_id_range).
      symmetry. apply (next_id_inj _ _ n); auto.
      * unfold prev_id. pose proof (next_id_range i n Hi).
        destruct (Z.eqb_spec (next_id i n) 0); lia.
      * apply next_prev. now apply next_id_range.
    + now rewrite idx_upd_other by lia.
  - unfold collapse_step. destruct (_ <? _)%float; [|assumption].
    now rewrite upd_length.
Qed.

Lemma kept_after_collapse (x y : list RealT) (n : Z) (tol : RealT) (j : Z) :
  2 <= n -> 0 <= j < n ->
  kept (fold_left (collapse_step x y n tol) (range n) (range n)) j
  = negb (short_edge x y n tol (prev_id j n)).
Proof.
  intros Hn Hj. unfold kept.
  rewrite (collapse_fold x y n tol (range n) (range n) j);
    [| rewrite range_length; lia | assumption
     | intros i Hi; now apply in_range_iff in Hi].
  assert (Hp : 0 <= prev_id j n < n)
    by (unfold prev_id; destruct (Z.eqb_spec j 0); lia).
  destruct (short_edge x y n tol (prev_id j n)) eqn:Es.
  - replace (existsb _ (range n)) with true.
    + cbn [negb]. apply Z.eqb_neq. unfold prev_id.
      destruct (Z.eqb_spec j 0); lia.
    + symmetry. apply existsb_exists. exists (prev_id j n). split.
      * now apply in_range_iff.
      * rewrite Es, andb_true_r. apply Z.eqb_eq. now apply next_prev.
  - replace (existsb _ (range n)) with false.
    + rewrite rdi_range by lia. cbn [negb]. apply Z.eqb_refl.
    + symmetry. apply not_true_iff_false. intros E.
      apply existsb_exists in E as (i & Hi & E).
      apply in_range_iff in Hi.
      apply andb_true_iff in E as (E1 & E2). apply Z.eqb_eq in E1.
      assert (i = prev_id j n).
      { apply (next_id_inj _ _ n); auto. rewrite E1. symmetry.
        now apply next_prev. }
      subst i. congruence.
Qed.

Lemma CheckPolySegs_tag (x y : list RealT) (numPoints : Z) (tol : RealT)
    (xnew ynew : list RealT) (n0 : Z) (e : FaceGeomError)
    (xn yn : list RealT) (n : Z) :
  CheckPolySegs x y numPoints tol xnew ynew n0 = Some (e, xn, yn, n) ->
  e = NO_FACE_GEOM_ERROR.
Proof.
  unfold CheckPolySegs. destruct (8 <? numPoints); [discriminate|].
  cbv zeta. rewrite count_fold, Z.add_0_l.
  destruct (_ <? 3); [now intros [= <- _ _ _]|].
  rewrite copy_kept_spec by lia. now intros [= <- _ _ _].
Qed.

Lemma CheckPolySegs_count (x y : list RealT) (numPoints : Z) (tol : RealT)
    (xnew ynew : list RealT) (n0 : Z) (e : FaceGeomError)
    (xn yn : list RealT) (n : Z) :
  CheckPolySegs x y numPoints tol xnew ynew n0 = Some (e, xn, yn, n) ->
  0 <= n <= 8.
Proof.
  unfold CheckPolySegs. destruct (Z.ltb_spec 8 numPoints); [discriminate|].
  cbv zeta. rewrite count_fold, Z.add_0_l.
  pose proof (filter_length_le
                (kept (fold_left (collapse_step x y numPoints tol)
                         (range numPoints) (range numPoints)))
                (range numPoints)) as Hle.
  rewrite range_length in Hle.
  destruct (_ <? 3); [intros [= _ _ _ <-]; lia|].
  rewrite copy_kept_spec by lia. intros [= _ _ _ <-]. lia.
Qed.

(** X5. [CheckPolySegs] on 2 to 8 vertices drops exactly the vertices
    that end an edge shorter than the tolerance (vertex [j] goes when
    the edge from its predecessor is short) and keeps the others in
    their order.  With fewer than 3 vertices left, the output arrays are
    not written; the count is returned in every case and the error tag
    is always [NO_FACE_GEOM_ERROR]. *)

Theorem CheckPolySegs_drops_ends_of_short_edges (x y : list RealT)
    (numPoints : Z) (tol : RealT) (xnew ynew : list RealT) (n0 : Z) :
  2 <= numPoints <= 8 ->
  let ids := filter (fun j => negb (short_edge x y numPoints tol
                                      (prev_id j numPoints)))
               (range numPoints) in
  let numNewPoints := Z.of_nat (length ids) in
  CheckPolySegs x y numPoints tol xnew ynew n0
  = Some (NO_FACE_GEOM_ERROR,
          (if numNewPoints <? 3 then xnew else fill xnew (map (rd x) ids)),
          (if numNewPoints <? 3 then ynew else fill ynew (map (rd y) ids)),
          numNewPoints).
Proof.
  intros Hn ids numNewPoints. subst ids numNewPoints.
  unfold CheckPolySegs. destruct (Z.ltb_spec 8 numPoints); [lia|].
  set (newIDs := fold_left (collapse_step x y numPoints tol)
                   (range numPoints) (range numPoints)).
  cbv zeta. rewrite count_fold, Z.add_0_l.
  assert (E : filter (kept newIDs) (range numPoints)
              = filter (fun j => negb (short_edge x y numPoints tol
                                         (prev_id j numPoints)))
                  (range numPoints)).
  { apply filter_ext_in. intros j Hj. apply in_range_iff in Hj.
    apply kept_after_collapse; lia. }
  rewrite <- E.
  destruct (Z.ltb_spec (Z.of_nat (length (filter (kept newIDs) (range numPoints)))) 3);
    [reflexivity|].
  rewrite copy_kept_spec by lia. reflexivity.
Qed.

(** Vertex 2 of the pentagon ends the short edge and is dropped. *)
Lemma CheckPolySegs_drops_ends_of_short_edges_witness :
  CheckPolySegs Samples.stub_x Samples.stub_y 5 1e-8%float
    Samples.buffer Samples.buffer 0
  = Some (NO_FACE_GEOM_ERROR,
          fill Samples.buffer (map (rd Samples.stub_x) [0; 1; 3; 4]),
          fill Samples.buffer (map (rd Samples.stub_y) [0; 1; 3; 4]), 4).
Proof.
  apply (CheckPolySegs_drops_ends_of_short_edges Samples.stub_x Samples.stub_y
           5 1e-8%float Samples.buffer Samples.buffer 0).
  lia.
Defined.

(** X6. With a length tolerance that is zero or negative, [CheckPolySegs]
    keeps every vertex of a polygon of 3 to 8 vertices, coincident
    vertices included. *)

Theorem CheckPolySegs_without_tolerance (x y : list RealT) (numPoints : Z)
    (tol : RealT) (xnew ynew : list RealT) (n0 : Z) :
  3 <= numPoints <= 8 -> (tol <=? 0)%float = true ->
  CheckPolySegs x y numPoints tol xnew ynew n0
  = Some (NO_FACE_GEOM_ERROR,
          fill xnew (map (rd x) (range numPoints)),
          fill ynew (map (rd y) (range numPoints)), numPoints).
Proof.
  intros Hn Ht. unfold CheckPolySegs.
  destruct (Z.ltb_spec 8 numPoints); [lia|].
  set (newIDs := fold_left (collapse_step x y numPoints tol)
                   (range numPoints) (range numPoints)).
  cbv zeta. rewrite count_fold, Z.add_0_l.
  assert (E : filter (kept newIDs) (range numPoints) = range numPoints).
  { rewrite <- (filter_ext_in (fun _ => true)).
    - clear. induction (range numPoints) as [|i l IH]; cbn; congruence.
    - intros j Hj. apply in_range_iff in Hj. symmetry.
      subst newIDs. rewrite kept_after_collapse by lia.
      unfold short_edge. now rewrite sign_clear_not_below
        by (assumption || apply sign_clear_magnitude). }
  rewrite E, range_length.
  destruct (Z.ltb_spec (Z.of_nat (Z.to_nat numPoints)) 3); [lia|].
  rewrite copy_kept_spec by (rewrite E, range_length; lia).
  rewrite E. cbn [app]. now rewrite Z2Nat.id by lia.
Qed.

Lemma CheckPolySegs_without_tolerance_witness :
  CheckPolySegs Samples.stub_x Samples.stub_y 5 0%float
    Samples.buffer Samples.buffer 0
  = Some (NO_FACE_GEOM_ERROR,
          fill Samples.buffer (map (rd Samples.stub_x) (range 5)),
          fill Samples.buffer (map (rd Samples.stub_y) (range 5)), 5).
Proof.
  apply (CheckPolySegs_without_tolerance Samples.stub_x Samples.stub_y
           5 0%float Samples.buffer Samples.buffer 0).
  - lia.
  - reflexivity.
Defined.

(** ** [PolyReorder] *)

Lemma id_array_range (n : Z) : 0 < n -> id_array n (range n).
Proof.
  intros Hn. repeat split.
  - rewrite range_length. lia.
  - rewrite rdi_range; lia.
  - rewrite rdi_range; lia.
  - intros i j Hi Hj. now rewrite !rdi_range by lia.
  - now rewrite rdi_range by lia.
Qed.

Lemma rdi_swap (ids : list Z) (a b k : Z) :
  0 <= a < Z.of_nat (length ids) -> 0 <= b < Z.of_nat (length ids) -> 0 <= k ->
  rdi (upd (upd ids a (rdi ids b)) b (rdi ids a)) k
  = if k =? b then rdi ids a else if k =? a then rdi ids b else rdi ids k.
Proof.
  intros Ha Hb Hk. unfold rdi.
  destruct (Z.eqb_spec k b) as [->|Hkb].
  - now rewrite idx_upd_same by (rewrite upd_length; lia).
  - rewrite idx_upd_other by lia.
    destruct (Z.eqb_spec k a) as [->|Hka].
    + now rewrite idx_upd_same by lia.
    + now rewrite idx_upd_other by lia.
Qed.

Lemma id_array_swap (n : Z) (ids : list Z) (a b : Z) :
  id_array n ids -> 1 <= a < n -> 1 <= b < n ->
  id_array n (upd (upd ids a (rdi ids b)) b (rdi ids a)).
Proof.
  intros (Hlen & Hr & Hinj & H0) Ha Hb.
  assert (Hsw : forall k, 0 <= k ->
            rdi (upd (upd ids a (rdi ids b)) b (rdi ids a)) k
            = if k =? b then rdi ids a else if k =? a then rdi ids b
              else rdi ids k)
    by (intros k Hk; apply rdi_swap; lia).
  repeat split.
  - now rewrite !upd_length.
  - rewrite Hsw by lia.
    destruct (k =? b); [apply Hr; lia|]. destruct (k =? a); apply Hr; lia.
  - rewrite Hsw by lia.
    destruct (k =? b); [apply Hr; lia|]. destruct (k =? a); apply Hr; lia.
  - intros i j Hi Hj. rewrite !Hsw by lia.
    destruct (Z.eqb_spec i b), (Z.eqb_spec i a), (Z.eqb_spec j b),
      (Z.eqb_spec j a); subst; intros E; try lia;
      apply Hinj in E; lia.
  - rewrite Hsw by lia.
    destruct (Z.eqb_spec 0 b); [lia|]. destruct (Z.eqb_spec 0 a); [lia|].
    assumption.
Qed.

Lemma find_id1_range (x y : list RealT) (n : Z) (xC yC : RealT) (id0 : Z)
    (js : list Z) :
  find_id1 x y n xC yC id0 js = -1 \/ In (find_id1 x y n xC yC id0 js) js.
Proof.
  induction js as [|j js IH]; cbn [find_id1]; [now left|].
  cbv zeta. destruct (side_scan _ false false) as [neg pos].
  destruct (negb neg || negb pos).
  - destruct (_ <? _)%float; [right; now left|].
    destruct IH; [now left|right; now right].
  - destruct IH; [now left|right; now right].
Qed.

Lemma link_fold_range (x y : list RealT) (ids : list Z) (i : Z)
    (refx refy refMag : RealT) (js : list Z) (c c' : RealT) (o : option Z)
    (j : Z) :
  fold_left (link_step x y ids i refx refy refMag) js (c, o) = (c', Some j) ->
  o = Some j \/ In j js.
Proof.
  revert c o. induction js as [|k js IH]; intros c o; cbn [fold_left].
  - intros [= _ ->]. now left.
  - unfold link_step at 2. cbv zeta.
    destruct (_ <? _)%float; intros H; apply IH in H.
    + destruct H as [[= ->]|H]; right; [now left|now right].
    + destruct H; [now left|right; now right].
Qed.

Lemma order_loop_id_array (x y : list RealT) (n : Z) (todo : list Z)
    (ids ids' : list Z) :
  (forall i, In i todo -> 0 <= i < n - 2) ->
  id_array n ids ->
  order_loop x y n ids todo = Some ids' ->
  id_array n ids'.
Proof.
  revert ids. induction todo as [|i todo IH]; intros ids Ht Hinv;
    cbn [order_loop]; [now intros [= <-]|].
  cbv zeta.
  destruct (fold_left _ _ _) as [c [jID|]] eqn:Ef; [|discriminate].
  apply link_fold_range in Ef as [Ef|Ef]; [discriminate|].
  apply in_map_iff in Ef as (t & <- & Ht'). apply in_range_iff in Ht'.
  assert (Hi : 0 <= i < n - 2) by (apply Ht; now left).
  apply IH.
  - intros k Hk. apply Ht. now right.
  - apply id_array_swap; [assumption|lia|lia].
Qed.

Lemma nth_range (n : Z) (m : nat) :
  (m < Z.to_nat n)%nat -> nth m (range n) 0 = Z.of_nat m.
Proof.
  intros H. unfold range. change 0 with (Z.of_nat 0).
  rewrite map_nth, seq_nth by assumption. reflexivity.
Qed.

Lemma map_rdi_range (ids : list Z) :
  map (rdi ids) (range (Z.of_nat (length ids))) = ids.
Proof.
  apply nth_ext with (d := rdi ids 0) (d' := 0).
  - now rewrite length_map, range_length, Nat2Z.id.
  - intros m Hm. rewrite length_map, range_length, Nat2Z.id in Hm.
    rewrite map_nth, nth_range by (rewrite Nat2Z.id; assumption).
    unfold rdi, idx. now rewrite Nat2Z.id.
Qed.

Lemma id_array_Permutation (n : Z) (ids : list Z) :
  id_array n ids -> Permutation ids (range n).
Proof.
  intros (Hlen & Hr & Hinj & _).
  apply NoDup_Permutation_bis.
  - apply (proj2 (NoDup_nth ids 0)). intros i j Hi Hj E.
    assert (Z.of_nat i = Z.of_nat j); [|lia].
    apply Hinj; [lia|lia|]. unfold rdi, idx. now rewrite !Nat2Z.id.
  - rewrite range_length. lia.
  - intros v Hv. apply (In_nth _ _ 0) in Hv as (m & Hm & <-).
    apply in_range_iff.
    specialize (Hr (Z.of_nat m)). unfold rdi, idx in Hr.
    rewrite Nat2Z.id in Hr. apply Hr. lia.
Qed.

(** X7. When [PolyReorder] returns, its output is a rearrangement of the
    input vertices: every input vertex appears once, x and y move
    together, and vertex 0 stays first.  The flag is true exactly for 3
    or more vertices; with fewer the arrays are returned as given. *)

Theorem PolyReorder_permutes (x y : list RealT) (numPoints : Z)
    (b : bool) (x' y' : list RealT) :
  Z.of_nat (length x) = numPoints -> Z.of_nat (length y) = numPoints ->
  PolyReorder x y numPoints = Some (b, x', y') ->
  b = negb (numPoints <? 3)
  /\ exists ids,
       Permutation ids (range numPoints)
       /\ (0 < numPoints -> rdi ids 0 = 0)
       /\ x' = map (rd x) ids /\ y' = map (rd y) ids.
Proof.
  intros Hx Hy. unfold PolyReorder.
  destruct (Z.ltb_spec numPoints 3).
  { intros [= <- <- <-]. split; [reflexivity|]. exists (range numPoints).
    split; [reflexivity|]. split; [intros; apply rdi_range; lia|].
    split; [rewrite <- Hx|rewrite <- Hy]; symmetry; apply map_rd_range. }
  destruct (16 <? numPoints); [discriminate|].
  destruct (snd (VertexAvgCentroid x y None numPoints (0, 0, 0)%float))
    as [[xC yC] zC].
  rewrite (upd_range_keeps numPoints 0) by lia.
  set (id1 := find_id1 _ _ _ _ _ _ _).
  destruct (order_loop _ _ _ _ _) as [ids|] eqn:Eo; [|discriminate].
  intros [= <- <- <-]. split; [reflexivity|].
  assert (Hinv : id_array numPoints ids).
  { apply (order_loop_id_array x y numPoints (range (numPoints - 3)) _ ids)
      in Eo; [assumption| |].
    - intros i Hi. apply in_range_iff in Hi. lia.
    - destruct (Z.eqb_spec id1 (-1)); cbn [negb];
        [apply id_array_range; lia|].
      destruct (find_id1_range x y numPoints xC yC 0
                  (map (fun t => 1 + t) (range (numPoints - 1)))) as [E|E];
        [contradiction|].
      fold id1 in E. apply in_map_iff in E as (t & Et & Ht).
      apply in_range_iff in Ht.
      replace (upd (upd (range numPoints) 1 id1) id1 1)
        with (upd (upd (range numPoints) 1 (rdi (range numPoints) id1)) id1
                (rdi (range numPoints) 1))
        by (rewrite !rdi_range by lia; reflexivity).
      apply id_array_swap; [apply id_array_range; lia|lia|lia]. }
  exists ids. split; [now apply id_array_Permutation|].
  split; [intros _; apply Hinv|].
  destruct Hinv as (Hlen & _).
  assert (E : forall v : list RealT, Z.of_nat (length v) = numPoints ->
            fill v (map (fun i => rd v (rdi ids i)) (range numPoints))
            = map (rd v) ids).
  { intros v Hv. unfold fill.
    rewrite length_map, range_length.
    replace (Z.to_nat numPoints) with (length v) by lia.
    rewrite skipn_all, app_nil_r.
    rewrite <- (map_map (rdi ids) (rd v)). rewrite <- Hlen at 1.
    now rewrite map_rdi_range. }
  now rewrite !E.
Qed.

(** The corners of the unit square given crosswise. *)
Lemma PolyReorder_permutes_witness :
  true = negb (4 <? 3)
  /\ exists ids,
       Permutation ids (range 4)
       /\ (0 < 4 -> rdi ids 0 = 0)
       /\ [0; 1; 1; 0]%float = map (rd [0; 1; 0; 1]%float) ids
       /\ [0; 0; 1; 1]%float = map (rd [0; 1; 1; 0]%float) ids.
Proof.
  apply (PolyReorder_permutes [0; 1; 0; 1]%float [0; 1; 1; 0]%float 4).
  - reflexivity.
  - reflexivity.
  - vm_compute. reflexivity.
Defined.

(** ** [Intersection2DPolygon] *)

Lemma segment_loop_tag (xA yA : list RealT) (numVertexA : Z)
    (xB yB : list RealT) (numVertexB : Z) (idA idB : list Z) (posTol : RealT)
    (pairs : list (Z * Z)) (inters : list (bool * RealT * RealT))
    (e : FaceGeomError) :
  (length inters + length pairs <= 16)%nat ->
  segment_loop xA yA numVertexA xB yB numVertexB idA idB posTol pairs inters
  <> Some (inl e).
Proof.
  revert inters. induction pairs as [|[ia jb] pairs IH]; intros inters H;
    cbn [segment_loop]; [discriminate|].
  cbn [length] in H. cbv zeta.
  destruct (Z.leb_spec 16 (Z.of_nat (length inters))); [lia|].
  destruct (SegmentIntersection2D _ _ _ _ _ _ _ _ _ _) as [[[[hit x] y] d]|];
    [|discriminate].
  apply IH. rewrite length_app. cbn [length]. lia.
Qed.

Lemma segment_loop_length (xA yA : list RealT) (numVertexA : Z)
    (xB yB : list RealT) (numVertexB : Z) (idA idB : list Z) (posTol : RealT)
    (pairs : list (Z * Z)) (inters out : list (bool * RealT * RealT)) :
  segment_loop xA yA numVertexA xB yB numVertexB idA idB posTol pairs inters
  = Some (inr out) ->
  length out = (length inters + length pairs)%nat.
Proof.
  revert inters. induction pairs as [|[ia jb] pairs IH]; intros inters;
    cbn [segment_loop].
  - intros [= <-]. cbn [length]. lia.
  - cbv zeta. destruct (16 <=? _); [discriminate|].
    destruct (SegmentIntersection2D _ _ _ _ _ _ _ _ _ _) as [[[[hit x] y] d]|];
      [|discriminate].
    intros H. apply IH in H. rewrite length_app in H. cbn [length] in *. lia.
Qed.

Lemma append_interior_tag (x y : list RealT) (ids todo : list Z)
    (tX tY : list RealT) :
  (length tX <= 16)%nat ->
  match append_interior x y ids todo tX tY with
  | Some (inl _) => False
  | Some (inr (tX', _)) => (length tX' <= 16)%nat
  | None => True
  end.
Proof.
  revert tX tY. induction todo as [|i todo IH]; intros tX tY H;
    cbn [append_interior]; [assumption|].
  destruct (negb _); [|now apply IH].
  cbv zeta. destruct (Z.ltb_spec 16 (Z.of_nat (length tX))); [lia|].
  destruct (Z.leb_spec 16 (Z.of_nat (length tX))); [exact I|].
  apply IH. rewrite length_app. cbn [length]. lia.
Qed.

Lemma list_prod_range_length (a b : Z) :
  a <= 4 -> b <= 4 -> (length (list_prod (range a) (range b)) <= 16)%nat.
Proof.
  intros Ha Hb. rewrite length_prod, !range_length. nia.
Qed.

Lemma findOverlapVertices_cases
    (xA yA : list RealT) (numVertexA : Z) (xB yB : list RealT) (numVertexB : Z)
    (posTol : RealT) (out : Overlap) (orientCheck : bool)
    (r : FaceGeomError * Overlap + Found) :
  findOverlapVertices xA yA numVertexA xB yB numVertexB posTol out orientCheck
  = Some r ->
  match r with
  | inl (e, o) =>
      (e = INVALID_FACE_INPUT /\ (numVertexA < 3 \/ numVertexB < 3)
       /\ o = set_area out 0%float)
      \/ (e = FACE_ORIENTATION /\ o = out)
      \/ (e = NO_FACE_GEOM_ERROR /\ 3 <= numPolyVert o <= 4
          /\ area o = Area2DPolygon (polyX o) (polyY o) (numPolyVert o))
  | inr f => (length (inters f) <= 16)%nat
  end.
Proof.
  unfold findOverlapVertices.
  destruct (_ || _) eqn:E3.
  { intros [= <-]. left. apply orb_true_iff in E3.
    split; [reflexivity|]. split; [|reflexivity].
    destruct E3 as [E3|E3]; apply Z.ltb_lt in E3; lia. }
  apply orb_false_iff in E3 as [E3a E3b]. apply Z.ltb_ge in E3a, E3b.
  destruct (orientCheck && _); [intros [= <-]; right; left; now split|].
  destruct (Z.ltb_spec 4 numVertexA); [discriminate|].
  destruct (Z.ltb_spec 4 numVertexB); [discriminate|]. cbn [orb].
  destruct (snd (VertexAvgCentroid xA _ _ _ _)) as [[xCA yCA] zCA].
  destruct (snd (VertexAvgCentroid xB _ _ _ _)) as [[xCB yCB] zCB].
  destruct (classify xA _ _ _ _ _ _ _) as [idA nA].
  destruct (nA =? numVertexA).
  { intros [= <-]. right. right. cbn. repeat split; lia. }
  destruct (classify xB _ _ _ _ _ _ _) as [idB nB].
  destruct (nB =? numVertexB).
  { intros [= <-]. right. right. cbn. repeat split; lia. }
  destruct (dedupInterior _ _ _ _ _ _ _ _ _) as [idB' nB'].
  destruct (segment_loop _ _ _ _ _ _ _ _ _ _ _) as [[e'|found]|] eqn:Es;
    [|intros [= <-]|discriminate].
  - exfalso. revert Es. apply segment_loop_tag. cbn [length].
    now apply list_prod_range_length.
  - cbn [Geom.inters]. apply segment_loop_length in Es. rewrite Es.
    cbn [length]. now apply list_prod_range_length.
Qed.

Lemma gatherOverlapVertices_early
    (xA yA : list RealT) (numVertexA : Z) (xB yB : list RealT) (numVertexB : Z)
    (f : Found) (out : Overlap) (e : FaceGeomError) (o : Overlap) :
  (length (inters f) <= 16)%nat ->
  gatherOverlapVertices xA yA numVertexA xB yB numVertexB f out
  = Some (inl (e, o)) ->
  e = NO_FACE_GEOM_ERROR /\ o = set_area out 0%float.
Proof.
  intros Hlen. unfold gatherOverlapVertices.
  destruct (_ && _); [now intros [= <- <-]|].
  cbv zeta.
  set (hits := filter _ (inters f)).
  assert (Hh : (length hits <= 16)%nat).
  { pose proof (filter_length_le
                  (fun t : bool * RealT * RealT => fst (fst t)) (inters f)).
    subst hits. lia. }
  pose proof (append_interior_tag xA yA (interiorVAId f) (range numVertexA)
                (map (fun t : bool * RealT * RealT => snd (fst t)) hits)
                (map (fun t : bool * RealT * RealT => snd t) hits)) as HA.
  rewrite length_map in HA. specialize (HA Hh).
  destruct (append_interior xA yA _ _ _ _) as [[eA|[tX tY]]|];
    [contradiction| |discriminate].
  pose proof (append_interior_tag xB yB (interiorVBId f) (range numVertexB)
                tX tY HA) as HB.
  destruct (append_interior xB yB _ _ _ _) as [[eB|[tX' tY']]|];
    [contradiction|discriminate|discriminate].
Qed.

Lemma finishOverlap_cases (tX tY : list RealT) (lenTol : RealT)
    (out : Overlap) (e : FaceGeomError) (o : Overlap) :
  finishOverlap tX tY lenTol out = Some (e, o) ->
  e = NO_FACE_GEOM_ERROR
  /\ (area o = 0%float
      \/ (3 <= numPolyVert o <= 8
          /\ area o = Area2DPolygon (polyX o) (polyY o) (numPolyVert o))).
Proof.
  unfold finishOverlap.
  destruct (2 <? _); [|intros [= <- <-]; split; [reflexivity|now left]].
  destruct (PolyReorder _ _ _) as [[[b rX] rY]|]; [|discriminate].
  destruct (CheckPolySegs _ _ _ _ _ _ _) as [[[[segErr px] py] nF]|] eqn:Ec;
    [|discriminate].
  pose proof (CheckPolySegs_count _ _ _ _ _ _ _ _ _ _ _ Ec) as Hc.
  apply CheckPolySegs_tag in Ec. subst segErr. cbn [FaceGeomError_eqb negb].
  destruct (Z.ltb_spec nF 3); intros [= <- <-];
    (split; [reflexivity|]); [now left|right].
  cbn. split; [lia|reflexivity].
Qed.

(** X8. Every way [Intersection2DPolygon] returns.  The error tag is
    [INVALID_FACE_INPUT] only for a polygon of fewer than 3 vertices
    (area set to 0), [FACE_ORIENTATION] only with the outputs untouched,
    and [NO_FACE_GEOM_ERROR] otherwise: then the area is 0, or the
    overlap has 3 to 8 vertices and the area is that of the polygon
    written to the outputs.  No other tag is returned for faces of at
    most 4 vertices. *)
Theorem Intersection2DPolygon_outcomes
    (xA yA : list RealT) (numVertexA : Z) (xB yB : list RealT) (numVertexB : Z)
    (posTol lenTol : RealT) (out : Overlap) (orientCheck : bool)
    (e : FaceGeomError) (o : Overlap) :
  Intersection2DPolygon xA yA numVertexA xB yB numVertexB posTol lenTol
    out orientCheck = Some (e, o) ->
  (e = INVALID_FACE_INPUT /\ (numVertexA < 3 \/ numVertexB < 3)
   /\ o = set_area out 0%float)
  \/ (e = FACE_ORIENTATION /\ o = out)
  \/ (e = NO_FACE_GEOM_ERROR /\ area o = 0%float)
  \/ (e = NO_FACE_GEOM_ERROR /\ 3 <= numPolyVert o <= 8
      /\ area o = Area2DPolygon (polyX o) (polyY o) (numPolyVert o)).
Proof.
  unfold Intersection2DPolygon.
  destruct (findOverlapVertices _ _ _ _ _ _ _ _ _) as [[[e0 o0]|f]|] eqn:Ef;
    [| |discriminate]; apply findOverlapVertices_cases in Ef.
  - intros [= <- <-].
    destruct Ef as [Ef|[Ef|(He & Hn & Ha)]]; [now left|now right; left|].
    right. right. right. repeat split; [assumption|lia|lia|assumption].
  - destruct (gatherOverlapVertices _ _ _ _ _ _ _ _)
      as [[[e1 o1]|[[tX tY] out1]]|] eqn:Eg; [| |discriminate].
    + apply gatherOverlapVertices_early in Eg as [-> ->]; [|assumption].
      intros [= <- <-]. right. right. left. now split.
    + intros H. apply finishOverlap_cases in H as [-> [H|H]].
      * right. right. left. now split.
      * right. right. right. now split.
Qed.

(** The unit square against the square [0.5,2] x [0.5,2]. *)
Lemma Intersection2DPolygon_outcomes_witness :
  exists e o,
    Intersection2DPolygon Fixtures.unit_square_x Fixtures.unit_square_y 4
      Fixtures.offset_square_x Fixtures.offset_square_y 4 1e-8%float 1e-8%float
      (mkOverlap Samples.buffer Samples.buffer 0 0%float) true = Some (e, o)
    /\ ((e = INVALID_FACE_INPUT /\ (4 < 3 \/ 4 < 3)
         /\ o = set_area (mkOverlap Samples.buffer Samples.buffer 0 0%float)
                  0%float)
        \/ (e = FACE_ORIENTATION
            /\ o = mkOverlap Samples.buffer Samples.buffer 0 0%float)
        \/ (e = NO_FACE_GEOM_ERROR /\ area o = 0%float)
        \/ (e = NO_FACE_GEOM_ERROR /\ 3 <= numPolyVert o <= 8
            /\ area o = Area2DPolygon (polyX o) (polyY o) (numPolyVert o))).
Proof.
  eexists. eexists. split.
  - vm_compute. reflexivity.
  - apply (Intersection2DPolygon_outcomes Fixtures.unit_square_x
             Fixtures.unit_square_y 4 Fixtures.offset_square_x
             Fixtures.offset_square_y 4 1e-8%float 1e-8%float
             (mkOverlap Samples.buffer Samples.buffer 0 0%float) true).
    vm_compute. reflexivity.
Defined.

(** ** The vertices gathered by [Intersection2DPolygon] *)

Lemma live_upd_set (ids : list Z) (n i : Z) :
  0 <= i < n -> n <= Z.of_nat (length ids) -> rdi ids i = -1 ->
  live (upd ids i i) n = live ids n + 1.
Proof.
  intros Hi Hn Hd. unfold live, interiorIds.
  rewrite (filter_flip_one
             (fun k => negb (rdi (upd ids i i) k =? -1))
             (fun k => negb (rdi ids k =? -1)) (range n) i).
  - lia.
  - apply range_NoDup.
  - now apply in_range_iff.
  - rewrite rdi_upd_same by lia. apply negb_true_iff, Z.eqb_neq. lia.
  - rewrite Hd. reflexivity.
  - intros k Hk Hne. apply in_range_iff in Hk.
    now rewrite rdi_upd_other by lia.
Qed.

Lemma live_initIntArray (n : Z) : live (initIntArray n (-1)) n = 0.
Proof.
  unfold live, interiorIds.
  assert (G : forall l, (forall i, In i l -> 0 <= i < n) ->
            filter (fun i => negb (rdi (initIntArray n (-1)) i =? -1)) l = []).
  { induction l as [|i l IH]; intros Hl; cbn [filter]; [reflexivity|].
    replace (rdi (initIntArray n (-1)) i) with (-1).
    - cbn. apply IH. intros k Hk. apply Hl. now right.
    - symmetry. unfold rdi, idx, initIntArray. apply nth_repeat_lt.
      specialize (Hl i (or_introl eq_refl)). lia. }
  rewrite G; [reflexivity|intros i Hi; now apply in_range_iff].
Qed.

Lemma classify_fold_count (xP yP xQ yQ : list RealT) (xCQ yCQ : RealT)
    (numVertexQ n : Z) (todo : list Z) (ids : list Z) (num : Z) :
  NoDup todo -> (forall i, In i todo -> 0 <= i < n) ->
  Z.of_nat (length ids) = n ->
  (forall i, In i todo -> rdi ids i = -1) ->
  let s' :=
    fold_left
      (fun (st : list Z * Z) (i : Z) =>
         let '(interiorId, num) := st in
         if Point2DInFace (rd xP i) (rd yP i) xQ yQ xCQ yCQ numVertexQ
         then (upd interiorId i i, num + 1)
         else st) todo (ids, num) in
  snd s' - live (fst s') n = num - live ids n.
Proof.
  revert ids num. induction todo as [|i todo IH];
    intros ids num Hnd Hr Hlen Hdead; cbn [fold_left]; [reflexivity|].
  apply NoDup_cons_iff in Hnd as [Hnotin Hnd'].
  assert (Hi : 0 <= i < n) by (apply Hr; now left).
  destruct (Point2DInFace _ _ _ _ _ _ _).
  - cbv zeta in IH |- *. rewrite IH.
    + rewrite live_upd_set by (try lia; apply Hdead; now left). lia.
    + assumption.
    + intros k Hk. apply Hr. now right.
    + now rewrite upd_length.
    + intros k Hk. rewrite rdi_upd_other.
      * apply Hdead. now right.
      * assert (0 <= k < n) by (apply Hr; now right). lia.
      * intros ->. contradiction.
  - apply IH; auto.
    + intros k Hk. apply Hr. now right.
    + intros k Hk. apply Hdead. now right.
Qed.

Lemma classify_count (xP yP : list RealT) (numVertexP : Z)
    (xQ yQ : list RealT) (xCQ yCQ : RealT) (numVertexQ : Z) :
  0 <= numVertexP ->
  snd (classify xP yP numVertexP xQ yQ xCQ yCQ numVertexQ)
  = live (fst (classify xP yP numVertexP xQ yQ xCQ yCQ numVertexQ)) numVertexP.
Proof.
  intros Hn. unfold classify.
  pose proof (classify_fold_count xP yP xQ yQ xCQ yCQ numVertexQ numVertexP
                (range numVertexP) (initIntArray numVertexP (-1)) 0) as H.
  cbv zeta in H. rewrite live_initIntArray in H.
  assert (E : forall a b : Z, a - b = 0 - 0 -> a = b) by (intros; lia).
  apply E, H.
  - apply range_NoDup.
  - intros i Hi. now apply in_range_iff.
  - unfold initIntArray. rewrite repeat_length. lia.
  - intros i Hi. apply in_range_iff in Hi.
    unfold rdi, idx, initIntArray. apply nth_repeat_lt. lia.
Qed.

Lemma findOverlapVertices_counts
    (xA yA : list RealT) (numVertexA : Z) (xB yB : list RealT) (numVertexB : Z)
    (posTol : RealT) (out : Overlap) (orientCheck : bool) (f : Found) :
  findOverlapVertices xA yA numVertexA xB yB numVertexB posTol out orientCheck
    = Some (inr f) ->
  numVAI f = live (interiorVAId f) numVertexA
  /\ numVBI f = live (interiorVBId f) numVertexB.
Proof.
  unfold findOverlapVertices.
  destruct (_ || _) eqn:E3; [discriminate|].
  apply orb_false_iff in E3 as [E3a E3b]. apply Z.ltb_ge in E3a, E3b.
  destruct (orientCheck && _); [discriminate|].
  destruct (_ || _); [discriminate|].
  destruct (snd (VertexAvgCentroid xA _ _ _ _)) as [[xCA yCA] zCA].
  destruct (snd (VertexAvgCentroid xB _ _ _ _)) as [[xCB yCB] zCB].
  pose proof (classify_count xA yA numVertexA xB yB xCB yCB numVertexB) as CA.
  pose proof (classify_count xB yB numVertexB xA yA xCA yCA numVertexA) as CB.
  pose proof (classify_length xB yB numVertexB xA yA xCA yCA numVertexA) as LB.
  destruct (classify xA _ _ _ _ _ _ _) as [idA nA].
  destruct (nA =? numVertexA); [discriminate|].
  destruct (classify xB _ _ _ _ _ _ _) as [idB nB].
  destruct (nB =? numVertexB); [discriminate|].
  cbn [fst snd] in CA, CB, LB.
  pose proof (dedup_outer_fold xA yA xB yB numVertexA numVertexB idA
                (range numVertexA) (idB, nB) (idB, nB)) as D.
  cbv zeta in D. fold (dedupInterior xA yA numVertexA xB yB numVertexB
                         idA idB nB) in D.
  destruct D as ((_ & _ & D) & _).
  - cbn [fst]. lia.
  - intros i Hi. now apply in_range_iff.
  - repeat split; auto.
  - destruct (dedupInterior _ _ _ _ _ _ _ _ _) as [idB' nB'].
    destruct (segment_loop _ _ _ _ _ _ _ _ _ _ _) as [[e'|found]|];
      [discriminate| |discriminate].
    intros [= <-]. cbn [numVAI numVBI interiorVAId interiorVBId].
    cbn [fst snd] in D. split; lia.
Qed.

(** X9. The vertex count that [Intersection2DPolygon] assigns to the
    overlap before reordering equals the number of coordinate pairs it
    has gathered (segment intersections, interior vertices of A, and
    interior vertices of B left after the removal of coincident ones),
    and lies between 1 and 16: [PolyReorder] is handed arrays filled
    exactly up to that count. *)
Theorem Intersection2DPolygon_gathers_counted_vertices
    (xA yA : list RealT) (numVertexA : Z) (xB yB : list RealT) (numVertexB : Z)
    (posTol : RealT) (out : Overlap) (orientCheck : bool) (f : Found)
    (polyXTemp polyYTemp : list RealT) (out1 : Overlap) :
  findOverlapVertices xA yA numVertexA xB yB numVertexB posTol out orientCheck
    = Some (inr f) ->
  gatherOverlapVertices xA yA numVertexA xB yB numVertexB f out
    = Some (inr (polyXTemp, polyYTemp, out1)) ->
  numPolyVert out1 = Z.of_nat (length polyXTemp)
  /\ length polyYTemp = length polyXTemp
  /\ 1 <= numPolyVert out1 <= 16.
Proof.
  intros Hf Hg.
  pose proof (findOverlapVertices_counts _ _ _ _ _ _ _ _ _ _ Hf) as [CA CB].
  pose proof (findOverlapVertices_cases _ _ _ _ _ _ _ _ _ _ Hf) as Hlen.
  cbv beta iota in Hlen.
  pose proof (gatherOverlapVertices_spec _ _ _ _ _ _ _ _ _ _ _ Hg)
    as (EX & EY & EN).
  cbv zeta in EX, EY.
  assert (Hs : numSegInter (inters f)
               = Z.of_nat (length (filter (fun t : bool * RealT * RealT =>
                                             fst (fst t)) (inters f)))).
  { unfold numSegInter.
    assert (G : forall (l : list (bool * RealT * RealT)) (a : Z),
              fold_left (fun (n : Z) (t : bool * RealT * RealT) =>
                           if fst (fst t) then n + 1 else n) l a
              = a + Z.of_nat (length (filter (fun t : bool * RealT * RealT =>
                                                fst (fst t)) l))).
    { induction l as [|t l IH]; intros a; cbn [fold_left filter];
        [cbn; lia|].
      rewrite IH. destruct (fst (fst t)); cbn [length]; lia. }
    rewrite G. lia. }
  assert (Hx : Z.of_nat (length polyXTemp) = numPolyVert out1).
  { rewrite EX, EN, Hs, CA, CB. unfold live.
    rewrite !length_app, !length_map. lia. }
  assert (Hy : length polyYTemp = length polyXTemp).
  { rewrite EX, EY. now rewrite !length_app, !length_map. }
  split; [now symmetry|]. split; [exact Hy|].
  rewrite <- Hx. split.
  - revert Hg. unfold gatherOverlapVertices.
    destruct (_ && _) eqn:Ez; [discriminate|]. intros _.
    rewrite Hx, EN.
    assert (0 <= numSegInter (inters f)) by (rewrite Hs; lia).
    assert (0 <= numVAI f) by (rewrite CA; unfold live; lia).
    assert (0 <= numVBI f) by (rewrite CB; unfold live; lia).
    destruct (Z.eqb_spec (numSegInter (inters f)) 0);
      destruct (Z.eqb_spec (numVBI f) 0);
      destruct (Z.eqb_spec (numVAI f) 0); try discriminate; lia.
  - revert Hg. unfold gatherOverlapVertices.
    destruct (_ && _); [discriminate|]. cbv zeta.
    set (hits := filter _ (inters f)).
    assert (Hh : (length hits <= 16)%nat).
    { pose proof (filter_length_le
                    (fun t : bool * RealT * RealT => fst (fst t)) (inters f)).
      subst hits. lia. }
    pose proof (append_interior_tag xA yA (interiorVAId f) (range numVertexA)
                  (map (fun t : bool * RealT * RealT => snd (fst t)) hits)
                  (map (fun t : bool * RealT * RealT => snd t) hits)) as HA.
    rewrite length_map in HA. specialize (HA Hh).
    destruct (append_interior xA yA _ _ _ _) as [[eA|[tX tY]]|];
      [contradiction| |discriminate].
    pose proof (append_interior_tag xB yB (interiorVBId f) (range numVertexB)
                  tX tY HA) as HB.
    destruct (append_interior xB yB _ _ _ _) as [[eB|[tX' tY']]|];
      [contradiction| |discriminate].
    intros [= <- _ _]. lia.
Qed.

(** The unit square against the square [0.5,2] x [0.5,2]: two segment
    intersections and one interior vertex of each. *)
Lemma Intersection2DPolygon_gathers_counted_vertices_witness :
  exists f polyXTemp polyYTemp out1,
    findOverlapVertices Fixtures.unit_square_x Fixtures.unit_square_y 4
      Fixtures.offset_square_x Fixtures.offset_square_y 4 1e-8%float
      (mkOverlap Samples.buffer Samples.buffer 0 0%float) true
    = Some (inr f)
    /\ gatherOverlapVertices Fixtures.unit_square_x Fixtures.unit_square_y 4
         Fixtures.offset_square_x Fixtures.offset_square_y 4 f
         (mkOverlap Samples.buffer Samples.buffer 0 0%float)
       = Some (inr (polyXTemp, polyYTemp, out1))
    /\ numPolyVert out1 = Z.of_nat (length polyXTemp)
    /\ length polyYTemp = length polyXTemp
    /\ 1 <= numPolyVert out1 <= 16.
Proof.
  eexists. eexists. eexists. eexists. split; [|split].
  - vm_compute. reflexivity.
  - vm_compute. reflexivity.
  - eapply (Intersection2DPolygon_gathers_counted_vertices
             Fixtures.unit_square_x Fixtures.unit_square_y 4
             Fixtures.offset_square_x Fixtures.offset_square_y 4 1e-8%float
             (mkOverlap Samples.buffer Samples.buffer 0 0%float) true).
    + vm_compute. reflexivity.
    + vm_compute. reflexivity.
Defined.

(** * Properties of [ElemReverse], [PolyReorderWithNormal] and
    [GlobalTo2DLocalCoords] *)

Import Geom2.

Lemma load_in (a : list RealT) (i : Z) :
  0 <= i < Z.of_nat (length a) -> load a i = inr (rd a i).
Proof.
  intros H. unfold load.
  destruct (Z.leb_spec 0 i); [|lia].
  destruct (Z.ltb_spec i (Z.of_nat (length a))); [reflexivity|lia].
Qed.

Lemma store_in (a : list RealT) (i : Z) (v : RealT) :
  0 <= i < Z.of_nat (length a) -> store a i v = inr (upd a i v).
Proof.
  intros H. unfold store.
  destruct (Z.leb_spec 0 i); [|lia].
  destruct (Z.ltb_spec i (Z.of_nat (length a))); [reflexivity|lia].
Qed.

Lemma store_out (a : list RealT) (i : Z) (v : RealT) :
  Z.of_nat (length a) <= i ->
  store a i v = inl (WritePastEnd i (Z.of_nat (length a))).
Proof.
  intros H. unfold store.
  destruct (Z.ltb_spec i (Z.of_nat (length a))); [lia|].
  now rewrite andb_false_r.
Qed.

(** X10. [ElemReverse] on a face of at most 4 vertices keeps vertex 0
    and puts the other vertices in reverse order, in both arrays; it
    performs no access outside the arrays. *)

Theorem ElemReverse_reverses (x y : list RealT) (numPoints : Z) :
  numPoints <= 4 ->
  Z.of_nat (length x) = numPoints -> Z.of_nat (length y) = numPoints ->
  ElemReverse x y numPoints = inr (reversed_walk x, reversed_walk y).
Proof.
  intros Hn Hx Hy.
  assert (Hc : numPoints = 0 \/ numPoints = 1 \/ numPoints = 2
               \/ numPoints = 3 \/ numPoints = 4) by lia.
  destruct Hc as [->|[->|[->|[->| ->]]]];
    destruct x as [|x0 [|x1 [|x2 [|x3 [|x4 x]]]]]; cbn [length] in Hx; try lia;
    destruct y as [|y0 [|y1 [|y2 [|y3 [|y4 y]]]]]; cbn [length] in Hy; try lia;
    reflexivity.
Qed.

Lemma ElemReverse_reverses_witness :
  ElemReverse Fixtures.unit_square_x Fixtures.unit_square_y 4
  = inr ([0; 0; 1; 1]%float, [0; 1; 1; 0]%float).
Proof.
  apply (ElemReverse_reverses Fixtures.unit_square_x Fixtures.unit_square_y 4).
  - lia.
  - reflexivity.
  - reflexivity.
Defined.

(** X11. Reversing a face of at most 4 vertices twice gives the face
    back. *)

Theorem ElemReverse_twice (x y x' y' : list RealT) (numPoints : Z) :
  numPoints <= 4 ->
  Z.of_nat (length x) = numPoints -> Z.of_nat (length y) = numPoints ->
  ElemReverse x y numPoints = inr (x', y') ->
  ElemReverse x' y' numPoints = inr (x, y).
Proof.
  intros Hn Hx Hy.
  assert (Hc : numPoints = 0 \/ numPoints = 1 \/ numPoints = 2
               \/ numPoints = 3 \/ numPoints = 4) by lia.
  destruct Hc as [->|[->|[->|[->| ->]]]];
    destruct x as [|x0 [|x1 [|x2 [|x3 [|x4 x]]]]]; cbn [length] in Hx; try lia;
    destruct y as [|y0 [|y1 [|y2 [|y3 [|y4 y]]]]]; cbn [length] in Hy; try lia;
    intros [= <- <-]; reflexivity.
Qed.

Lemma ElemReverse_twice_witness :
  ElemReverse [0; 0; 1; 1]%float [0; 1; 1; 0]%float 4
  = inr (Fixtures.unit_square_x, Fixtures.unit_square_y).
Proof.
  apply (ElemReverse_twice Fixtures.unit_square_x Fixtures.unit_square_y
           [0; 0; 1; 1]%float [0; 1; 1; 0]%float 4).
  - lia.
  - reflexivity.
  - reflexivity.
  - vm_compute. reflexivity.
Defined.

(** X12. [ElemReverse] on more than 4 vertices writes past the end of
    its 4-entry temporaries: the first access outside an array is the
    store to [xtemp[4]], before any vertex is moved. *)

Theorem ElemReverse_overflows (x y : list RealT) (numPoints : Z) :
  4 < numPoints ->
  Z.of_nat (length x) = numPoints -> Z.of_nat (length y) = numPoints ->
  ElemReverse x y numPoints = inl (WritePastEnd 4 4).
Proof.
  intros Hn Hx Hy. unfold ElemReverse. cbv zeta.
  rewrite (range_head numPoints) by lia.
  rewrite (range_head (numPoints - 1)) by lia.
  rewrite (range_head (numPoints - 1 - 1)) by lia.
  rewrite (range_head (numPoints - 1 - 1 - 1)) by lia.
  rewrite (range_head (numPoints - 1 - 1 - 1 - 1)) by lia.
  cbn [map repeat copy_loop].
  change (1 + 0) with 1. change (1 + 1) with 2. change (1 + 2) with 3.
  change (1 + 3) with 4.
  rewrite !(load_in x), !(load_in y) by lia. cbn [mbind].
  repeat (rewrite store_in by (rewrite ?upd_length; cbn [length]; lia);
          cbn [mbind]).
  rewrite store_out by (rewrite ?upd_length; cbn [length]; lia).
  rewrite !upd_length. reflexivity.
Qed.

Lemma ElemReverse_overflows_witness :
  ElemReverse Samples.stub_x Samples.stub_y 5 = inl (WritePastEnd 4 4).
Proof.
  apply (ElemReverse_overflows Samples.stub_x Samples.stub_y 5).
  - lia.
  - reflexivity.
  - reflexivity.
Defined.

(** X13. [PolyReorderWithNormal] on 3 to 8 vertices reverses the walk
    (vertex 0 kept, the others in reverse order, in all three arrays)
    exactly when the normal of the first three vertices has a negative
    dot product with the given normal, and returns the arrays as given
    otherwise, a zero or NaN product included. *)
Theorem PolyReorderWithNormal_reverses
    (crossProd : RealT -> RealT -> RealT -> RealT -> RealT -> RealT ->
                 RealT * RealT * RealT)
    (dotProd : RealT -> RealT -> RealT -> RealT -> RealT -> RealT -> RealT)
    (x y z : list RealT) (numPoints : Z) (nX nY nZ : RealT) :
  3 <= numPoints <= 8 ->
  Z.of_nat (length x) = numPoints -> Z.of_nat (length y) = numPoints ->
  Z.of_nat (length z) = numPoints ->
  PolyReorderWithNormal crossProd dotProd x y z numPoints nX nY nZ
  = inr (if against_normal crossProd dotProd x y z nX nY nZ
         then (reversed_walk x, reversed_walk y, reversed_walk z)
         else (x, y, z)).

Proof.
  intros Hn Hx Hy Hz.
  assert (Hc : numPoints = 3 \/ numPoints = 4 \/ numPoints = 5
               \/ numPoints = 6 \/ numPoints = 7 \/ numPoints = 8) by lia.
  unfold against_normal.
  destruct Hc as [->|[->|[->|[->|[->| ->]]]]];
    destruct x as [|x0 [|x1 [|x2 [|x3 [|x4 [|x5 [|x6 [|x7 [|x8 x]]]]]]]]];
    cbn [length] in Hx; try lia;
    destruct y as [|y0 [|y1 [|y2 [|y3 [|y4 [|y5 [|y6 [|y7 [|y8 y]]]]]]]]];
    cbn [length] in Hy; try lia;
    destruct z as [|z0 [|z1 [|z2 [|z3 [|z4 [|z5 [|z6 [|z7 [|z8 z]]]]]]]]];
    cbn [length] in Hz; try lia;
    unfold PolyReorderWithNormal; cbn;
    destruct (crossProd _ _ _ _ _ _) as [[pX pY] pZ];
    destruct (dotProd pX pY pZ nX nY nZ <? 0)%float; reflexivity.
Qed.

(** The unit square in the plane z = 0 against the normal (0,0,-1). *)
Lemma PolyReorderWithNormal_reverses_witness :
  PolyReorderWithNormal Samples.cross Samples.dot Fixtures.unit_square_x
    Fixtures.unit_square_y Samples.flat_z 4 0%float 0%float (-1)%float
  = inr ([0; 0; 1; 1]%float, [0; 1; 1; 0]%float, [0; 0; 0; 0]%float).
Proof.
  apply (PolyReorderWithNormal_reverses Samples.cross Samples.dot
           Fixtures.unit_square_x Fixtures.unit_square_y Samples.flat_z 4
           0%float 0%float (-1)%float).
  - lia.
  - reflexivity.
  - reflexivity.
  - reflexivity.
Defined.

Lemma upd_fold_fill (f : Z -> RealT) (n : nat) (buf : list RealT) :
  (n <= length buf)%nat ->
  fold_left (fun (o : list RealT) (i : Z) => upd o i (f i))
    (range (Z.of_nat n)) buf
  = fill buf (map f (range (Z.of_nat n))).
Proof.
  induction n as [|n IH]; intros Hn.
  - reflexivity.
  - assert (E : range (Z.of_nat (S n)) = range (Z.of_nat n) ++ [Z.of_nat n]).
    { unfold range. rewrite !Nat2Z.id, seq_S, map_app. reflexivity. }
    rewrite E, fold_left_app, IH by lia. cbn [fold_left].
    rewrite map_app. cbn [map]. unfold fill.
    rewrite !length_app, !length_map, !range_length, !Nat2Z.id. cbn [length].
    apply nth_ext with (d := 0%float) (d' := 0%float).
    + rewrite upd_length, !length_app, !length_map, !range_length, !Nat2Z.id,
        !length_skipn. cbn [length]. lia.
    + intros m Hm.
      rewrite upd_length, length_app, length_map, range_length, Nat2Z.id,
        length_skipn in Hm.
      change (nth m ?l 0%float) with (nth m l 0%float).
      destruct (Nat.eq_dec m n) as [->|Hne].
      * replace (nth n (upd _ (Z.of_nat n) (f (Z.of_nat n))) 0%float)
          with (idx 0%float
                  (upd (map f (range (Z.of_nat n)) ++ skipn n buf)
                     (Z.of_nat n) (f (Z.of_nat n))) (Z.of_nat n))
          by (unfold idx; now rewrite Nat2Z.id).
        rewrite idx_upd_same
          by (rewrite length_app, length_map, range_length, Nat2Z.id,
                length_skipn; lia).
        rewrite <- app_assoc.
        rewrite app_nth2 by (rewrite length_map, range_length, Nat2Z.id; lia).
        rewrite length_map, range_length, Nat2Z.id, Nat.sub_diag.
        reflexivity.
      * replace (nth m (upd _ (Z.of_nat n) (f (Z.of_nat n))) 0%float)
          with (idx 0%float
                  (upd (map f (range (Z.of_nat n)) ++ skipn n buf)
                     (Z.of_nat n) (f (Z.of_nat n))) (Z.of_nat m))
          by (unfold idx; now rewrite Nat2Z.id).
        rewrite idx_upd_other by lia. unfold idx. rewrite Nat2Z.id.
        rewrite <- app_assoc.
        destruct (Nat.lt_ge_cases m n) as [Hlt|Hge].
        -- rewrite !app_nth1
             by (rewrite length_map, range_length, Nat2Z.id; lia).
           reflexivity.
        -- rewrite !app_nth2
             by (rewrite length_map, range_length, Nat2Z.id; lia).
           rewrite length_map, range_length, Nat2Z.id.
           replace (m - n)%nat with (S (m - S n)) by lia.
           cbn [app nth]. rewrite !nth_skipn. f_equal. lia.
Qed.

Lemma pair_fold_split {A} (f g : list RealT -> A -> list RealT) (l : list A)
    (a b : list RealT) :
  fold_left (fun (out : list RealT * list RealT) (i : A) =>
               (f (fst out) i, g (snd out) i)) l (a, b)
  = (fold_left f l a, fold_left g l b).
Proof.
  revert a b. induction l as [|i l IH]; intros a b; cbn [fold_left fst snd];
    [reflexivity|apply IH].
Qed.

(** X14. The array overload of [GlobalTo2DLocalCoords] writes, into the
    first [size] entries of the two output buffers, what the overload
    for one point returns for each of the [size] points, bit for bit,
    and leaves the rest of the buffers as they were. *)
Theorem GlobalTo2DLocalCoords_overloads_agree (pX pY pZ : list RealT)
    (e1X e1Y e1Z e2X e2Y e2Z cX cY cZ : RealT) (pLX pLY : list RealT)
    (size : Z) :
  size <= Z.of_nat (length pX) -> size <= Z.of_nat (length pY) ->
  size <= Z.of_nat (length pZ) ->
  size <= Z.of_nat (length pLX) -> size <= Z.of_nat (length pLY) ->
  let local (i : Z) :=
    GlobalTo2DLocalCoords_point (rd pX i) (rd pY i) (rd pZ i)
      e1X e1Y e1Z e2X e2Y e2Z cX cY cZ in
  GlobalTo2DLocalCoords pX pY pZ e1X e1Y e1Z e2X e2Y e2Z cX cY cZ pLX pLY size
  = (fill pLX (map (fun i => fst (local i)) (range size)),
     fill pLY (map (fun i => snd (local i)) (range size))).
Proof.
  intros _ _ _ Hx Hy. cbv zeta. unfold GlobalTo2DLocalCoords.

  rewrite (pair_fold_split
             (fun o i => upd o i
                ((rd pX i - cX) * e1X + (rd pY i - cY) * e1Y
                 + (rd pZ i - cZ) * e1Z)%float)
             (fun o i => upd o i
                ((rd pX i - cX) * e2X + (rd pY i - cY) * e2Y
                 + (rd pZ i - cZ) * e2Z)%float)).
  destruct (Z.le_gt_cases size 0) as [Hs|Hs].
  - replace (range size) with (@nil Z)
      by (unfold range; now replace (Z.to_nat size) with 0%nat by lia).
    reflexivity.
  - rewrite <- (Z2Nat.id size) by lia.
    rewrite !upd_fold_fill by lia. reflexivity.
Qed.

(** Three points of the plane z = 1 in the basis (1,0,0), (0,1,0) at the
    origin (1,1,1). *)
Lemma GlobalTo2DLocalCoords_overloads_agree_witness :
  GlobalTo2DLocalCoords [1; 2; 3]%float [1; 1; 4]%float [1; 1; 1]%float
    1%float 0%float 0%float 0%float 1%float 0%float 1%float 1%float 1%float
    Samples.buffer Samples.buffer 3
  = ([0; 1; 2; 0; 0; 0; 0; 0]%float, [0; 0; 3; 0; 0; 0; 0; 0]%float).
Proof.
  apply (GlobalTo2DLocalCoords_overloads_agree
           [1; 2; 3]%float [1; 1; 4]%float [1; 1; 1]%float
           1%float 0%float 0%float 0%float 1%float 0%float
           1%float 1%float 1%float Samples.buffer Samples.buffer 3);
    vm_compute; discriminate.
Defined.

(** * Further properties of the coupling scheme *)

(** ** The validation routines one by one *)

Ltac split_ifs :=
  repeat match goal with
         | |- context [if ?b then _ else _] => destruct b
         end.

(** X15. Each of [isValidMode], [isValidCase], [isValidMethod],
    [isValidModel] and [isValidEnforcement] returns true exactly when it
    leaves its own error field at the no-error tag, whatever the field
    held before the call. *)

Theorem validation_flag_matches_error (cs : CouplingScheme)
    (mesh1 mesh2 : MeshData) :
  let errs (r : bool * CouplingScheme) := m_couplingSchemeErrors (snd r) in
  (fst (isValidMode cs) = true <->
     cs_mode_error (errs (isValidMode cs)) = NO_MODE_ERROR)
  /\ (fst (isValidCase cs mesh1 mesh2) = true <->
        cs_case_error (errs (isValidCase cs mesh1 mesh2)) = NO_CASE_ERROR)
  /\ (fst (isValidMethod cs mesh1 mesh2) = true <->
        cs_method_error (errs (isValidMethod cs mesh1 mesh2)) = NO_METHOD_ERROR)
  /\ (fst (isValidModel cs) = true <->
        cs_model_error (errs (isValidModel cs)) = NO_MODEL_ERROR)
  /\ (fst (isValidEnforcement cs) = true <->
        cs_enforcement_error (errs (isValidEnforcement cs))
        = NO_ENFORCEMENT_ERROR).
Proof.
  cbv zeta. repeat split.
  - unfold isValidMode. split_ifs; cbn; congruence.
  - unfold isValidMode. split_ifs; cbn; congruence.
  - unfold isValidCase. cbv zeta. split_ifs; cbn; congruence.
  - unfold isValidCase. cbv zeta. split_ifs; cbn; congruence.
  - unfold isValidMethod. cbv zeta. split_ifs; cbn; congruence.
  - unfold isValidMethod. cbv zeta. split_ifs; cbn; congruence.
  - unfold isValidModel. cbv zeta.
    destruct (m_contactMethod cs); split_ifs; cbn; congruence.
  - unfold isValidModel. cbv zeta.
    destruct (m_contactMethod cs); split_ifs; cbn; congruence.
  - unfold isValidEnforcement. cbv zeta.
    destruct (m_contactMethod cs); split_ifs; cbn;
      repeat match goal with
             | |- context [match ?e with _ => _ end] => destruct e; cbn
             end; congruence.
  - unfold isValidEnforcement. cbv zeta.
    destruct (m_contactMethod cs); split_ifs; cbn;
      repeat match goal with
             | |- context [match ?e with _ => _ end] => destruct e; cbn
             end; congruence.
Qed.

(** X16. [isValidModel] accepts exactly the models [FRICTIONLESS] and
    [NULL_MODEL], and [TIED] with the common-plane method; every other
    combination of a method and a model is refused. *)

Theorem isValidModel_accepts (cs : CouplingScheme) :
  m_contactMethod cs <> NUM_CONTACT_METHODS ->
  fst (isValidModel cs) = true <->
  m_contactModel cs = FRICTIONLESS \/ m_contactModel cs = NULL_MODEL
  \/ (m_contactModel cs = TIED /\ m_contactMethod cs = COMMON_PLANE).
Proof.
  intros Hm. unfold isValidModel.
  destruct (m_contactMethod cs), (m_contactModel cs); cbn;
    try contradiction; intuition congruence.
Qed.

Lemma isValidModel_accepts_witness :
  fst (isValidModel Fixtures.tied_scheme) = true <->
  m_contactModel Fixtures.tied_scheme = FRICTIONLESS
  \/ m_contactModel Fixtures.tied_scheme = NULL_MODEL
  \/ (m_contactModel Fixtures.tied_scheme = TIED
      /\ m_contactMethod Fixtures.tied_scheme = COMMON_PLANE).
Proof.
  apply (isValidModel_accepts Fixtures.tied_scheme).
  vm_compute. discriminate.
Defined.

(** X17. What an accepted enforcement looks like after
    [isValidEnforcement]: penalty with its constraint type set for the
    common-plane method; Lagrange multipliers with their options set, an
    evaluation mode other than the mortar weights and a linked-list or
    element-dense sparse mode for the two mortar methods; no enforcement
    for [MORTAR_WEIGHTS], whose evaluation and sparse modes the routine
    sets itself. *)

Theorem isValidEnforcement_accepts (cs : CouplingScheme) :
  fst (isValidEnforcement cs) = true ->
  let cs' := snd (isValidEnforcement cs) in
  let lm := lm_implicit_options (m_enforcementOptions cs') in
  match m_contactMethod cs with
  | COMMON_PLANE =>
      m_enforcementMethod cs' = PENALTY
      /\ constraint_type_set (penalty_options (m_enforcementOptions cs')) = true
  | SINGLE_MORTAR | ALIGNED_MORTAR =>
      m_enforcementMethod cs' = LAGRANGE_MULTIPLIER
      /\ enforcement_option_set lm = true
      /\ eval_mode lm <> MORTAR_WEIGHTS_EVAL
      /\ (sparse_mode lm = MFEM_LINKED_LIST
          \/ sparse_mode lm = MFEM_ELEMENT_DENSE)
  | MORTAR_WEIGHTS =>
      m_enforcementMethod cs' = NULL_ENFORCEMENT
      /\ eval_mode lm = MORTAR_WEIGHTS_EVAL
      /\ sparse_mode lm = MFEM_LINKED_LIST
  | NUM_CONTACT_METHODS => True
  end.
Proof.
  unfold isValidEnforcement.
  destruct (m_contactMethod cs) eqn:Em;
    destruct (m_enforcementMethod cs) eqn:Ee; cbn;
    destruct (m_enforcementOptions cs) as [[ev sp os] [ct kc]] eqn:Eo; cbn;
    destruct ev, sp, os, ct; cbn; rewrite ?Em, ?Ee, ?Eo; cbn;
    try discriminate; intros _; repeat split; rewrite ?Ee, ?Eo; cbn; auto;
    discriminate.
Qed.

Lemma isValidEnforcement_accepts_witness :
  m_enforcementMethod (snd (isValidEnforcement Samples.penalty_scheme))
  = PENALTY
  /\ constraint_type_set
       (penalty_options
          (m_enforcementOptions (snd (isValidEnforcement Samples.penalty_scheme))))
     = true.
Proof.
  apply (isValidEnforcement_accepts Samples.penalty_scheme).
  reflexivity.
Defined.

Ltac decide_leaf :=
  repeat split; intros;
  repeat match goal with
         | H : _ /\ _ |- _ => destruct H
         | H : _ \/ _ |- _ => destruct H
         end;
  try congruence; repeat split; auto; try congruence;
  try (left; congruence); try (right; congruence).

(** X18. How [isValidCase] settles the contact case (any registered case
    but the sentinel).  [AUTO] survives only if it was asked for, the
    two mesh ids are equal, the mode is not conforming and the method is
    the common plane; the interpenetration check is switched on exactly
    then; the call fails exactly when [AUTO] survives and an element
    thickness is missing.  Conforming mode and [ALIGNED_MORTAR] force
    [NO_SLIDING]; the other mortar methods leave [NO_CASE] or
    [NO_SLIDING]. *)

Theorem isValidCase_settles_case (cs : CouplingScheme) (mesh1 mesh2 : MeshData) :
  m_contactCase cs <> NUM_CONTACT_CASES ->
  let ok := fst (isValidCase cs mesh1 mesh2) in
  let cs' := snd (isValidCase cs mesh1 mesh2) in
  (m_contactCase cs' = AUTO <->
     m_contactCase cs = AUTO /\ m_mesh_id1 cs = m_mesh_id2 cs
     /\ m_contactMode cs <> SURFACE_TO_SURFACE_CONFORMING
     /\ (m_contactMethod cs = COMMON_PLANE
         \/ m_contactMethod cs = NUM_CONTACT_METHODS))
  /\ (auto_interpen_check (m_parameters cs') = true <-> m_contactCase cs' = AUTO)
  /\ (ok = false <->
        m_contactCase cs' = AUTO
        /\ (is_element_thickness_set mesh1 = false
            \/ is_element_thickness_set mesh2 = false))
  /\ (m_contactMode cs = SURFACE_TO_SURFACE_CONFORMING
      \/ m_contactMethod cs = ALIGNED_MORTAR -> m_contactCase cs' = NO_SLIDING)
  /\ (m_contactMethod cs = SINGLE_MORTAR \/ m_contactMethod cs = MORTAR_WEIGHTS ->
      m_contactCase cs' = NO_CASE \/ m_contactCase cs' = NO_SLIDING).
Proof.
  destruct cs as [id id1 id2 v1 v2 p nm iv nt mode case method model enf
                  pairs nap opts errs info rep].
  destruct mesh1 as [et1 ms1 mv1 ne1 nn1 sd1 nr1 th1 hv1 fr1].
  destruct mesh2 as [et2 ms2 mv2 ne2 nn2 sd2 nr2 th2 hv2 fr2].
  cbn [m_contactCase m_mesh_id1 m_mesh_id2 m_contactMode m_contactMethod
       is_element_thickness_set].
  intros Hc.
  pose proof (Z.eqb_spec id1 id2) as Hs.
  destruct (id1 =? id2) eqn:Hb; inversion Hs as [Hid|Hid]; clear Hs;
    (destruct case; [| | | |contradiction]); destruct mode, method, th1, th2;
    cbv in Hb |- *; rewrite ?Hb; decide_leaf.
Qed.

Lemma isValidCase_settles_case_witness :
  let cs := Samples.auto_scheme in
  let ok := fst (isValidCase cs Fixtures.quad_mesh Fixtures.quad_mesh) in
  let cs' := snd (isValidCase cs Fixtures.quad_mesh Fixtures.quad_mesh) in
  (m_contactCase cs' = AUTO <->
     m_contactCase cs = AUTO /\ m_mesh_id1 cs = m_mesh_id2 cs
     /\ m_contactMode cs <> SURFACE_TO_SURFACE_CONFORMING
     /\ (m_contactMethod cs = COMMON_PLANE
         \/ m_contactMethod cs = NUM_CONTACT_METHODS))
  /\ (auto_interpen_check (m_parameters cs') = true <-> m_contactCase cs' = AUTO)
  /\ (ok = false <->
        m_contactCase cs' = AUTO
        /\ (is_element_thickness_set Fixtures.quad_mesh = false
            \/ is_element_thickness_set Fixtures.quad_mesh = false))
  /\ (m_contactMode cs = SURFACE_TO_SURFACE_CONFORMING
      \/ m_contactMethod cs = ALIGNED_MORTAR -> m_contactCase cs' = NO_SLIDING)
  /\ (m_contactMethod cs = SINGLE_MORTAR \/ m_contactMethod cs = MORTAR_WEIGHTS ->
      m_contactCase cs' = NO_CASE \/ m_contactCase cs' = NO_SLIDING).
Proof.
  apply (isValidCase_settles_case Samples.auto_scheme Fixtures.quad_mesh
           Fixtures.quad_mesh).
  vm_compute. discriminate.
Defined.

(** X19. [isValidMethod] accepts a registered method exactly when the
    meshes are null, or the two meshes have the same number of nodes per
    element, the method is the common plane or else the mesh ids differ
    and the dimension is 3, and, except for [MORTAR_WEIGHTS], every
    non-empty mesh has its nodal response registered. *)

Theorem isValidMethod_accepts (cs : CouplingScheme) (mesh1 mesh2 : MeshData) :
  m_contactMethod cs <> NUM_CONTACT_METHODS ->
  fst (isValidMethod cs mesh1 mesh2) = true <->
  m_nullMeshes cs = true
  \/ (numberOfNodesPerElement mesh1 = numberOfNodesPerElement mesh2
      /\ (m_contactMethod cs = COMMON_PLANE
          \/ (m_mesh_id1 cs <> m_mesh_id2 cs /\ spatialDimension mesh1 = 3))
      /\ (m_contactMethod cs = MORTAR_WEIGHTS
          \/ ((0 < numberOfElements mesh1 -> is_nodal_response_set mesh1 = true)
              /\ (0 < numberOfElements mesh2 ->
                  is_nodal_response_set mesh2 = true)))).
Proof.
  destruct cs as [id id1 id2 v1 v2 p nm iv nt mode case method model enf
                  pairs nap opts errs info rep].
  cbn [m_contactMethod m_nullMeshes m_mesh_id1 m_mesh_id2].
  intros Hm. unfold isValidMethod.
  cbn [m_contactMethod m_nullMeshes m_mesh_id1 m_mesh_id2].
  destruct nm; [destruct method; cbn; tauto|].
  destruct method; [| | | |contradiction]; cbn;
    repeat match goal with
           | |- context [?a =? ?b] => destruct (Z.eqb_spec a b); cbn
           | |- context [?a <? ?b] => destruct (Z.ltb_spec a b); cbn
           | |- context [negb ?x] => destruct x eqn:?; cbn
           end;
    intuition (try discriminate; try congruence; try lia).
Qed.

Lemma isValidMethod_accepts_witness :
  let cs := Samples.penalty_scheme in
  let mesh1 := Fixtures.quad_mesh in
  let mesh2 := Fixtures.quad_mesh in
  fst (isValidMethod cs mesh1 mesh2) = true <->
  m_nullMeshes cs = true
  \/ (numberOfNodesPerElement mesh1 = numberOfNodesPerElement mesh2
      /\ (m_contactMethod cs = COMMON_PLANE
          \/ (m_mesh_id1 cs <> m_mesh_id2 cs /\ spatialDimension mesh1 = 3))
      /\ (m_contactMethod cs = MORTAR_WEIGHTS
          \/ ((0 < numberOfElements mesh1 -> is_nodal_response_set mesh1 = true)
              /\ (0 < numberOfElements mesh2 ->
                  is_nodal_response_set mesh2 = true)))).
Proof.
  apply (isValidMethod_accepts Samples.penalty_scheme Fixtures.quad_mesh
           Fixtures.quad_mesh).
  vm_compute. discriminate.
Defined.

(** ** [isValidCouplingScheme] and [init]

    Each validation routine writes its own error field and none of the
    registered choices. *)



Ltac frame_tac :=
  cbv zeta;
  repeat (match goal with
          | |- context [if ?b then _ else _] => destruct b
          | |- context [match ?e with _ => _ end] => destruct e eqn:?
          end; cbn);
  cbn; repeat split.

Lemma isValidMode_frame (cs : CouplingScheme) :
  let cs' := snd (isValidMode cs) in
  (fst (isValidMode cs) = true ->
   cs_mode_error (m_couplingSchemeErrors cs') = NO_MODE_ERROR)
  /\ same_registration cs cs'
  /\ m_nullMeshes cs' = m_nullMeshes cs
  /\ other_errors_kept 0 (m_couplingSchemeErrors cs') (m_couplingSchemeErrors cs).
Proof.
  unfold isValidMode, other_errors_kept, same_registration.
  frame_tac; auto; try congruence; intros; discriminate.
Qed.

Lemma isValidCase_frame (cs : CouplingScheme) (mesh1 mesh2 : MeshData) :
  let cs' := snd (isValidCase cs mesh1 mesh2) in
  (fst (isValidCase cs mesh1 mesh2) = true ->
   cs_case_error (m_couplingSchemeErrors cs') = NO_CASE_ERROR)
  /\ same_registration cs cs'
  /\ m_nullMeshes cs' = m_nullMeshes cs
  /\ other_errors_kept 1 (m_couplingSchemeErrors cs') (m_couplingSchemeErrors cs).
Proof.
  unfold isValidCase, other_errors_kept, same_registration.
  frame_tac; auto; try congruence; intros; discriminate.
Qed.

Lemma isValidMethod_frame (cs : CouplingScheme) (mesh1 mesh2 : MeshData) :
  let cs' := snd (isValidMethod cs mesh1 mesh2) in
  (fst (isValidMethod cs mesh1 mesh2) = true ->
   cs_method_error (m_couplingSchemeErrors cs') = NO_METHOD_ERROR)
  /\ same_registration cs cs'
  /\ other_errors_kept 2 (m_couplingSchemeErrors cs') (m_couplingSchemeErrors cs).
Proof.
  destruct cs as [id id1 id2 v1 v2 p nm iv nt mode case method model enf
                  pairs nap opts errs info rep].
  unfold isValidMethod, other_errors_kept, same_registration.
  cbn [m_nullMeshes m_contactMethod m_mesh_id1 m_mesh_id2].
  destruct nm, method; cbn;
    repeat (match goal with
            | |- context [if ?b then _ else _] => destruct b
            end; cbn);
    repeat split; auto; try congruence; intros; discriminate.
Qed.

Lemma isValidModel_frame (cs : CouplingScheme) :
  let cs' := snd (isValidModel cs) in
  (fst (isValidModel cs) = true ->
   cs_model_error (m_couplingSchemeErrors cs') = NO_MODEL_ERROR)
  /\ same_registration cs cs'
  /\ other_errors_kept 3 (m_couplingSchemeErrors cs') (m_couplingSchemeErrors cs).
Proof.
  unfold isValidModel, other_errors_kept, same_registration.
  frame_tac; auto; try congruence; intros; discriminate.
Qed.

Lemma isValidEnforcement_frame (cs : CouplingScheme) :
  let cs' := snd (isValidEnforcement cs) in
  (fst (isValidEnforcement cs) = true ->
   cs_enforcement_error (m_couplingSchemeErrors cs') = NO_ENFORCEMENT_ERROR)
  /\ same_registration cs cs'
  /\ other_errors_kept 4 (m_couplingSchemeErrors cs') (m_couplingSchemeErrors cs).
Proof.
  destruct cs as [id id1 id2 v1 v2 p nm iv nt mode case method model enf
                  pairs nap opts errs info rep].
  destruct opts as [[ev sp os] [ct kc]].
  unfold isValidEnforcement, other_errors_kept, same_registration.
  destruct method, enf; cbn;
    repeat (match goal with
            | |- context [if ?b then _ else _] => destruct b
            | |- context [match ?e with _ => _ end] => destruct e
            end; cbn);
    repeat split; auto; try congruence; intros; discriminate.
Qed.

Lemma InterfaceElementType_eqb_eq (a b : InterfaceElementType) :
  InterfaceElementType_eqb a b = true <-> a = b.
Proof. destruct a, b; cbn; split; congruence. Qed.

Lemma MemorySpace_eqb_eq (a b : MemorySpace) :
  MemorySpace_eqb a b = true <-> a = b.
Proof. destruct a, b; cbn; split; congruence. Qed.

Section Validation.

Variable checkLagrangeMultiplierData : MeshData -> Z.
Variable checkPenaltyData : MeshData -> PenaltyEnforcementOptions -> Z.

Lemma checkEnforcementData_frame (cs : CouplingScheme) (mesh1 mesh2 : MeshData) :
  let r := checkEnforcementData checkLagrangeMultiplierData checkPenaltyData
             cs mesh1 mesh2 in
  same_registration cs (snd r)
  /\ (fst r = 0 ->
      cs_enforcement_data_error (m_couplingSchemeErrors (snd r))
      = NO_ENFORCEMENT_DATA_ERROR)
  /\ cs_mode_error (m_couplingSchemeErrors (snd r))
     = cs_mode_error (m_couplingSchemeErrors cs)
  /\ cs_case_error (m_couplingSchemeErrors (snd r))
     = cs_case_error (m_couplingSchemeErrors cs)
  /\ cs_method_error (m_couplingSchemeErrors (snd r))
     = cs_method_error (m_couplingSchemeErrors cs)
  /\ cs_model_error (m_couplingSchemeErrors (snd r))
     = cs_model_error (m_couplingSchemeErrors cs)
  /\ cs_enforcement_error (m_couplingSchemeErrors (snd r))
     = cs_enforcement_error (m_couplingSchemeErrors cs).
Proof.
  unfold checkEnforcementData, same_registration.
  frame_tac; auto; try congruence; intros; discriminate.
Qed.

Local Abbreviation valid_scheme :=
  (isValidCouplingScheme checkLagrangeMultiplierData checkPenaltyData).


Lemma isValidCouplingScheme_true_found
    (cs cs' : CouplingScheme) (mm mm' : MeshManager) :
  valid_scheme cs mm = (true, cs', mm') ->
  mm' = mm
  /\ exists mesh1 mesh2,
       findData mm (m_mesh_id1 cs) = Some mesh1
       /\ findData mm (m_mesh_id2 cs) = Some mesh2
       /\ isMeshValid mesh1 = true /\ isMeshValid mesh2 = true
       /\ getElementType mesh1 = getElementType mesh2
       /\ getMemorySpace mesh1 = getMemorySpace mesh2.
Proof.
  unfold isValidCouplingScheme.
  destruct (findData mm (m_mesh_id1 cs)) as [mesh1|] eqn:F1; [|discriminate].
  destruct (findData mm (m_mesh_id2 cs)) as [mesh2|] eqn:F2; [|discriminate].
  cbv zeta.
  destruct (InterfaceElementType_eqb _ _) eqn:Et; cbn [negb].
  2:{ destruct (markInvalid_both mm _ _ _ _ F1 F2)
        as (m1 & m2 & G1 & G2 & V1 & V2).
      destruct (negb (MemorySpace_eqb _ _)).
      - destruct (markInvalid_both _ _ _ _ _ G1 G2)
          as (n1 & n2 & K1 & K2 & W1 & W2).
        rewrite K1, K2, W1. cbn. discriminate.
      - rewrite G1, G2, V1. cbn. discriminate. }
  destruct (MemorySpace_eqb _ _) eqn:Em; cbn [negb].
  2:{ destruct (markInvalid_both mm _ _ _ _ F1 F2)
        as (m1 & m2 & G1 & G2 & V1 & V2).
      rewrite G1, G2, V1. cbn. discriminate. }
  rewrite F1, F2.
  destruct (isMeshValid mesh1) eqn:V1; [|cbn; discriminate].
  destruct (isMeshValid mesh2) eqn:V2; [|cbn; discriminate].
  cbn [negb orb].
  destruct (isValidMode _) as [ok1 cs1].
  destruct (isValidCase cs1 _ _) as [ok2 cs2].
  destruct (isValidMethod cs2 _ _) as [ok3 cs3].
  destruct (isValidModel cs3) as [ok4 cs4].
  destruct (isValidEnforcement cs4) as [ok5 cs5].
  assert (G : mm = mm /\ exists m1 m2 : MeshData,
              Some mesh1 = Some m1 /\ Some mesh2 = Some m2
              /\ isMeshValid m1 = true /\ isMeshValid m2 = true
              /\ getElementType m1 = getElementType m2
              /\ getMemorySpace m1 = getMemorySpace m2).
  { split; [reflexivity|]. exists mesh1, mesh2. repeat split; auto.
    - now apply InterfaceElementType_eqb_eq.
    - now apply MemorySpace_eqb_eq. }
  destruct ok5; [|discriminate].
  destruct (checkEnforcementData _ _ cs5 _ _) as [err cs6].
  intros [= _ _ <-]. exact G.
Qed.

(** X20. When [isValidCouplingScheme] returns true, all six error fields
    of the scheme are at their no-error tags, whatever they held before;
    the registry is unchanged; and both meshes are registered, valid, of
    the same element type and in the same memory space. *)

Theorem isValidCouplingScheme_true_means_no_error
    (cs cs' : CouplingScheme) (mm mm' : MeshManager) :
  valid_scheme cs mm = (true, cs', mm') ->
  m_couplingSchemeErrors cs' = no_errors
  /\ mm' = mm
  /\ exists mesh1 mesh2,
       findData mm (m_mesh_id1 cs) = Some mesh1
       /\ findData mm (m_mesh_id2 cs) = Some mesh2
       /\ isMeshValid mesh1 = true /\ isMeshValid mesh2 = true
       /\ getElementType mesh1 = getElementType mesh2
       /\ getMemorySpace mesh1 = getMemorySpace mesh2.
Proof.
  intros H. split; [|now apply isValidCouplingScheme_true_found in H].
  revert H. unfold isValidCouplingScheme.
  destruct (findData mm (m_mesh_id1 cs)) as [mesh1|]; [|discriminate].
  destruct (findData mm (m_mesh_id2 cs)) as [mesh2|]; [|discriminate].
  cbv zeta.
  match goal with
  | |- context [findData ?m (m_mesh_id1 cs)] =>
      destruct (findData m (m_mesh_id1 cs)) as [n1|];
      [destruct (findData m (m_mesh_id2 cs)) as [n2|]|];
      try discriminate
  end.
  destruct (_ || _); [discriminate|].
  match goal with |- context [isValidMode ?c] => generalize c end.
  intros cs0.
  pose proof (isValidMode_frame cs0) as (M1 & _ & _ & Ka).
  destruct (isValidMode cs0) as [ok1 cs1]. cbn [fst snd] in *.
  pose proof (isValidCase_frame cs1 n1 n2) as (M2 & _ & _ & Kb).
  destruct (isValidCase cs1 n1 n2) as [ok2 cs2]. cbn [fst snd] in *.
  pose proof (isValidMethod_frame cs2 n1 n2) as (M3 & _ & Kc).
  destruct (isValidMethod cs2 n1 n2) as [ok3 cs3]. cbn [fst snd] in *.
  pose proof (isValidModel_frame cs3) as (M4 & _ & Kd).
  destruct (isValidModel cs3) as [ok4 cs4]. cbn [fst snd] in *.
  pose proof (isValidEnforcement_frame cs4) as (M5 & _ & Ke).
  destruct (isValidEnforcement cs4) as [ok5 cs5]. cbn [fst snd] in *.
  destruct ok5; [|discriminate].
  pose proof (checkEnforcementData_frame cs5 n1 n2)
    as (_ & Kf & Kf1 & Kf2 & Kf3 & Kf4 & Kf5).
  destruct (checkEnforcementData _ _ cs5 n1 n2) as [err cs6].
  cbn [fst snd] in *.
  destruct (Z.eqb_spec err 0) as [->|]; cbn [negb]; [|discriminate].
  destruct ok1, ok2, ok3, ok4; try discriminate.
  intros [= <- _].
  unfold other_errors_kept in *.
  destruct (m_couplingSchemeErrors cs6) as [e1 e2 e3 e4 e5 e6].
  cbn in *. unfold no_errors.
  repeat match goal with
         | H : _ /\ _ |- _ => destruct H
         | H : ?n = ?m \/ _ |- _ => destruct H as [H|H]; [discriminate H|]
         end.
  f_equal; try congruence; intuition congruence.
Qed.

End Validation.

Lemma isValidCouplingScheme_true_means_no_error_witness :
  exists cs' mm',
    isValidCouplingScheme Fixtures.lm_data_ok Fixtures.penalty_data_ok
      Samples.penalty_scheme Samples.quad_registry = (true, cs', mm')
    /\ m_couplingSchemeErrors cs' = no_errors
    /\ mm' = Samples.quad_registry
    /\ exists mesh1 mesh2,
         findData Samples.quad_registry (m_mesh_id1 Samples.penalty_scheme)
         = Some mesh1
         /\ findData Samples.quad_registry (m_mesh_id2 Samples.penalty_scheme)
            = Some mesh2
         /\ isMeshValid mesh1 = true /\ isMeshValid mesh2 = true
         /\ getElementType mesh1 = getElementType mesh2
         /\ getMemorySpace mesh1 = getMemorySpace mesh2.
Proof.
  eexists. eexists. split.
  - vm_compute. reflexivity.
  - apply (isValidCouplingScheme_true_means_no_error Fixtures.lm_data_ok
             Fixtures.penalty_data_ok Samples.penalty_scheme _
             Samples.quad_registry).
    vm_compute. reflexivity.
Defined.

Section Init.

Variable checkLagrangeMultiplierData : MeshData -> Z.
Variable checkPenaltyData : MeshData -> PenaltyEnforcementOptions -> Z.
Variable computeFaceData : MeshData -> MeshData.

(** X21. [init] returns the validity flag it stores in the scheme and
    never changes the mesh ids.  On success the two views of the scheme
    are the registry entries of its mesh ids after the face data were
    computed, and no other registry entry is touched; on failure the
    views and the node count of the scheme are left as they were. *)


End Init.


(** ** [updatePairReportingData] and [apply] *)

(** X22. Feeding a sequence of face-geometry tags to
    [updatePairReportingData] raises the three counters by the number of
    [FACE_ORIENTATION], [INVALID_FACE_INPUT] and [DEGENERATE_OVERLAP]
    tags in the sequence; the other tags are not counted. *)


Section Apply.

Variable CheckInterfacePair :
  InterfacePair -> MeshData -> MeshData -> Parameters ->
  ContactMethod -> ContactCase -> FaceGeomError * bool * Z.
Variable ApplyInterfacePhysics : CouplingScheme -> Z -> RealT -> Z.
Variable computeCommonPlaneTimeStep : CouplingScheme -> RealT -> RealT.

Local Abbreviation run :=
  (apply CheckInterfacePair ApplyInterfacePhysics computeCommonPlaneTimeStep).

Local Abbreviation checked_pair := (checked CheckInterfacePair).

Lemma check_pair_value (cs : CouplingScheme) (p : InterfacePair) :
  check_pair CheckInterfacePair cs p
  = (mkPair (m_element_id1 p) (m_element_id2 p)
       (FaceGeomError_eqb (fst (fst (checked_pair cs p))) NO_FACE_GEOM_ERROR
        && snd (fst (checked_pair cs p))),
     negb (FaceGeomError_eqb (fst (fst (checked_pair cs p))) NO_FACE_GEOM_ERROR),
     snd (checked_pair cs p)).
Proof.
  unfold check_pair, checked.
  destruct (CheckInterfacePair _ _ _ _ _ _) as [[e interact] stored].
  cbn [fst snd]. destruct (FaceGeomError_eqb e NO_FACE_GEOM_ERROR); cbn;
    [destruct interact|]; reflexivity.
Qed.

Lemma fold_add_sum {A} (f : A -> Z) (l : list A) (a : Z) :
  fold_left (fun (acc : Z) (p : A) => acc + f p) l a
  = a + fold_right Z.add 0 (map f l).
Proof.
  revert a. induction l as [|p l IH]; intros a; cbn; [lia|].
  rewrite IH. lia.
Qed.

(** X23. [apply] keeps every pair of the scheme, in order and with its
    element ids; a pair is a contact candidate afterwards exactly when
    [CheckInterfacePair] reported no face error and an interaction for
    it; the number of active pairs is the number of planes stored over
    all pairs; no other member of the scheme changes, whatever the
    physics kernel returns. *)
Theorem apply_updates_pairs (cs : CouplingScheme) (cycle : Z) (t dt : RealT) :
  let cs' := snd (fst (run cs cycle t dt)) in
  cs' = set_pairs cs (m_interface_pairs cs') (m_numActivePairs cs')
  /\ m_interface_pairs cs'
     = map (fun p =>
              mkPair (m_element_id1 p) (m_element_id2 p)
                (FaceGeomError_eqb (fst (fst (checked_pair cs p))) NO_FACE_GEOM_ERROR
                 && snd (fst (checked_pair cs p))))
         (m_interface_pairs cs)
  /\ m_numActivePairs cs'
     = fold_right Z.add 0
         (map (fun p => snd (checked_pair cs p)) (m_interface_pairs cs)).
Proof.
  unfold apply. rewrite pair_loop_spec. cbv zeta.
  destruct (negb _); cbn [fst snd];
    (split; [reflexivity|]); cbn [set_pairs m_interface_pairs m_numActivePairs];
    rewrite (fold_add_sum (fun p => snd (check_pair CheckInterfacePair cs p)));
    rewrite Z.add_0_l;
    (split; [|f_equal]); apply map_ext; intros p;
    now rewrite check_pair_value.
Qed.

End Apply.

(** ** [checkEnforcementData] *)

(** X24. [checkEnforcementData] returns 0 or 1, and 0 exactly when it
    leaves the enforcement-data error field at its no-error tag.  It
    returns 1 exactly for a mortar method ([SINGLE_MORTAR] or
    [ALIGNED_MORTAR]) with Lagrange multipliers whose data check fails
    on mesh 2, or for the common plane with penalty whose data check
    fails on either mesh; the Lagrange multiplier data of mesh 1 are
    never consulted. *)
Theorem checkEnforcementData_outcome
    (checkLagrangeMultiplierData : MeshData -> Z)
    (checkPenaltyData : MeshData -> PenaltyEnforcementOptions -> Z)
    (cs : CouplingScheme) (mesh1 mesh2 : MeshData) :
  let r := checkEnforcementData checkLagrangeMultiplierData checkPenaltyData
             cs mesh1 mesh2 in
  let pen := penalty_options (m_enforcementOptions cs) in
  (fst r = 0 \/ fst r = 1)
  /\ (fst r = 0 <->
      cs_enforcement_data_error (m_couplingSchemeErrors (snd r))
      = NO_ENFORCEMENT_DATA_ERROR)
  /\ (fst r = 1 <->
      ((m_contactMethod cs = SINGLE_MORTAR
        \/ m_contactMethod cs = ALIGNED_MORTAR)
       /\ m_enforcementMethod cs = LAGRANGE_MULTIPLIER
       /\ checkLagrangeMultiplierData mesh2 <> 0)
      \/ (m_contactMethod cs = COMMON_PLANE
          /\ m_enforcementMethod cs = PENALTY
          /\ (checkPenaltyData mesh1 pen <> 0
              \/ checkPenaltyData mesh2 pen <> 0))).
Proof.
  destruct cs as [id id1 id2 v1 v2 p nm iv nt mode case method model enf
                  pairs nap opts errs info rep].
  cbv zeta. unfold checkEnforcementData.
  cbn [m_contactMethod m_enforcementMethod m_enforcementOptions
       set_enforcement_data_error].
  destruct method, enf; cbn;
    repeat match goal with
           | |- context [?a =? 0] => destruct (Z.eqb_spec a 0); cbn
           end;
    intuition (try discriminate; try congruence).
Qed.

(** * The time step vote *)

Lemma positive_above_1e8 (dt : float) :
  (1e-8 <=? dt)%float = true -> (0 <? dt)%float = true.
Proof.
  rewrite leb_spec, ltb_spec.
  destruct (Prim2SF dt) as [[]|[]| |[] m e]; intros H;
    vm_compute in H |- *; congruence.
Qed.

Section VoteFacts.

Variable dotProd : list RealT -> list RealT -> Z -> RealT.
Variable atomicMin : RealT -> RealT -> RealT.
Variable utilities_min : RealT -> RealT -> RealT.

(** [atomicMin] leaves the accumulator as it is or stores the value, and
    [utilities::min] returns one of its arguments. *)
Hypothesis atomicMin_picks :
  forall a v, atomicMin a v = a \/ atomicMin a v = v.
Hypothesis utilities_min_picks :
  forall x y, utilities_min x y = x \/ utilities_min x y = y.

Lemma atomicMin_positive (a v : RealT) :
  (0 <? a)%float = true -> (0 <? v)%float = true ->
  (0 <? atomicMin a v)%float = true.
Proof. intros Ha Hv. destruct (atomicMin_picks a v) as [->| ->]; assumption. Qed.

Lemma capped_positive (d : RealT) :
  (0 <? d)%float = true ->
  (0 <? utilities_min d 1e6)%float = true
  /\ (0 <? utilities_min 1e6 d)%float = true.
Proof.
  intros H.
  split; [destruct (utilities_min_picks d 1e6%float) as [->| ->]
         |destruct (utilities_min_picks 1e6%float d) as [->| ->]];
    auto; reflexivity.
Qed.

Lemma vote_pair_positive (dim : Z) (proj_ratio dt : RealT)
    (st : Vote.VoteState) (plane : Vote.PlaneData) :
  (0 <? Vote.dt_temp0 st)%float = true ->
  (0 <? Vote.dt_temp1 st)%float = true ->
  let st' :=
    Vote.vote_pair dotProd atomicMin utilities_min dim proj_ratio dt st plane in
  (0 <? Vote.dt_temp0 st')%float = true
  /\ (0 <? Vote.dt_temp1 st')%float = true.
Proof.
  intros H0 H1. unfold Vote.vote_pair. cbv zeta.
  destruct (Vote.m_inContact plane).
  - match goal with
    | |- context [Vote.mkVoteState ?d0 (Vote.dt_temp1 st) _ _ _] =>
        assert (P0 : (0 <? d0)%float = true)
    end.
    { repeat match goal with
             | |- context [if (0 <? ?d)%float then _ else _] =>
                 let E := fresh "E" in destruct (0 <? d)%float eqn:E
             end; auto;
        repeat apply atomicMin_positive; auto;
        try (apply capped_positive; assumption). }
    cbn [Vote.dt_temp0 Vote.dt_temp1].
    destruct (dim =? 3); cbn [Vote.dt_temp0 Vote.dt_temp1];
      (split; [exact P0|]);
      repeat match goal with
             | |- context [if (0 <? ?d)%float then atomicMin _ _ else _] =>
                 let E := fresh "E" in destruct (0 <? d)%float eqn:E
             end; auto;
      repeat apply atomicMin_positive; auto;
      try (apply capped_positive; assumption).
  - destruct (dim =? 3); cbn [Vote.dt_temp0 Vote.dt_temp1];
      (split; [exact H0|]);
      repeat match goal with
             | |- context [if (0 <? ?d)%float then atomicMin _ _ else _] =>
                 let E := fresh "E" in destruct (0 <? d)%float eqn:E
             end; auto;
      repeat apply atomicMin_positive; auto;
      try (apply capped_positive; assumption).
Qed.

Lemma vote_fold_positive (dim : Z) (proj_ratio dt : RealT)
    (planes : list Vote.PlaneData) (st : Vote.VoteState) :
  (0 <? Vote.dt_temp0 st)%float = true ->
  (0 <? Vote.dt_temp1 st)%float = true ->
  let st' :=
    fold_left (Vote.vote_pair dotProd atomicMin utilities_min dim proj_ratio dt)
      planes st in
  (0 <? Vote.dt_temp0 st')%float = true
  /\ (0 <? Vote.dt_temp1 st')%float = true.
Proof.
  revert st. induction planes as [|p ps IH]; intros st H0 H1; cbn [fold_left];
    [now split|].
  apply IH; now apply vote_pair_positive.
Qed.

Lemma vote_positive (cs : CouplingScheme) (planes : list Vote.PlaneData)
    (dt : RealT) (st : Vote.VoteState) :
  (0 <? Vote.dt_temp0 st)%float = true ->
  (0 <? Vote.dt_temp1 st)%float = true ->
  let st' :=
    fold_left (Vote.vote_pair dotProd atomicMin utilities_min
                 (spatialDimension (m_mesh1 cs))
                 (timestep_pen_frac (m_parameters cs)) dt) planes st in
  (0 <? utilities_min (Vote.dt_temp0 st') (Vote.dt_temp1 st'))%float
  = true.
Proof.
  intros H0 H1.
  destruct (vote_fold_positive (spatialDimension (m_mesh1 cs))
              (timestep_pen_frac (m_parameters cs)) dt planes st H0 H1)
    as [P0 P1].
  cbv zeta.
  match goal with
  | |- context [utilities_min ?a ?b] =>
      destruct (utilities_min_picks a b) as [->| ->]
  end; assumption.
Qed.

(** X25. The common-plane vote never turns a positive time step into
    zero, a negative value or NaN: for a positive [dt], any pairs and
    any velocities, [computeCommonPlaneTimeStep] returns a positive
    [dt], provided each [atomicMin] keeps the accumulator or stores the
    value and [utilities::min] returns one of its arguments. *)
Theorem computeCommonPlaneTimeStep_stays_positive (cs : CouplingScheme)
    (planes : list Vote.PlaneData) (dt : RealT) :
  (0 <? dt)%float = true ->
  (0 <? fst (Vote.computeCommonPlaneTimeStep dotProd atomicMin utilities_min
               cs planes dt))%float
  = true.
Proof.
  intros Hdt. unfold Vote.computeCommonPlaneTimeStep. cbv zeta.
  destruct (kinematic_calculation _); [exact Hdt|]. cbn [fst].
  now apply vote_positive.
Qed.

(** X26. [computeTimeStep] with the common-plane vote in place, called
    with [dt] of at least 1e-8, returns -1 (the request for nodal
    velocities) or a positive time step. *)
Theorem computeTimeStep_with_vote (cs : CouplingScheme)
    (planes : list Vote.PlaneData) (dt : RealT) :
  (1e-8 <=? dt)%float = true ->
  let dt' :=
    computeTimeStep
      (fun cs dt =>
         fst (Vote.computeCommonPlaneTimeStep dotProd atomicMin utilities_min
               cs planes dt))
      cs dt in
  dt' = (-1)%float \/ (0 <? dt')%float = true.
Proof.
  intros H. pose proof (positive_above_1e8 dt H) as Hp.
  cbv zeta. unfold computeTimeStep.
  destruct (dt <? 1e-8)%float; [now right|].
  destruct (_ || _).
  - destruct (_ && _); [now left|now right].
  - destruct (m_contactMethod cs); try now right.
    destruct (EnforcementMethod_eqb _ _); [|now right].
    destruct (enable_timestep_vote _); [|now right].
    right. unfold Vote.computeCommonPlaneTimeStep. cbv zeta.
    destruct (kinematic_calculation _); [exact Hp|]. cbn [fst].
    now apply vote_positive.
Qed.

End VoteFacts.

Lemma min_update_picks (a v : RealT) :
  Samples.min_update a v = a \/ Samples.min_update a v = v.
Proof.
  unfold Samples.min_update. destruct (v <? a)%float; [now right|now left].
Defined.

Lemma least_picks (x y : RealT) :
  Samples.least x y = x \/ Samples.least x y = y.
Proof.
  unfold Samples.least. destruct (y <? x)%float; [now right|now left].
Defined.

(** One pair of faces closing on each other; the vote lowers [dt] from 1
    to about 0.275. *)
Lemma computeCommonPlaneTimeStep_stays_positive_witness :
  (0 <? fst (Vote.computeCommonPlaneTimeStep Samples.dot_n Samples.min_update
               Samples.least Samples.penalty_scheme [Samples.closing_plane] 1))%float
  = true.
Proof.
  apply (computeCommonPlaneTimeStep_stays_positive Samples.dot_n
           Samples.min_update Samples.least min_update_picks least_picks
           Samples.penalty_scheme [Samples.closing_plane] 1%float).
  reflexivity.
Defined.

Lemma computeTimeStep_with_vote_witness :
  let dt' :=
    computeTimeStep
      (fun cs dt =>
         fst (Vote.computeCommonPlaneTimeStep Samples.dot_n Samples.min_update
                Samples.least cs [Samples.closing_plane] dt))
      Samples.penalty_scheme 1%float in
  dt' = (-1)%float \/ (0 <? dt')%float = true.
Proof.
  apply (computeTimeStep_with_vote Samples.dot_n Samples.min_update
           Samples.least min_update_picks least_picks Samples.penalty_scheme
           [Samples.closing_plane] 1%float).
  reflexivity.
Defined.
